(** * astro: dependency extraction, topological ordering and stub synthesis

    A shallow embedding of the algorithmic core of [main.go]:
    - the textual dependency extractor ([extractTypeDependencies] and the
      per-kind [ExtractDependencies] strategies),
    - [TopologicalDependencyResolver.ResolveDependencies] (Kahn's algorithm
      over Go maps, with the ready queue re-sorted on every iteration),
    - the no-op stub generator ([parseMethodSignature],
      [generateZeroValues], [getZeroValue], [generateMethodImplementation]).

    Go strings are byte strings: they are modelled by [string] (one [ascii]
    per byte), and [sort.Strings] orders them byte by byte, as [String.le]
    does.  Go maps are modelled by [gmap], sets kept in a [map[string]bool]
    by [gset].  A [range] over a map visits the keys in an unspecified
    order: every such loop of the resolver takes the visiting order as an
    explicit argument (a [Schedule]), and the extractors, which return the
    keys of a map, are only ever assumed to return them in some order. *)

From Stdlib Require Import ZArith Lia Ascii.
From stdpp Require Import base tactics option list sorting relations
  gmap fin_maps fin_sets strings pretty.

Local Open Scope Z_scope.

(** ** The fragment of Go's [strings] package used by the program *)

Module GoStrings.

(** [strings.HasPrefix] *)
Definition HasPrefix (s pre : string) : bool := String.prefix pre s.

(** [strings.Contains] *)
Fixpoint Contains (s sub : string) : bool :=
  String.prefix sub s ||
  match s with
  | EmptyString => false
  | String _ s' => Contains s' sub
  end.

(** [strings.ReplaceAll s old new] for a non-empty [old]: the
    non-overlapping occurrences of [old] are replaced from left to right.
    [skip] counts the bytes of a matched occurrence still to be dropped. *)
Fixpoint replace_go (old new : string) (skip : nat) (s : string) : string :=
  match s with
  | EmptyString => EmptyString
  | String c s' =>
      match skip with
      | S k => replace_go old new k s'
      | O =>
          if String.prefix old s
          then new +:+ replace_go old new (Nat.pred (String.length old)) s'
          else String c (replace_go old new O s')
      end
  end.

Definition ReplaceAll (s old new : string) : string := replace_go old new O s.

(** [strings.Split s sep] for a separator of one byte.  The result always
    has at least one element. *)
Fixpoint split_go (sep : ascii) (cur : string) (s : string) : list string :=
  match s with
  | EmptyString => [String.rev cur]
  | String c s' =>
      if decide (c = sep)
      then String.rev cur :: split_go sep EmptyString s'
      else split_go sep (String c cur) s'
  end.

Definition Split (s : string) (sep : ascii) : list string :=
  split_go sep EmptyString s.

(** [strings.Join] *)
Fixpoint Join (elems : list string) (sep : string) : string :=
  match elems with
  | [] => EmptyString
  | [e] => e
  | e :: rest => e +:+ sep +:+ Join rest sep
  end.

(** The UTF-8 encodings of the code points for which [unicode.IsSpace]
    holds: U+0009..U+000D, U+0020, U+0085, U+00A0, U+1680,
    U+2000..U+200A, U+2028, U+2029, U+202F, U+205F, U+3000. *)
Definition spaceRunes : list string :=
  [ "009"; "010"; "011"; "012"; "013"; " " ]%char
    ≫= (λ c, [String c EmptyString]).

Definition byte (n : N) : ascii := ascii_of_N n.

Definition bytes (l : list N) : string :=
  foldr (λ n s, String (byte n) s) EmptyString l.

Definition wideSpaceRunes : list string :=
  bytes <$>
    [ [0xC2; 0x85]; [0xC2; 0xA0]; [0xE1; 0x9A; 0x80];
      [0xE2; 0x80; 0x80]; [0xE2; 0x80; 0x81]; [0xE2; 0x80; 0x82];
      [0xE2; 0x80; 0x83]; [0xE2; 0x80; 0x84]; [0xE2; 0x80; 0x85];
      [0xE2; 0x80; 0x86]; [0xE2; 0x80; 0x87]; [0xE2; 0x80; 0x88];
      [0xE2; 0x80; 0x89]; [0xE2; 0x80; 0x8A]; [0xE2; 0x80; 0xA8];
      [0xE2; 0x80; 0xA9]; [0xE2; 0x80; 0xAF]; [0xE2; 0x81; 0x9F];
      [0xE3; 0x80; 0x80] ]%N.

Definition allSpaceRunes : list string := spaceRunes ++ wideSpaceRunes.

(** Width in bytes of the white-space rune that starts [s] when read in
    the direction given by [pats]; [0] when there is none. *)
Definition spaceWidth (pats : list string) (s : string) : nat :=
  match List.find (λ p, String.prefix p s) pats with
  | Some p => String.length p
  | None => O
  end.

Fixpoint trim_go (pats : list string) (skip : nat) (s : string) : string :=
  match s with
  | EmptyString => EmptyString
  | String _ s' =>
      match skip with
      | S k => trim_go pats k s'
      | O =>
          match spaceWidth pats s with
          | O => s
          | S k => trim_go pats k s'
          end
      end
  end.

Definition trimLeftSpace (s : string) : string := trim_go allSpaceRunes O s.

Definition trimRightSpace (s : string) : string :=
  String.rev (trim_go (String.rev <$> allSpaceRunes) O (String.rev s)).

(** [strings.TrimSpace] *)
Definition TrimSpace (s : string) : string := trimRightSpace (trimLeftSpace s).

(** [strings.Trim s cutset] for a cutset of one-byte characters. *)
Fixpoint trimLeftSet (cutset : list ascii) (s : string) : string :=
  match s with
  | EmptyString => EmptyString
  | String c s' => if bool_decide (c ∈ cutset) then trimLeftSet cutset s' else s
  end.

Definition Trim (s : string) (cutset : list ascii) : string :=
  String.rev (trimLeftSet cutset (String.rev (trimLeftSet cutset s))).

Definition emit (cur : string) : list string :=
  match cur with
  | EmptyString => []
  | _ => [String.rev cur]
  end.

(** [strings.Fields]: the maximal runs of bytes between white-space
    runes. *)
Fixpoint fields_go (skip : nat) (cur : string) (s : string) : list string :=
  match s with
  | EmptyString => emit cur
  | String c s' =>
      match skip with
      | S k => fields_go k cur s'
      | O =>
          match spaceWidth allSpaceRunes s with
          | O => fields_go O (String c cur) s'
          | S k => emit cur ++ fields_go k EmptyString s'
          end
      end
  end.

Definition Fields (s : string) : list string := fields_go O EmptyString s.

(** [strings.FieldsFunc] for a predicate that holds of one-byte
    characters only (a multi-byte rune has no byte below 0x80, so
    splitting the byte string is splitting the rune string). *)
Fixpoint fieldsFunc_go (f : ascii → bool) (cur : string) (s : string)
  : list string :=
  match s with
  | EmptyString => emit cur
  | String c s' =>
      if f c then emit cur ++ fieldsFunc_go f EmptyString s'
      else fieldsFunc_go f (String c cur) s'
  end.

Definition FieldsFunc (s : string) (f : ascii → bool) : list string :=
  fieldsFunc_go f EmptyString s.

End GoStrings.

Import GoStrings.

(** ** Dependency extraction from textual type expressions *)

Definition isBuiltinType (name : string) : bool :=
  bool_decide (name ∈
    [ "bool"; "byte"; "complex64"; "complex128";
      "error"; "float32"; "float64"; "int";
      "int8"; "int16"; "int32"; "int64";
      "rune"; "string"; "uint"; "uint8";
      "uint16"; "uint32"; "uint64"; "uintptr";
      "interface"; "func"; "struct"; "any" ]).

Definition inRange (lo hi c : ascii) : bool :=
  ((N_of_ascii lo <=? N_of_ascii c) && (N_of_ascii c <=? N_of_ascii hi))%N.

Definition isLetter_ (c : ascii) : bool :=
  inRange "a" "z" c || inRange "A" "Z" c || bool_decide (c = "_"%char).

Definition isLetterDigit_ (c : ascii) : bool :=
  inRange "a" "z" c || inRange "A" "Z" c || inRange "0" "9" c
  || bool_decide (c = "_"%char).

Fixpoint allBytes (f : ascii → bool) (s : string) : bool :=
  match s with
  | EmptyString => true
  | String c s' => f c && allBytes f s'
  end.

Definition isValidIdentifier (name : string) : bool :=
  match name with
  | EmptyString => false
  | String first rest => isLetter_ first && allBytes isLetterDigit_ rest
  end.

(** The separator predicate handed to [strings.FieldsFunc]. *)
Definition isSeparator (c : ascii) : bool :=
  bool_decide (c ∈ [ "("; ")"; "["; "]"; "{"; "}"; ","; " "; "009"; "010" ]%char).

Definition cleanType (typeStr : string) : string :=
  let cleaned := ReplaceAll typeStr "*" EmptyString in
  let cleaned := ReplaceAll cleaned "[]" EmptyString in
  let cleaned := ReplaceAll cleaned "map[" EmptyString in
  let cleaned := ReplaceAll cleaned "chan " EmptyString in
  ReplaceAll cleaned "<-" EmptyString.

(** One iteration of the loop over [words]; [deps] is the Go
    [map[string]bool] used as a set. *)
Definition addWord (deps : gset string) (word : string) : gset string :=
  let word := TrimSpace word in
  if decide (word = EmptyString) then deps
  else if isBuiltinType word then deps
  else if Contains word "." then
    match Split word "." with
    | [_; part] => {[ part ]} ∪ deps
    | _ => deps
    end
  else if isValidIdentifier word then {[ word ]} ∪ deps
  else deps.

Definition typeDependencySet (typeStr : string) : gset string :=
  foldl addWord ∅ (FieldsFunc (cleanType typeStr) isSeparator).

(** The returned slice lists the keys of [deps] in the order of a [range]
    over the map, which Go leaves unspecified; [elements] fixes one such
    order. *)
Definition extractTypeDependencies (typeStr : string) : list string :=
  elements (typeDependencySet typeStr).

(** ** Declaration records *)

Record GoStruct := {
  struct_Name : string; struct_Package : string; struct_Fields : list string;
  struct_Methods : list string; struct_Position : string; struct_Level : Z }.

Record GoInterface := {
  iface_Name : string; iface_Package : string; iface_Methods : list string;
  iface_Position : string; iface_Level : Z }.

Record GoFunction := {
  func_Name : string; func_Package : string; func_Receiver : string;
  func_Parameters : list string; func_Returns : list string;
  func_Position : string; func_Level : Z }.

Record GoVariable := {
  var_Name : string; var_Package : string; var_Type : string;
  var_Position : string; var_Level : Z }.

Record GoConstant := {
  const_Name : string; const_Package : string; const_Type : string;
  const_Value : string; const_Position : string; const_Level : Z }.

Record GoImport := {
  import_Name : string; import_Path : string; import_Position : string;
  import_Level : Z }.

#[global] Instance GoStruct_eq_dec : EqDecision GoStruct.
Proof. solve_decision. Defined.
#[global] Instance GoInterface_eq_dec : EqDecision GoInterface.
Proof. solve_decision. Defined.
#[global] Instance GoFunction_eq_dec : EqDecision GoFunction.
Proof. solve_decision. Defined.
#[global] Instance GoVariable_eq_dec : EqDecision GoVariable.
Proof. solve_decision. Defined.
#[global] Instance GoConstant_eq_dec : EqDecision GoConstant.
Proof. solve_decision. Defined.
#[global] Instance GoImport_eq_dec : EqDecision GoImport.
Proof. solve_decision. Defined.

(** ** The capability interfaces of the pipeline and their instances *)

Class TypeNameProvider (T : Type) := GetTypeName : T → string.
Class DependencyExtractor (T : Type) := ExtractDependencies : T → list string.
Class ItemValidator (T : Type) := IsValid : T → bool.

Definition nonEmpty (s : string) : bool :=
  match s with EmptyString => false | _ => true end.

(** The inner loops of the struct and interface extractors skip the
    declaration's own name. *)
Definition addDepsExcept (self : string) (deps : gset string)
    (found : list string) : gset string :=
  foldl (λ deps dep, if decide (dep ≠ self) then {[ dep ]} ∪ deps else deps)
        deps found.

Definition addDeps (deps : gset string) (found : list string) : gset string :=
  foldl (λ deps dep, {[ dep ]} ∪ deps) deps found.

Definition structDependencySet (item : GoStruct) : gset string :=
  foldl (λ deps field,
           addDepsExcept (struct_Name item) deps (extractTypeDependencies field))
        ∅ (struct_Fields item).

Definition interfaceDependencySet (item : GoInterface) : gset string :=
  foldl (λ deps method,
           addDepsExcept (iface_Name item) deps (extractTypeDependencies method))
        ∅ (iface_Methods item).

Definition functionDependencySet (item : GoFunction) : gset string :=
  let deps :=
    if nonEmpty (func_Receiver item)
    then addDeps ∅ (extractTypeDependencies (func_Receiver item))
    else ∅ in
  let deps :=
    foldl (λ deps param, addDeps deps (extractTypeDependencies param))
          deps (func_Parameters item) in
  foldl (λ deps ret, addDeps deps (extractTypeDependencies ret))
        deps (func_Returns item).

#[global] Instance StructDependencyExtractor : DependencyExtractor GoStruct :=
  λ item, elements (structDependencySet item).
#[global] Instance StructTypeNameProvider : TypeNameProvider GoStruct :=
  struct_Name.
#[global] Instance StructValidator : ItemValidator GoStruct :=
  λ item, nonEmpty (struct_Name item).

#[global] Instance InterfaceDependencyExtractor : DependencyExtractor GoInterface :=
  λ item, elements (interfaceDependencySet item).
#[global] Instance InterfaceTypeNameProvider : TypeNameProvider GoInterface :=
  iface_Name.
#[global] Instance InterfaceValidator : ItemValidator GoInterface :=
  λ item, nonEmpty (iface_Name item).

#[global] Instance FunctionDependencyExtractor : DependencyExtractor GoFunction :=
  λ item, elements (functionDependencySet item).
#[global] Instance FunctionTypeNameProvider : TypeNameProvider GoFunction :=
  λ item,
    if nonEmpty (func_Receiver item)
    then func_Receiver item +:+ "." +:+ func_Name item
    else func_Name item.
#[global] Instance FunctionValidator : ItemValidator GoFunction :=
  λ item, nonEmpty (func_Name item).

#[global] Instance VariableDependencyExtractor : DependencyExtractor GoVariable :=
  λ item, extractTypeDependencies (var_Type item).
#[global] Instance VariableTypeNameProvider : TypeNameProvider GoVariable :=
  var_Name.
#[global] Instance VariableValidator : ItemValidator GoVariable :=
  λ item, nonEmpty (var_Name item).

#[global] Instance ConstantDependencyExtractor : DependencyExtractor GoConstant :=
  λ item, extractTypeDependencies (const_Type item).
#[global] Instance ConstantTypeNameProvider : TypeNameProvider GoConstant :=
  const_Name.
#[global] Instance ConstantValidator : ItemValidator GoConstant :=
  λ item, nonEmpty (const_Name item).

#[global] Instance ImportDependencyExtractor : DependencyExtractor GoImport :=
  λ _, [].
#[global] Instance ImportTypeNameProvider : TypeNameProvider GoImport :=
  import_Path.
#[global] Instance ImportValidator : ItemValidator GoImport :=
  λ item, nonEmpty (import_Path item).

(** ** Stub generation *)

(** The double-quote byte, and the Go literal for the empty string. *)
Definition dquote : ascii := ascii_of_N 34.
Definition emptyStringLiteral : string := String dquote (String dquote EmptyString).

(** The scan of [remainder] in [parseMethodSignature] ([parenCount] and the
    index are bounded by the length of the string): the byte index of the
    first [')'] met at nesting depth zero ([paramEnd]), or [None] when the
    loop ends with [paramEnd == -1].  [i] is the index of the head of [s]. *)
Fixpoint findParamEnd (parenCount : nat) (i : nat) (s : string) : option nat :=
  match s with
  | EmptyString => None
  | String c s' =>
      if decide (c = "("%char) then findParamEnd (S parenCount) (S i) s'
      else if decide (c = ")"%char) then
        match parenCount with
        | O => Some i
        | S k => findParamEnd k (S i) s'
        end
      else findParamEnd parenCount (S i) s'
  end.

Definition parseMethodSignature (methodSig : string) : string * string * string :=
  match Split methodSig "(" with
  | part0 :: (_ :: _) as rest =>
      let name := TrimSpace part0 in
      let remainder := Join rest "(" in
      match findParamEnd O O remainder with
      | None => (name, EmptyString, EmptyString)
      | Some paramEnd =>
          let params := String.substring O paramEnd remainder in
          let returns :=
            TrimSpace (String.substring (S paramEnd)
                         (String.length remainder - S paramEnd) remainder) in
          (name, params, returns)
      end
  | _ => (EmptyString, EmptyString, EmptyString)
  end.

Definition getZeroValue (typ : string) : string :=
  if HasPrefix typ "*" || HasPrefix typ "[]" || HasPrefix typ "map["
     || Contains typ "chan"
  then "nil"
  else if decide (typ = "bool") then "false"
  else if decide (typ = "string") then emptyStringLiteral
  else if bool_decide (typ ∈
            [ "int"; "int8"; "int16"; "int32"; "int64"; "uint"; "uint8";
              "uint16"; "uint32"; "uint64"; "uintptr"; "byte"; "rune" ])
       then "0"
  else if bool_decide (typ ∈ [ "float32"; "float64" ]) then "0.0"
  else if bool_decide (typ ∈ [ "complex64"; "complex128" ]) then "0+0i"
  else if decide (typ = "error") then "nil"
  else if Contains typ "." then "nil"
  else typ +:+ "{}".

(** The body of the loop over [types] in [generateZeroValues]. *)
Definition returnTypeToken (typ : string) : string :=
  let typ := TrimSpace typ in
  if Contains typ " " then
    match last (Fields typ) with
    | Some l => if decide (2 ≤ length (Fields typ))%nat then l else typ
    | None => typ
    end
  else typ.

Definition generateZeroValues (returnTypes : string) : string :=
  match returnTypes with
  | EmptyString => EmptyString
  | _ =>
      let returnTypes := Trim returnTypes [ "("; ")" ]%char in
      let types := Split returnTypes "," in
      Join ((λ typ, getZeroValue (returnTypeToken typ)) <$> types) ", "
  end.

Definition newline : string := String (ascii_of_N 10) EmptyString.
Definition tab : string := String (ascii_of_N 9) EmptyString.

Definition generateMethodImplementation (methodSig implName : string)
    (level : Z) : string :=
  let '(methodName, params, returns) := parseMethodSignature methodSig in
  match methodName with
  | EmptyString => EmptyString
  | _ =>
      "// " +:+ methodName +:+ " is a no-op implementation (Level "
        +:+ pretty level +:+ ")" +:+ newline
      +:+ "func (n *" +:+ implName +:+ ") " +:+ methodName
      +:+ "(" +:+ params +:+ ")"
      +:+ (if nonEmpty returns then " " +:+ returns else EmptyString)
      +:+ " {" +:+ newline
      +:+ tab +:+ "// TODO: Implement " +:+ methodName +:+ " (Level "
      +:+ pretty level +:+ ")" +:+ newline
      +:+ (if nonEmpty returns then
             let zeroValues := generateZeroValues returns in
             if nonEmpty zeroValues
             then tab +:+ "return " +:+ zeroValues +:+ newline
             else EmptyString
           else EmptyString)
      +:+ "}"
  end.

(** [InterfaceImplementationNamer.GetImplementationName] *)
Definition GetImplementationName (item : GoInterface) : string :=
  "NoOp" +:+ iface_Name item.

(** One iteration of the loop over [item.Methods] in [GenerateCode];
    [builder] is the text written so far. *)
Definition writeMethod (implName : string) (level : Z)
    (builder method : string) : string :=
  let methodImpl := generateMethodImplementation method implName level in
  if nonEmpty methodImpl then builder +:+ methodImpl +:+ newline else builder.

(** [InterfaceNoOpCodeGenerator.GenerateCode] *)
Definition GenerateCode (item : GoInterface) : string :=
  match iface_Name item with
  | EmptyString => EmptyString
  | _ =>
      let implName := "NoOp" +:+ iface_Name item in
      let builder :=
        "// " +:+ implName +:+ " is a no-op implementation of "
          +:+ iface_Name item +:+ " interface (Level "
          +:+ pretty (iface_Level item) +:+ ")" +:+ newline
        +:+ "type " +:+ implName +:+ " struct {" +:+ newline
        +:+ tab +:+ "level int // Dependency level: "
          +:+ pretty (iface_Level item) +:+ newline
        +:+ "}" +:+ newline +:+ newline
        +:+ "// New" +:+ implName
          +:+ " creates a new no-op implementation at the specified level"
          +:+ newline
        +:+ "func New" +:+ implName +:+ "(level int) *" +:+ implName +:+ " {"
          +:+ newline
        +:+ tab +:+ "return &" +:+ implName +:+ "{level: level}" +:+ newline
        +:+ "}" +:+ newline +:+ newline
        +:+ "// GetLevel returns the dependency level of this " +:+ implName
          +:+ newline
        +:+ "func (n *" +:+ implName +:+ ") GetLevel() int {" +:+ newline
        +:+ tab +:+ "return n.level" +:+ newline
        +:+ "}" +:+ newline +:+ newline in
      foldl (writeMethod implName (iface_Level item)) builder
            (iface_Methods item)
  end.

(** ** The topological dependency resolver *)

(** The order in which the three [range] loops over maps visit their
    entries during one call. *)
Record Schedule (T : Type) := {
  initOrder : list string;        (* [for name := range allItems] *)
  edgeOrder : list (string * T);  (* [for name, item := range allItems] *)
  queueOrder : list (string * Z)  (* [for name, degree := range inDegree] *)
}.
Arguments initOrder {T} _.
Arguments edgeOrder {T} _.
Arguments queueOrder {T} _.

(** The variables of the Kahn loop. [processed] is a [map[string]bool] whose
    entries are only ever set to [true]. *)
Record KahnState (T : Type) := {
  queue : list string;
  inDegree : gmap string Z;
  processed : gset string;
  result : list T
}.
Arguments queue {T} _.
Arguments inDegree {T} _.
Arguments processed {T} _.
Arguments result {T} _.

(** Reading a key of a Go [map[string]int]: a missing key reads as [0].
    The counters are Go [int]s (64 bits); they count dependency edges and
    are modelled in [Z] without wrap-around. *)
Definition degreeOf (d : gmap string Z) (name : string) : Z :=
  default 0 (d !! name).

Section Resolver.
Context {T : Type} `{!TypeNameProvider T} `{!DependencyExtractor T}.

Definition buildItemMap (items : list T) : gmap string T :=
  foldl (λ allItems item,
           let name := GetTypeName item in
           if decide (name = EmptyString) then allItems
           else <[name := item]> allItems)
        ∅ items.

Definition initNodes (order : list string)
  : gmap string (list string) * gmap string Z :=
  foldl (λ gd name, (<[name := []]> gd.1, <[name := 0]> gd.2)) (∅, ∅) order.

(** [graph[dep] = append(graph[dep], name); inDegree[name]++], guarded by
    the presence of [dep] in [allItems]. Reading a missing key of a Go map
    yields the zero value: [!!!] for the adjacency lists, [degreeOf] for
    the counters. *)
Definition addEdge (allItems : gmap string T) (name : string)
    (gd : gmap string (list string) * gmap string Z) (dep : string)
  : gmap string (list string) * gmap string Z :=
  if decide (is_Some (allItems !! dep))
  then (<[dep := gd.1 !!! dep ++ [name]]> gd.1,
        <[name := degreeOf gd.2 name + 1]> gd.2)
  else gd.

Definition buildEdges (allItems : gmap string T) (order : list (string * T))
    (gd : gmap string (list string) * gmap string Z)
  : gmap string (list string) * gmap string Z :=
  foldl (λ gd entry,
           foldl (addEdge allItems entry.1) gd (ExtractDependencies entry.2))
        gd order.

Definition buildGraph (allItems : gmap string T) (sch : Schedule T)
  : gmap string (list string) * gmap string Z :=
  buildEdges allItems (edgeOrder sch) (initNodes (initOrder sch)).

Definition initQueue (order : list (string * Z)) : list string :=
  foldl (λ queue entry,
           if decide (entry.2 = 0) then queue ++ [entry.1] else queue)
        [] order.

(** [inDegree[dependent]--], then enqueue when the counter is zero. *)
Definition visitDependent (dq : gmap string Z * list string)
    (dependent : string) : gmap string Z * list string :=
  let d := <[dependent := degreeOf dq.1 dependent - 1]> dq.1 in
  if decide (degreeOf d dependent = 0) then (d, dq.2 ++ [dependent]) else (d, dq.2).

(** One iteration of [for len(queue) > 0]: sort the queue, take its head,
    skip it if already processed, else emit its item and visit its
    dependents. *)
Definition kahnStep (allItems : gmap string T)
    (graph : gmap string (list string)) (st : KahnState T) : KahnState T :=
  match merge_sort String.le (queue st) with
  | [] => st
  | current :: rest =>
      if decide (current ∈ processed st)
      then {| queue := rest; inDegree := inDegree st;
              processed := processed st; result := result st |}
      else
        let result' :=
          match allItems !! current with
          | Some item => result st ++ [item]
          | None => result st
          end in
        let dq := foldl visitDependent (inDegree st, rest) (graph !!! current) in
        {| queue := dq.2; inDegree := dq.1;
           processed := {[ current ]} ∪ processed st; result := result' |}
  end.

Fixpoint kahnLoop (fuel : nat) (allItems : gmap string T)
    (graph : gmap string (list string)) (st : KahnState T)
  : option (KahnState T) :=
  match queue st with
  | [] => Some st
  | _ :: _ =>
      match fuel with
      | O => None
      | S fuel' => kahnLoop fuel' allItems graph (kahnStep allItems graph st)
      end
  end.

(** Number of edges leaving the names not yet processed. *)
Definition pendingEdges (graph : gmap string (list string))
    (done : gset string) : nat :=
  sum_list_with (λ name, length (graph !!! name))
                (elements (dom graph ∖ done)).

(** A bound on the number of iterations of the loop. *)
Definition loopBound (graph : gmap string (list string)) (st : KahnState T)
  : nat :=
  (length (queue st) + pendingEdges graph (processed st))%nat.

(** [for _, item := range items]: append what the loop did not emit. *)
Definition remaining (done : gset string) (items : list T) : list T :=
  filter (λ item, GetTypeName item ∉ done) items.

(** The variables of the loop when it is entered. *)
Definition initState (allItems : gmap string T) (sch : Schedule T)
  : KahnState T :=
  {| queue := initQueue (queueOrder sch);
     inDegree := (buildGraph allItems sch).2;
     processed := ∅; result := [] |}.

Definition runKahn (allItems : gmap string T) (sch : Schedule T)
  : option (KahnState T) :=
  let graph := (buildGraph allItems sch).1 in
  let st0 := initState allItems sch in
  kahnLoop (loopBound graph st0) allItems graph st0.

Definition ResolveDependenciesWith (sch : Schedule T) (items : list T)
  : option (list T) :=
  st ← runKahn (buildItemMap items) sch;
  Some (result st ++ remaining (processed st) items).

(** The schedule that visits every map in the order of [map_to_list]. *)
Definition defaultSchedule (items : list T) : Schedule T :=
  let allItems := buildItemMap items in
  let entries := map_to_list allItems in
  {| initOrder := entries.*1;
     edgeOrder := entries;
     queueOrder :=
       map_to_list (buildEdges allItems entries (initNodes entries.*1)).2 |}.

Definition ResolveDependencies (items : list T) : option (list T) :=
  ResolveDependenciesWith (defaultSchedule items) items.

(** A schedule is one that Go may follow: each loop visits every entry of
    its map exactly once. *)
Definition validSchedule (items : list T) (sch : Schedule T) : Prop :=
  let allItems := buildItemMap items in
  initOrder sch ≡ₚ (map_to_list allItems).*1
  ∧ edgeOrder sch ≡ₚ map_to_list allItems
  ∧ queueOrder sch ≡ₚ map_to_list (buildGraph allItems sch).2.

(** The dependency graph over the names of [allItems]: an edge runs from
    a dependency to its dependent. *)
Definition dependsOn (allItems : gmap string T) (dep name : string) : Prop :=
  is_Some (allItems !! dep)
  ∧ ∃ item, allItems !! name = Some item ∧ dep ∈ ExtractDependencies item.

Definition acyclic (items : list T) : Prop :=
  ∀ name, ¬ tc (dependsOn (buildItemMap items)) name name.

Definition cyclic (items : list T) (name : string) : Prop :=
  tc (dependsOn (buildItemMap items)) name name.

End Resolver.

(** ** Vocabulary of the specification *)

(** Two graph/in-degree pairs agree when the counters coincide and every
    adjacency list holds the same names, in whatever order. *)
Definition sameGraph (gd gd' : gmap string (list string) * gmap string Z)
  : Prop :=
  gd.2 = gd'.2 ∧ ∀ k, gd.1 !!! k ≡ₚ gd'.1 !!! k.

(** Two loop states agree when they differ at most in the order of the
    ready queue, which the loop sorts before it reads it. *)
Definition sameState {T} (st st' : KahnState T) : Prop :=
  queue st ≡ₚ queue st' ∧ inDegree st = inDegree st'
  ∧ processed st = processed st' ∧ result st = result st'.

Definition sameVisit (dq dq' : gmap string Z * list string) : Prop :=
  dq.1 = dq'.1 ∧ dq.2 ≡ₚ dq'.2.

(** All edges that [buildEdges] adds, in the order in which it adds them. *)
Definition edgeList {T} (E : DependencyExtractor T)
    (order : list (string * T)) : list (string * string) :=
  order ≫= (λ entry, (λ dep, (entry.1, dep)) <$> ExtractDependencies entry.2).

Definition addEdgePair {T} (allItems : gmap string T)
    (gd : gmap string (list string) * gmap string Z) (e : string * string)
  : gmap string (list string) * gmap string Z :=
  addEdge allItems e.1 gd e.2.

(** The dependencies of [name] that are themselves names of [allItems],
    as the edge-building loop sees them (with repetitions, should the
    extractor return any). *)
Definition depsIn {T} `{!DependencyExtractor T} (allItems : gmap string T)
    (name : string) : list string :=
  filter (λ dep, is_Some (allItems !! dep))
         (from_option ExtractDependencies [] (allItems !! name)).

(** Those among them that the loop has not processed yet. *)
Definition pending {T} `{!DependencyExtractor T} (allItems : gmap string T)
    (done : gset string) (name : string) : list string :=
  filter (λ dep, dep ∉ done) (depsIn allItems name).

(** Number of occurrences of [x] in [l]. *)
Definition occ (x : string) (l : list string) : nat :=
  length (filter (λ y, y = x) l).

(** The invariant of the Kahn loop. *)
Record kahnInv {T} `{!TypeNameProvider T} `{!DependencyExtractor T}
    (allItems : gmap string T) (st : KahnState T) : Prop := {
  inv_processed : processed st = list_to_set (GetTypeName <$> result st);
  inv_nodup : NoDup (GetTypeName <$> result st);
  inv_result : ∀ item, item ∈ result st →
    allItems !! GetTypeName item = Some item;
  inv_order : ∀ i name dep,
    (GetTypeName <$> result st) !! i = Some name →
    dependsOn allItems dep name →
    ∃ j, (j < i)%nat ∧ (GetTypeName <$> result st) !! j = Some dep;
  inv_degree : ∀ name,
    is_Some (allItems !! name) → name ∉ processed st →
    degreeOf (inDegree st) name = Z.of_nat (length (pending allItems (processed st) name));
  inv_queue_nodup : NoDup (queue st);
  inv_queue : ∀ name, name ∈ queue st →
    is_Some (allItems !! name) ∧ name ∉ processed st
    ∧ degreeOf (inDegree st) name = 0;
  inv_ready : ∀ name,
    is_Some (allItems !! name) → name ∉ processed st →
    degreeOf (inDegree st) name = 0 → name ∈ queue st
}.

(** The dependency relation read off the input list itself: the name of
    some input item occurs in the dependency list of another input item. *)
Definition inputDependsOn {T} `{!TypeNameProvider T} `{!DependencyExtractor T}
    (items : list T) (dep name : string) : Prop :=
  ∃ a b, a ∈ items ∧ b ∈ items ∧ GetTypeName a = dep ∧ GetTypeName b = name
         ∧ dep ∈ ExtractDependencies b.

Definition inputAcyclic {T} `{!TypeNameProvider T} `{!DependencyExtractor T}
    (items : list T) : Prop :=
  ∀ name, ¬ tc (inputDependsOn items) name name.

(** A checkable certificate of acyclicity: a ranking of the names that
    every edge of the graph strictly increases. *)
Definition respectsRank {T} `{!DependencyExtractor T}
    (rank : string → nat) (allItems : gmap string T) : bool :=
  forallb (λ e : string * string,
             negb (bool_decide (is_Some (allItems !! e.2)))
             || (rank e.2 <? rank e.1)%nat)
          (edgeList _ (map_to_list allItems)).

(** The output order property of the ordering contract, for one input:
    a present dependency never comes after its dependent. *)
Definition dependenciesFirst {T} `{!TypeNameProvider T}
    `{!DependencyExtractor T} (items : list T) : Prop :=
  inputAcyclic items →
  ∀ out, ResolveDependencies items = Some out →
  ∀ i j a b, a ∈ items → out !! i = Some a → out !! j = Some b →
             GetTypeName a ∈ ExtractDependencies b → (i ≤ j)%nat.

(** The coverage property of the ordering contract, for one input: the
    output holds every input item exactly once. *)
Definition coversInput {T} `{!TypeNameProvider T} `{!DependencyExtractor T}
    (items : list T) : Prop :=
  ∀ out, ResolveDependencies items = Some out →
         length out = length items ∧ out ≡ₚ items.


(** The outcome of the parenthesis scan of [parseMethodSignature] on a whole
    signature: [None] when there is no opening parenthesis to split on or
    the scan of the remainder ends without a boundary. *)
Definition paramBoundary (methodSig : string) : option nat :=
  match Split methodSig "(" with
  | _ :: (_ :: _) as rest => findParamEnd O O (Join rest "(")
  | _ => None
  end.

(** The method name [parseMethodSignature] returns. *)
Definition methodNameOf (methodSig : string) : string :=
  match Split methodSig "(" with
  | part0 :: _ :: _ => TrimSpace part0
  | _ => EmptyString
  end.

(** The stub emitted for a method without parameters and results. *)
Definition bareStub (methodName implName : string) (level : Z) : string :=
  "// " +:+ methodName +:+ " is a no-op implementation (Level "
    +:+ pretty level +:+ ")" +:+ newline
  +:+ "func (n *" +:+ implName +:+ ") " +:+ methodName +:+ "() {" +:+ newline
  +:+ tab +:+ "// TODO: Implement " +:+ methodName +:+ " (Level "
  +:+ pretty level +:+ ")" +:+ newline
  +:+ "}".

(** The skipping rule for signatures without a parameter boundary. *)
Definition unparseableSkipped (methodSig implName : string) (level : Z) : Prop :=
  paramBoundary methodSig = None →
  generateMethodImplementation methodSig implName level = EmptyString.

(** Sample declarations. *)
Definition mkVar (name typ : string) : GoVariable :=
  {| var_Name := name; var_Package := "main"; var_Type := typ;
     var_Position := "a.go:1:1"; var_Level := 0 |}.

Definition mkVarAt (name typ pos : string) : GoVariable :=
  {| var_Name := name; var_Package := "main"; var_Type := typ;
     var_Position := pos; var_Level := 0 |}.

Definition mkInterface (name : string) (methods : list string) : GoInterface :=
  {| iface_Name := name; iface_Package := "main"; iface_Methods := methods;
     iface_Position := "a.go:1:1"; iface_Level := 0 |}.

Definition mkFunction (name : string) (params returns : list string)
  : GoFunction :=
  {| func_Name := name; func_Package := "main"; func_Receiver := EmptyString;
     func_Parameters := params; func_Returns := returns;
     func_Position := "a.go:1:1"; func_Level := 0 |}.

Definition mkStruct (name : string) (fields : list string) : GoStruct :=
  {| struct_Name := name; struct_Package := "main"; struct_Fields := fields;
     struct_Methods := []; struct_Position := "a.go:1:1"; struct_Level := 0 |}.

(** Two interfaces as [InterfaceNodeVisitor] records them (method
    signatures rendered by [formatFuncSignature]): [Writer] mentions
    [Reader]. *)
Definition readerInterface : GoInterface :=
  mkInterface "Reader" ["Read([]byte) (int, error)"].
Definition writerInterface : GoInterface :=
  mkInterface "Writer" ["Write(Reader, []byte) (int, error)"; "Close() error"].

(** A schedule that visits every map in the reverse of the default order. *)
Definition reverseSchedule {T} `{!TypeNameProvider T} `{!DependencyExtractor T}
    (items : list T) : Schedule T :=
  let allItems := buildItemMap items in
  let entries := reverse (map_to_list allItems) in
  {| initOrder := entries.*1;
     edgeOrder := entries;
     queueOrder :=
       reverse (map_to_list (buildEdges allItems entries (initNodes entries.*1)).2) |}.

(** ** Rendering of type expressions *)

(** The expressions of [go/ast] that [formatType] and [formatExpr] tell
    apart; [Nil] is the nil expression and [OtherExpr] stands for every
    other kind of node.  The direction of a channel type is [ast.SEND],
    [ast.RECV] or both. *)
Inductive ChanDir := SEND | RECV | BOTH.

Inductive Expr : Type :=
| Nil
| Ident (Name : string)
| BasicLit (Value : string)
| BinaryExpr (X : Expr) (Op : string) (Y : Expr)
| UnaryExpr (Op : string) (X : Expr)
| StarExpr (X : Expr)
| ArrayType (Len Elt : Expr)
| MapType (Key Value : Expr)
| ChanType (Dir : ChanDir) (Value : Expr)
| FuncType (Params Results : option (list Field))
| InterfaceType (Methods : option (list Field))
| SelectorExpr (X : Expr) (Sel : string)
| IndexExpr (X Index : Expr)
| OtherExpr
with Field : Type :=
| mkField (Names : list string) (Type_ : Expr).

Definition field_Names (field : Field) : list string :=
  match field with mkField names _ => names end.

Definition field_Type (field : Field) : Expr :=
  match field with mkField _ typ => typ end.

(** [strings.TrimPrefix] *)
Definition TrimPrefix (s pre : string) : string :=
  if HasPrefix s pre
  then String.substring (String.length pre)
         (String.length s - String.length pre) s
  else s.

Fixpoint formatExpr (expr : Expr) : string :=
  match expr with
  | Nil => EmptyString
  | BasicLit value => value
  | Ident name => name
  | BinaryExpr x op y => formatExpr x +:+ " " +:+ op +:+ " " +:+ formatExpr y
  | UnaryExpr op x => op +:+ formatExpr x
  | _ => "complex_expr"
  end.

(** The loops over [ft.Params.List] and [ft.Results.List] in
    [formatFuncType]: the type of a field, once for each of its names, or
    once when it has none. *)
Definition fieldTypes (formatType : Expr → string) (fields : list Field)
  : list string :=
  fields ≫= (λ field,
    let paramType := formatType (field_Type field) in
    match field_Names field with
    | [] => [paramType]
    | names => (λ _, paramType) <$> names
    end).

(** The local variables [params] and [results] of [formatFuncType]. *)
Definition funcParams (formatType : Expr → string)
    (Params : option (list Field)) : string :=
  match Params with
  | Some fields => Join (fieldTypes formatType fields) ", "
  | None => EmptyString
  end.

Definition funcResults (formatType : Expr → string)
    (Results : option (list Field)) : string :=
  match Results with
  | Some fields =>
      match fieldTypes formatType fields with
      | [] => EmptyString
      | [result] => " " +:+ result
      | resultList => " (" +:+ Join resultList ", " +:+ ")"
      end
  | None => EmptyString
  end.

Fixpoint formatType (expr : Expr) : string :=
  match expr with
  | Nil => EmptyString
  | Ident name => name
  | StarExpr x => "*" +:+ formatType x
  | ArrayType len elt =>
      match len with
      | Nil => "[]" +:+ formatType elt
      | _ => "[" +:+ formatExpr len +:+ "]" +:+ formatType elt
      end
  | MapType key value => "map[" +:+ formatType key +:+ "]" +:+ formatType value
  | ChanType dir value =>
      let dir :=
        match dir with
        | SEND | RECV => "<-"
        | BOTH => EmptyString
        end in
      dir +:+ "chan " +:+ formatType value
  | FuncType params results =>
      "func(" +:+ funcParams formatType params +:+ ")"
        +:+ funcResults formatType results
  | InterfaceType _ => "interface{}"
  | SelectorExpr x sel => formatType x +:+ "." +:+ sel
  | IndexExpr x index => formatType x +:+ "[" +:+ formatType index +:+ "]"
  | _ => "unknown"
  end.

(** [formatFuncType], on the two field lists of its [*ast.FuncType]. *)
Definition formatFuncType (Params Results : option (list Field)) : string :=
  "func(" +:+ funcParams formatType Params +:+ ")"
    +:+ funcResults formatType Results.

Definition formatFuncSignature (name : string)
    (Params Results : option (list Field)) : string :=
  name +:+ TrimPrefix (formatFuncType Params Results) "func".

(** ** The generic visitor and the analysis engine *)

Class NodeVisitor (Node T : Type) := VisitNode : Node → T.

Section Engine.
Context {Node T : Type} `{!NodeVisitor Node T} `{!ItemValidator T}.

(** [GenericVisitor.Visit].  The collector is the slice the result
    collector holds; [AddResult] appends to it. *)
Definition Visit (collector : list T) (node : Node) : list T * T :=
  let result := VisitNode node in
  (if IsValid result then collector ++ [result] else collector, result).

(** [AnalysisEngine.Analyze]: [ast.Inspect] hands the nodes of its
    traversal to the visitor one after the other; [inspected] is that
    sequence. *)
Definition Analyze (inspected : list Node) (collector : list T) : list T :=
  foldl (λ collector node, (Visit collector node).1) collector inspected.

(** [AnalysisEngine.GetSortedResults]; [None] is the nil sorter.  A
    [DependencySorter] hands the items to its resolver. *)
Definition GetSortedResults (sorter : option (list T → option (list T)))
    (collector : list T) : option (list T) :=
  match sorter with
  | Some SortItems => SortItems collector
  | None => Some collector
  end.

End Engine.

(** Nesting depth of the parentheses of [s], read from depth [depth];
    [None] when a closing parenthesis is met at depth zero. *)
Fixpoint parenDepth (depth : nat) (s : string) : option nat :=
  match s with
  | EmptyString => Some depth
  | String c s' =>
      if decide (c = "("%char) then parenDepth (S depth) s'
      else if decide (c = ")"%char) then
        match depth with
        | O => None
        | S k => parenDepth k s'
        end
      else parenDepth depth s'
  end.

(** Every parenthesis of [s] has its partner in [s]. *)
Definition balanced (s : string) : Prop := parenDepth O s = Some O.

(** The bytes of a possibly qualified ASCII name: letters, digits, the
    underscore and the dot. *)
Definition isNameByte (c : ascii) : bool :=
  isLetterDigit_ c || bool_decide (c = "."%char).

(** Strings and expressions without any parenthesis: no identifier,
    literal or operator of the expression has one. *)
Definition noParen (s : string) : bool :=
  allBytes (λ c, negb (bool_decide (c ∈ [ "("; ")" ]%char))) s.

Fixpoint parenFree (expr : Expr) : bool :=
  match expr with
  | Nil | InterfaceType _ | OtherExpr => true
  | Ident name => noParen name
  | BasicLit value => noParen value
  | BinaryExpr x op y => parenFree x && noParen op && parenFree y
  | UnaryExpr op x => noParen op && parenFree x
  | StarExpr x => parenFree x
  | ArrayType len elt => parenFree len && parenFree elt
  | MapType key value => parenFree key && parenFree value
  | ChanType _ value => parenFree value
  | FuncType params results =>
      match params with
      | Some fields => forallb (λ field, parenFree (field_Type field)) fields
      | None => true
      end
      && match results with
         | Some fields => forallb (λ field, parenFree (field_Type field)) fields
         | None => true
         end
  | SelectorExpr x sel => parenFree x && noParen sel
  | IndexExpr x index => parenFree x && parenFree index
  end.

Definition parenFreeFields (fields : option (list Field)) : bool :=
  match fields with
  | Some fields => forallb (λ field, parenFree (field_Type field)) fields
  | None => true
  end.

(** The number of commas of a string. *)
Fixpoint commas (s : string) : nat :=
  match s with
  | EmptyString => O
  | String c s' => ((if decide (c = ","%char) then 1 else 0) + commas s')%nat
  end.

(** Reading [s] leaves every nesting depth as it was. *)
Definition keepsDepth (s : string) : Prop :=
  ∀ depth, parenDepth depth s = Some depth.

Definition notComma (c : ascii) : bool := negb (bool_decide (c = ","%char)).

(** * Properties *)

Lemma degreeOf_insert_eq (d : gmap string Z) name z :
  degreeOf (<[name := z]> d) name = z.
Proof. unfold degreeOf. by rewrite lookup_insert_eq. Qed.

Lemma degreeOf_insert_ne (d : gmap string Z) name name' z :
  name ≠ name' → degreeOf (<[name := z]> d) name' = degreeOf d name'.
Proof. intros. unfold degreeOf. by rewrite lookup_insert_ne. Qed.

Lemma degreeOf_empty name : degreeOf ∅ name = 0.
Proof. done. Qed.

(** ** Termination of the Kahn loop *)

Section Termination.
Context {T : Type} `{!TypeNameProvider T} `{!DependencyExtractor T}.
Implicit Types (allItems : gmap string T) (graph : gmap string (list string)).
Implicit Types (st : KahnState T).

Lemma visitDependents_length (dq : gmap string Z * list string) l :
  (length (foldl visitDependent dq l).2 ≤ length dq.2 + length l)%nat.
Proof.
  revert dq. induction l as [|x l IH]; intros dq; simpl; [lia|].
  etrans; [apply IH|]. unfold visitDependent.
  case_decide; simpl; rewrite ?length_app; simpl; lia.
Qed.

Lemma pendingEdges_visit graph (done : gset string) current :
  current ∉ done →
  (pendingEdges graph ({[ current ]} ∪ done) + length (graph !!! current)
   = pendingEdges graph done)%nat.
Proof.
  intros Hfresh. unfold pendingEdges.
  destruct (decide (current ∈ dom graph)) as [Hin|Hout].
  - assert (dom graph ∖ done
            = {[ current ]} ∪ dom graph ∖ ({[ current ]} ∪ done)) as ->.
    { apply set_eq. intros x. rewrite !elem_of_union, !elem_of_difference,
        !elem_of_union, elem_of_singleton.
      destruct (decide (x = current)); naive_solver. }
    rewrite elements_union_singleton by set_solver.
    simpl. lia.
  - assert (dom graph ∖ ({[ current ]} ∪ done) = dom graph ∖ done) as ->
      by set_solver.
    apply not_elem_of_dom in Hout.
    rewrite lookup_total_alt, Hout. simpl. lia.
Qed.

Lemma kahnStep_bound allItems graph st :
  queue st ≠ [] →
  (loopBound graph (kahnStep allItems graph st) < loopBound graph st)%nat.
Proof.
  intros Hq. unfold kahnStep, loopBound.
  pose proof (merge_sort_Permutation String.le (queue st)) as Hperm.
  destruct (merge_sort String.le (queue st)) as [|current rest].
  { apply Permutation_nil_l in Hperm. done. }
  apply Permutation_length in Hperm. simpl in Hperm.
  case_decide as Hdone; simpl; [lia|].
  pose proof (visitDependents_length (inDegree st, rest) (graph !!! current)).
  pose proof (pendingEdges_visit graph (processed st) current Hdone).
  simpl in *. lia.
Qed.

Lemma kahnLoop_total fuel allItems graph st :
  (loopBound graph st ≤ fuel)%nat →
  is_Some (kahnLoop fuel allItems graph st).
Proof.
  revert st. induction fuel as [|fuel IH]; intros st Hle; simpl.
  - destruct (queue st) eqn:Hq; [eauto|].
    unfold loopBound in Hle. rewrite Hq in Hle. simpl in Hle. lia.
  - destruct (queue st) eqn:Hq; [eauto|].
    apply IH.
    assert (queue st ≠ []) as Hne by (rewrite Hq; done).
    pose proof (kahnStep_bound allItems graph st Hne). lia.
Qed.

(** More fuel than needed does not change the outcome. *)
Lemma kahnLoop_fuel fuel fuel' allItems graph st st' :
  kahnLoop fuel allItems graph st = Some st' →
  (fuel ≤ fuel')%nat →
  kahnLoop fuel' allItems graph st = Some st'.
Proof.
  revert fuel' st. induction fuel as [|fuel IH]; intros fuel' st; simpl.
  - destruct (queue st) eqn:Hq; [|done]. intros [= <-] _.
    destruct fuel'; simpl; rewrite Hq; done.
  - destruct (queue st) eqn:Hq.
    + intros [= <-] _. destruct fuel'; simpl; rewrite Hq; done.
    + intros Hrun Hle. destruct fuel' as [|fuel']; [lia|].
      simpl. rewrite Hq. apply IH; [done|lia].
Qed.

Lemma kahnLoop_queue fuel allItems graph st st' :
  kahnLoop fuel allItems graph st = Some st' → queue st' = [].
Proof.
  revert st. induction fuel as [|fuel IH]; intros st; simpl.
  - destruct (queue st) eqn:Hq; [|done]. by intros [= <-].
  - destruct (queue st) eqn:Hq; [by intros [= <-]|]. apply IH.
Qed.

End Termination.

(** ** Independence from the order of map iteration *)

Section FoldPermutation.
Context {A B : Type} (R : relation A) `{!PreOrder R}.

Lemma foldl_related (f g : A → B → A) l a a' :
  (∀ a a' x, R a a' → R (f a x) (g a' x)) →
  R a a' → R (foldl f a l) (foldl g a' l).
Proof.
  intros Hstep. revert a a'.
  induction l as [|x l IH]; intros a a' Ha; simpl; auto.
Qed.

Lemma foldl_permutation (f : A → B → A) l1 l2 a a' :
  (∀ a a' x, R a a' → R (f a x) (f a' x)) →
  (∀ a x y, R (f (f a x) y) (f (f a y) x)) →
  l1 ≡ₚ l2 → R a a' → R (foldl f a l1) (foldl f a' l2).
Proof.
  intros Hproper Hcomm Hperm. revert a a'.
  induction Hperm as [|x l1 l2 _ IH|x y l|l1 l2 l3 _ IH1 _ IH2];
    intros a a' Ha; simpl.
  - done.
  - apply IH, Hproper, Ha.
  - apply foldl_related; [done|].
    etrans; [apply Hcomm|]. by do 2 apply Hproper.
  - etrans; [apply IH1; reflexivity|]. by apply IH2.
Qed.
End FoldPermutation.

Lemma bind_pointwise_Permutation {A B} (f g : A → list B) l1 l2 :
  (∀ x, f x ≡ₚ g x) → l1 ≡ₚ l2 → l1 ≫= f ≡ₚ l2 ≫= g.
Proof.
  intros Hfg Hperm. rewrite <-Hperm. clear l2 Hperm.
  induction l1 as [|x l IH]; [done|].
  rewrite !bind_cons. by rewrite IH, Hfg.
Qed.

#[global] Instance sameGraph_equiv : Equivalence sameGraph.
Proof.
  split.
  - intros gd. split; [done|]. intros k. reflexivity.
  - intros gd gd' [Hd Hg]. split; [done|]. intros k. by symmetry.
  - intros gd1 gd2 gd3 [Hd Hg] [Hd' Hg']. split; [congruence|].
    intros k. etrans; [apply Hg|apply Hg'].
Qed.

#[global] Instance sameVisit_equiv : Equivalence sameVisit.
Proof.
  split.
  - intros dq. by split.
  - intros dq dq' [??]. by split.
  - intros dq1 dq2 dq3 [??] [??]. split; [congruence|]. by etrans.
Qed.

Section Determinism.
Context {T : Type} `{!TypeNameProvider T}.
Implicit Types (allItems : gmap string T) (E : DependencyExtractor T).

Lemma initNodes_permutation (l1 l2 : list string) :
  l1 ≡ₚ l2 → initNodes l1 = initNodes l2.
Proof.
  intros Hperm. unfold initNodes.
  apply (foldl_permutation (=)); [congruence| |done|done].
  intros [g d] x y. simpl. f_equal.
  - destruct (decide (x = y)) as [->|]; [done|]. by apply insert_insert_ne.
  - destruct (decide (x = y)) as [->|]; [done|]. by apply insert_insert_ne.
Qed.

Lemma buildEdges_edgeList E allItems order gd :
  @buildEdges T E allItems order gd
  = foldl (addEdgePair allItems) gd (edgeList E order).
Proof.
  unfold buildEdges, edgeList. revert gd.
  induction order as [|entry order IH]; intros gd; [done|].
  rewrite bind_cons, foldl_app. simpl. rewrite IH. f_equal.
  by rewrite foldl_fmap.
Qed.

Lemma addEdgePair_proper allItems gd gd' e :
  sameGraph gd gd' →
  sameGraph (addEdgePair allItems gd e) (addEdgePair allItems gd' e).
Proof.
  intros [Hd Hg]. destruct e as [name dep].
  unfold addEdgePair, addEdge. simpl. case_decide; [|by split].
  split; simpl; [by rewrite Hd|].
  intros k. destruct (decide (dep = k)) as [->|Hne].
  - rewrite !lookup_total_insert_eq. by rewrite Hg.
  - rewrite !lookup_total_insert_ne by done. apply Hg.
Qed.

Lemma addEdgePair_comm allItems gd e1 e2 :
  sameGraph (addEdgePair allItems (addEdgePair allItems gd e1) e2)
            (addEdgePair allItems (addEdgePair allItems gd e2) e1).
Proof.
  destruct e1 as [n1 d1], e2 as [n2 d2], gd as [g d].
  unfold addEdgePair, addEdge. simpl.
  repeat case_decide; simpl; try reflexivity.
  split; simpl.
  - destruct (decide (n1 = n2)) as [->|Hne].
    + by rewrite !degreeOf_insert_eq, !insert_insert_eq.
    + rewrite !degreeOf_insert_ne by done. by apply insert_insert_ne.
  - intros k. destruct (decide (d1 = d2)) as [->|Hne].
    + rewrite !lookup_total_insert_eq, !insert_insert_eq.
      destruct (decide (d2 = k)) as [->|].
      * rewrite !lookup_total_insert_eq, <-!app_assoc.
        apply Permutation_app_head, Permutation_swap.
      * by rewrite !lookup_total_insert_ne.
    + rewrite (lookup_total_insert_ne g d1 d2),
        (lookup_total_insert_ne g d2 d1) by done.
      by rewrite insert_insert_ne.
Qed.

Lemma buildEdges_permutation E1 E2 allItems order1 order2 gd gd' :
  (∀ item, @ExtractDependencies T E1 item ≡ₚ @ExtractDependencies T E2 item) →
  order1 ≡ₚ order2 → sameGraph gd gd' →
  sameGraph (@buildEdges T E1 allItems order1 gd)
            (@buildEdges T E2 allItems order2 gd').
Proof.
  intros HE Hperm Hgd. rewrite !buildEdges_edgeList.
  apply (foldl_permutation sameGraph); [|apply addEdgePair_comm| |done].
  - intros. by apply addEdgePair_proper.
  - apply bind_pointwise_Permutation; [|done].
    intros entry. by apply fmap_Permutation.
Qed.

Lemma initQueue_filter (order : list (string * Z)) :
  initQueue order = (filter (λ entry, entry.2 = 0) order).*1.
Proof.
  unfold initQueue.
  enough (∀ acc, foldl (λ queue (entry : string * Z),
                   if decide (entry.2 = 0) then queue ++ [entry.1] else queue)
                 acc order
                 = acc ++ (filter (λ entry, entry.2 = 0) order).*1) as Hgen
    by apply (Hgen []).
  induction order as [|entry order IH]; intros acc; simpl.
  - by rewrite app_nil_r.
  - rewrite IH, filter_cons. case_decide; [|done].
    by rewrite fmap_cons, <-app_assoc.
Qed.

Lemma initQueue_permutation (order1 order2 : list (string * Z)) :
  order1 ≡ₚ order2 → initQueue order1 ≡ₚ initQueue order2.
Proof. intros Hperm. rewrite !initQueue_filter. by rewrite Hperm. Qed.

Lemma merge_sort_permutation (l1 l2 : list string) :
  l1 ≡ₚ l2 → merge_sort String.le l1 = merge_sort String.le l2.
Proof.
  intros Hperm. apply (Sorted_unique String.le).
  - apply Sorted_merge_sort, _.
  - apply Sorted_merge_sort, _.
  - by rewrite !merge_sort_Permutation.
Qed.

Lemma visitDependent_proper dq dq' x :
  sameVisit dq dq' → sameVisit (visitDependent dq x) (visitDependent dq' x).
Proof.
  intros [Hd Hq]. unfold visitDependent. rewrite Hd.
  case_decide; split; simpl; try done. by rewrite Hq.
Qed.

Lemma visitDependent_fst (dq : gmap string Z * list string) x :
  (visitDependent dq x).1 = <[x := degreeOf dq.1 x - 1]> dq.1.
Proof. unfold visitDependent. by case_decide. Qed.

Lemma visitDependent_snd (dq : gmap string Z * list string) x :
  (visitDependent dq x).2
  = dq.2 ++ (if decide (degreeOf dq.1 x = 1) then [x] else []).
Proof.
  unfold visitDependent. rewrite degreeOf_insert_eq.
  repeat case_decide; simpl; rewrite ?app_nil_r; try done; lia.
Qed.

Lemma visitDependent_comm dq x y :
  sameVisit (visitDependent (visitDependent dq x) y)
            (visitDependent (visitDependent dq y) x).
Proof.
  destruct (decide (x = y)) as [->|Hne]; [reflexivity|].
  split.
  - rewrite !visitDependent_fst.
    rewrite !degreeOf_insert_ne by done. by apply insert_insert_ne.
  - rewrite !visitDependent_snd, !visitDependent_fst.
    rewrite !degreeOf_insert_ne by done.
    rewrite <-!app_assoc. apply Permutation_app_head, Permutation_app_comm.
Qed.

Lemma visitDependents_permutation dq dq' l1 l2 :
  l1 ≡ₚ l2 → sameVisit dq dq' →
  sameVisit (foldl visitDependent dq l1) (foldl visitDependent dq' l2).
Proof.
  apply (foldl_permutation sameVisit).
  - intros. by apply visitDependent_proper.
  - apply visitDependent_comm.
Qed.

Lemma kahnStep_sameState allItems graph graph' (st st' : KahnState T) :
  (∀ k, graph !!! k ≡ₚ graph' !!! k) → sameState st st' →
  sameState (kahnStep allItems graph st) (kahnStep allItems graph' st').
Proof.
  intros Hg (Hq & Hd & Hp & Hr). unfold kahnStep.
  rewrite (merge_sort_permutation _ _ Hq), Hp.
  destruct (merge_sort String.le (queue st')) as [|current rest].
  { by split. }
  case_decide.
  { by split. }
  destruct (visitDependents_permutation (inDegree st, rest)
    (inDegree st', rest) _ _ (Hg current)) as [Hd' Hq'].
  { by split. }
  split; [done|]. split; [done|]. split; [done|]. simpl. by rewrite Hr.
Qed.

Lemma kahnLoop_done fuel allItems graph (st : KahnState T) :
  queue st = [] → kahnLoop fuel allItems graph st = Some st.
Proof. intros Hq. destruct fuel; simpl; by rewrite Hq. Qed.

Lemma kahnLoop_step fuel allItems graph (st : KahnState T) :
  queue st ≠ [] →
  kahnLoop fuel allItems graph st
  = match fuel with
    | O => None
    | S fuel' => kahnLoop fuel' allItems graph (kahnStep allItems graph st)
    end.
Proof. intros Hq. destruct fuel; simpl; by destruct (queue st). Qed.

(** The invariant rule of the loop: what holds on entry and is kept by
    every iteration holds on exit. *)
Lemma kahnLoop_invariant (P : KahnState T → Prop) fuel allItems graph
    (st st' : KahnState T) :
  (∀ st, queue st ≠ [] → P st → P (kahnStep allItems graph st)) →
  P st → kahnLoop fuel allItems graph st = Some st' → P st'.
Proof.
  intros Hstep. revert st.
  induction fuel as [|fuel IH]; intros st HP;
    destruct (decide (queue st = [])) as [Hq|Hq].
  - rewrite kahnLoop_done by done. by intros [= <-].
  - by rewrite kahnLoop_step.
  - rewrite kahnLoop_done by done. by intros [= <-].
  - rewrite kahnLoop_step by done. apply IH. by apply Hstep.
Qed.

Lemma kahnLoop_sameState fuel fuel' allItems graph graph'
    (st st' r r' : KahnState T) :
  (∀ k, graph !!! k ≡ₚ graph' !!! k) → sameState st st' →
  kahnLoop fuel allItems graph st = Some r →
  kahnLoop fuel' allItems graph' st' = Some r' →
  sameState r r'.
Proof.
  intros Hg. revert fuel' st st'.
  induction fuel as [|fuel IH]; intros fuel' st st' Hst;
    destruct (decide (queue st = [])) as [Hq|Hq].
  - assert (queue st' = []) as Hq'.
    { destruct Hst as (Hperm & _). rewrite Hq in Hperm.
      by apply Permutation_nil_l in Hperm. }
    rewrite !kahnLoop_done by done. by intros [= <-] [= <-].
  - by rewrite kahnLoop_step.
  - assert (queue st' = []) as Hq'.
    { destruct Hst as (Hperm & _). rewrite Hq in Hperm.
      by apply Permutation_nil_l in Hperm. }
    rewrite !kahnLoop_done by done. by intros [= <-] [= <-].
  - assert (queue st' ≠ []) as Hq'.
    { destruct Hst as (Hperm & _). intros Hnil. rewrite Hnil in Hperm.
      by apply Permutation_nil_r in Hperm. }
    rewrite (kahnLoop_step (S fuel)), (kahnLoop_step fuel' _ _ st') by done.
    destruct fuel' as [|fuel']; [done|].
    apply IH. by apply kahnStep_sameState.
Qed.

End Determinism.


(** ** The resolver always returns *)

Section Totality.
Context {T : Type} `{!TypeNameProvider T} `{!DependencyExtractor T}.

Lemma runKahn_total (allItems : gmap string T) (sch : Schedule T) :
  is_Some (runKahn allItems sch).
Proof. by apply kahnLoop_total. Qed.

Lemma ResolveDependenciesWith_unfold (sch : Schedule T) (items : list T) :
  ∃ st,
    runKahn (buildItemMap items) sch = Some st
    ∧ ResolveDependenciesWith sch items
      = Some (result st ++ remaining (processed st) items).
Proof.
  destruct (runKahn_total (buildItemMap items) sch) as [st Hst].
  exists st. unfold ResolveDependenciesWith. by rewrite Hst.
Qed.

Lemma ResolveDependenciesWith_total (sch : Schedule T) (items : list T) :
  is_Some (ResolveDependenciesWith sch items).
Proof.
  destruct (ResolveDependenciesWith_unfold sch items) as (st & _ & ->). eauto.
Qed.

Lemma defaultSchedule_valid (items : list T) :
  validSchedule items (defaultSchedule items).
Proof. by repeat split. Qed.

End Totality.

(** ** The item map *)

Section ItemMap.
Context {T : Type} `{!TypeNameProvider T}.

Lemma buildItemMap_snoc (items : list T) (item : T) :
  buildItemMap (items ++ [item])
  = if decide (GetTypeName item = EmptyString) then buildItemMap items
    else <[GetTypeName item := item]> (buildItemMap items).
Proof. unfold buildItemMap. by rewrite foldl_snoc. Qed.

Lemma buildItemMap_lookup_Some (items : list T) name item :
  buildItemMap items !! name = Some item →
  GetTypeName item = name ∧ name ≠ EmptyString ∧ item ∈ items.
Proof.
  induction items as [|x items IH] using rev_ind.
  - unfold buildItemMap. simpl. by rewrite lookup_empty.
  - rewrite buildItemMap_snoc. case_decide as Hname.
    + intros (?&?&?)%IH. set_solver.
    + destruct (decide (GetTypeName x = name)) as [<-|Hne].
      * rewrite lookup_insert_eq. intros [= <-]. set_solver.
      * rewrite lookup_insert_ne by done. intros (?&?&?)%IH. set_solver.
Qed.

Lemma buildItemMap_lookup_is_Some (items : list T) item :
  item ∈ items → GetTypeName item ≠ EmptyString →
  is_Some (buildItemMap items !! GetTypeName item).
Proof.
  induction items as [|x items IH] using rev_ind; [by intros ?%elem_of_nil|].
  rewrite buildItemMap_snoc. intros [Hin| ->%list_elem_of_singleton]%elem_of_app Hname.
  - case_decide; [by apply IH|].
    destruct (decide (GetTypeName x = GetTypeName item)) as [->|Hne].
    + rewrite lookup_insert_eq. eauto.
    + rewrite lookup_insert_ne by done. by apply IH.
  - rewrite decide_False by done. rewrite lookup_insert_eq. eauto.
Qed.

(** With pairwise distinct non-empty names, the map holds every named
    item under its name. *)
Lemma buildItemMap_lookup_NoDup (items : list T) item :
  NoDup (filter (λ name, name ≠ EmptyString) (GetTypeName <$> items)) →
  item ∈ items → GetTypeName item ≠ EmptyString →
  buildItemMap items !! GetTypeName item = Some item.
Proof.
  induction items as [|x items IH] using rev_ind; [by intros _ ?%elem_of_nil|].
  rewrite buildItemMap_snoc, fmap_app, filter_app. simpl.
  intros Hnodup [Hin| ->%list_elem_of_singleton]%elem_of_app Hname.
  - apply NoDup_app in Hnodup as (Hnd & Hdisj & _).
    case_decide as Hx; [by apply IH|].
    rewrite lookup_insert_ne; [by apply IH|].
    intros Heq. apply (Hdisj (GetTypeName item)).
    + apply list_elem_of_filter. split; [done|].
      apply list_elem_of_fmap. eauto.
    + rewrite filter_cons, decide_True by done. rewrite <-Heq. set_solver.
  - rewrite decide_False by done. by rewrite lookup_insert_eq.
Qed.

End ItemMap.

(** ** What the graph-building loops compute *)

Lemma filter_all {A} (P : A → Prop) `{!∀ x, Decision (P x)} (l : list A) :
  (∀ x, x ∈ l → P x) → filter P l = l.
Proof.
  induction l as [|x l IH]; intros Hl; [done|].
  rewrite filter_cons, decide_True by (apply Hl; set_solver).
  f_equal. apply IH. intros y Hy. apply Hl. set_solver.
Qed.

Lemma filter_none {A} (P : A → Prop) `{!∀ x, Decision (P x)} (l : list A) :
  (∀ x, x ∈ l → ¬ P x) → filter P l = [].
Proof.
  induction l as [|x l IH]; intros Hl; [done|].
  rewrite filter_cons, decide_False by (apply Hl; set_solver).
  apply IH. intros y Hy. apply Hl. set_solver.
Qed.

Section GraphFacts.
Context {T : Type} `{!TypeNameProvider T} `{!DependencyExtractor T}.
Implicit Types (allItems : gmap string T).
Implicit Types (gd : gmap string (list string) * gmap string Z).

Lemma occ_fmap_fst (x : string) (l : list (string * string)) :
  occ x l.*1 = length (filter (λ e, e.1 = x) l).
Proof.
  unfold occ. induction l as [|e l IH]; [done|].
  rewrite fmap_cons, !filter_cons. simpl.
  repeat case_decide; simpl; by rewrite ?IH.
Qed.

Lemma initNodes_snoc (order : list string) name :
  initNodes (order ++ [name])
  = (<[name := []]> (initNodes order).1, <[name := 0]> (initNodes order).2).
Proof. unfold initNodes. by rewrite foldl_snoc. Qed.

Lemma initNodes_graph (order : list string) c :
  (initNodes order).1 !!! c = [].
Proof.
  induction order as [|name order IH] using rev_ind; [done|].
  rewrite initNodes_snoc. simpl.
  destruct (decide (name = c)) as [->|].
  - by rewrite lookup_total_insert_eq.
  - by rewrite lookup_total_insert_ne.
Qed.

Lemma initNodes_degree (order : list string) name :
  degreeOf (initNodes order).2 name = 0.
Proof.
  induction order as [|x order IH] using rev_ind; [done|].
  rewrite initNodes_snoc. simpl.
  destruct (decide (x = name)) as [->|].
  - by rewrite degreeOf_insert_eq.
  - by rewrite degreeOf_insert_ne.
Qed.

Lemma initNodes_dom (order : list string) :
  dom (initNodes order).2 = list_to_set order.
Proof.
  induction order as [|x order IH] using rev_ind; [apply dom_empty_L|].
  rewrite initNodes_snoc. simpl.
  rewrite dom_insert_L, IH, list_to_set_app_L. set_solver.
Qed.

Lemma addEdges_graph allItems es gd c :
  (foldl (addEdgePair allItems) gd es).1 !!! c
  = gd.1 !!! c
    ++ (filter (λ e, e.2 = c) (filter (λ e, is_Some (allItems !! e.2)) es)).*1.
Proof.
  revert gd. induction es as [|[name dep] es IH]; intros gd; simpl.
  { by rewrite app_nil_r. }
  rewrite IH, filter_cons. unfold addEdgePair, addEdge. simpl.
  case_decide as Hdep; [|done]. simpl.
  rewrite filter_cons. simpl.
  destruct (decide (dep = c)) as [->|Hne].
  - by rewrite lookup_total_insert_eq, fmap_cons, <-app_assoc.
  - by rewrite lookup_total_insert_ne.
Qed.

Lemma addEdges_degree allItems es gd name :
  degreeOf (foldl (addEdgePair allItems) gd es).2 name
  = degreeOf gd.2 name
    + Z.of_nat (length (filter (λ e, e.1 = name)
                          (filter (λ e, is_Some (allItems !! e.2)) es))).
Proof.
  revert gd. induction es as [|[x dep] es IH]; intros gd; simpl.
  { lia. }
  rewrite IH, filter_cons. unfold addEdgePair, addEdge. simpl.
  case_decide as Hdep; [|done]. simpl.
  rewrite filter_cons. simpl.
  destruct (decide (x = name)) as [->|Hne].
  - rewrite degreeOf_insert_eq. simpl. lia.
  - by rewrite degreeOf_insert_ne.
Qed.

Lemma addEdges_dom allItems es gd :
  dom gd.2 ⊆ dom (foldl (addEdgePair allItems) gd es).2
  ∧ dom (foldl (addEdgePair allItems) gd es).2 ⊆ dom gd.2 ∪ list_to_set es.*1.
Proof.
  revert gd. induction es as [|[x dep] es IH]; intros gd; simpl.
  { set_solver. }
  destruct (IH (addEdgePair allItems gd (x, dep))) as [Hlo Hhi].
  assert (dom gd.2 ⊆ dom (addEdgePair allItems gd (x, dep)).2
          ∧ dom (addEdgePair allItems gd (x, dep)).2 ⊆ dom gd.2 ∪ {[ x ]})
    as [Hlo' Hhi'].
  { unfold addEdgePair, addEdge. simpl. case_decide; simpl.
    - rewrite dom_insert_L. set_solver.
    - set_solver. }
  split; set_solver.
Qed.

Lemma edgeList_cons (entry : string * T) order :
  edgeList _ (entry :: order)
  = ((λ dep, (entry.1, dep)) <$> ExtractDependencies entry.2)
      ++ edgeList _ order.
Proof. unfold edgeList. by rewrite bind_cons. Qed.

Lemma edgeList_Permutation (order1 order2 : list (string * T)) :
  order1 ≡ₚ order2 → edgeList _ order1 ≡ₚ edgeList _ order2.
Proof. intros Hperm. unfold edgeList. by rewrite Hperm. Qed.

Lemma edgeList_fst (order : list (string * T)) e :
  e ∈ edgeList _ order → e.1 ∈ order.*1.
Proof.
  unfold edgeList. intros (entry & Hin & Hentry)%list_elem_of_bind.
  apply list_elem_of_fmap in Hin as (dep & -> & _). simpl.
  apply list_elem_of_fmap. eauto.
Qed.

(** The edges recorded for [name] are the dependencies of the item
    registered under [name]. *)
Lemma edgeList_count (m : gmap string T) name (Q : string → Prop)
    `{!∀ dep, Decision (Q dep)} :
  length (filter (λ e, e.1 = name ∧ Q e.2) (edgeList _ (map_to_list m)))
  = length (filter Q (from_option ExtractDependencies [] (m !! name))).
Proof.
  induction m as [|k item m Hfresh IH] using map_ind.
  { by rewrite map_to_list_empty, lookup_empty. }
  rewrite (filter_Permutation _ _ _
    (edgeList_Permutation _ _ (map_to_list_insert m k item Hfresh))).
  rewrite edgeList_cons, filter_app, length_app, IH. simpl.
  destruct (decide (k = name)) as [->|Hne].
  - rewrite lookup_insert_eq, Hfresh. simpl.
    rewrite Nat.add_0_r. clear.
    induction (ExtractDependencies item) as [|dep deps IH]; [done|].
    rewrite fmap_cons, !filter_cons. simpl.
    repeat case_decide; simpl; rewrite ?IH; naive_solver.
  - rewrite lookup_insert_ne by done.
    rewrite filter_none; [done|].
    intros e (dep & -> & _)%list_elem_of_fmap. simpl. naive_solver.
Qed.

Lemma edgeList_count_iff (m : gmap string T) name
    (P : string * string → Prop) `{!∀ e, Decision (P e)}
    (Q Q' : string → Prop) `{!∀ dep, Decision (Q dep)}
    `{!∀ dep, Decision (Q' dep)} :
  (∀ e, P e ↔ e.1 = name ∧ Q e.2) → (∀ dep, Q dep ↔ Q' dep) →
  length (filter P (edgeList _ (map_to_list m)))
  = length (filter Q' (from_option ExtractDependencies [] (m !! name))).
Proof.
  intros HP HQ.
  rewrite (list_filter_iff P (λ e, e.1 = name ∧ Q e.2)) by done.
  rewrite edgeList_count. by rewrite (list_filter_iff Q Q').
Qed.

End GraphFacts.

Section GraphOfSchedule.
Context {T : Type} `{!TypeNameProvider T} `{!DependencyExtractor T}.
Context (allItems : gmap string T) (sch : Schedule T).
Hypothesis Hinit : initOrder sch ≡ₚ (map_to_list allItems).*1.
Hypothesis Hedges : edgeOrder sch ≡ₚ map_to_list allItems.
Hypothesis Hqueue : queueOrder sch ≡ₚ map_to_list (buildGraph allItems sch).2.

Lemma buildGraph_edgeList :
  buildGraph allItems sch
  = foldl (addEdgePair allItems) (initNodes (initOrder sch))
          (edgeList _ (edgeOrder sch)).
Proof. unfold buildGraph. apply buildEdges_edgeList. Qed.

Lemma buildGraph_adjacency c name :
  occ name ((buildGraph allItems sch).1 !!! c) = occ c (depsIn allItems name).
Proof.
  rewrite buildGraph_edgeList, addEdges_graph, initNodes_graph. simpl.
  rewrite occ_fmap_fst, !list_filter_filter.
  rewrite (filter_Permutation _ _ _ (edgeList_Permutation _ _ Hedges)).
  unfold occ, depsIn. rewrite list_filter_filter.
  apply (edgeList_count_iff allItems name _
           (λ dep, dep = c ∧ is_Some (allItems !! dep)));
    [apply _|intros; simpl; tauto..].
Qed.

Lemma buildGraph_degree name :
  degreeOf (buildGraph allItems sch).2 name
  = Z.of_nat (length (depsIn allItems name)).
Proof.
  rewrite buildGraph_edgeList, addEdges_degree, initNodes_degree.
  rewrite list_filter_filter.
  rewrite (filter_Permutation _ _ _ (edgeList_Permutation _ _ Hedges)).
  unfold depsIn. rewrite Z.add_0_l. f_equal.
  apply (edgeList_count_iff allItems name _
           (λ dep, is_Some (allItems !! dep)));
    [apply _|intros; simpl; tauto..].
Qed.

Lemma keys_dom : list_to_set (map_to_list allItems).*1 =@{gset string} dom allItems.
Proof.
  apply set_eq. intros name.
  rewrite elem_of_list_to_set, elem_of_dom, list_elem_of_fmap. split.
  - intros ([k item] & -> & Hin). apply elem_of_map_to_list in Hin. eauto.
  - intros [item Hitem]. exists (name, item).
    split; [done|]. by apply elem_of_map_to_list.
Qed.

Lemma buildGraph_dom : dom (buildGraph allItems sch).2 = dom allItems.
Proof.
  rewrite buildGraph_edgeList.
  destruct (addEdges_dom allItems (edgeList _ (edgeOrder sch))
              (initNodes (initOrder sch))) as [Hlo Hhi].
  rewrite initNodes_dom in Hlo, Hhi.
  assert (list_to_set (initOrder sch) =@{gset string} dom allItems) as Hi.
  { rewrite <-keys_dom. apply set_eq. intros x.
    rewrite !elem_of_list_to_set. by rewrite Hinit. }
  rewrite Hi in Hlo, Hhi.
  assert (list_to_set (edgeList _ (edgeOrder sch)).*1 ⊆@{gset string} dom allItems).
  { intros x. rewrite elem_of_list_to_set.
    intros (e & -> & He%edgeList_fst)%list_elem_of_fmap.
    rewrite <-keys_dom, elem_of_list_to_set. by rewrite <-Hedges. }
  apply (anti_symm (⊆)); [|done].
  etrans; [apply Hhi|]. by apply union_least.
Qed.

Lemma initQueue_elem_of name :
  name ∈ initQueue (queueOrder sch)
  ↔ (buildGraph allItems sch).2 !! name = Some 0.
Proof.
  rewrite initQueue_filter, list_elem_of_fmap. split.
  - intros ([k z] & -> & [Hz Hin]%list_elem_of_filter). simpl in *. subst z.
    rewrite Hqueue in Hin. by apply elem_of_map_to_list in Hin.
  - intros Hlook. exists (name, 0). split; [done|].
    apply list_elem_of_filter. split; [done|].
    rewrite Hqueue. by apply elem_of_map_to_list.
Qed.

Lemma initQueue_NoDup : NoDup (initQueue (queueOrder sch)).
Proof.
  rewrite initQueue_filter.
  assert (NoDup (queueOrder sch).*1) as Hnd.
  { rewrite Hqueue. apply NoDup_fst_map_to_list. }
  revert Hnd. generalize (queueOrder sch). intros l.
  induction l as [|e l IH]; [done|].
  rewrite fmap_cons, NoDup_cons. intros [Hnot Hnd].
  rewrite filter_cons. case_decide; [|by apply IH].
  rewrite fmap_cons. apply NoDup_cons. split; [|by apply IH].
  intros (e' & Heq & [_ Hin]%list_elem_of_filter)%list_elem_of_fmap.
  apply Hnot, list_elem_of_fmap. eauto.
Qed.

Lemma initState_inv : kahnInv allItems (initState allItems sch).
Proof.
  split; simpl.
  - done.
  - constructor.
  - by intros item ?%elem_of_nil.
  - intros i name dep Hi. by rewrite lookup_nil in Hi.
  - intros name _ _. rewrite buildGraph_degree. unfold pending.
    rewrite filter_all; [done|]. set_solver.
  - apply initQueue_NoDup.
  - intros name Hin%initQueue_elem_of. split; [|split].
    + apply elem_of_dom. rewrite <-buildGraph_dom. apply elem_of_dom. eauto.
    + set_solver.
    + unfold degreeOf. by rewrite Hin.
  - intros name Hname%elem_of_dom _ Hzero. apply initQueue_elem_of.
    rewrite <-buildGraph_dom in Hname. apply elem_of_dom in Hname as [z Hz].
    unfold degreeOf in Hzero. rewrite Hz in Hzero. simpl in Hzero. by subst.
Qed.

End GraphOfSchedule.

(** ** Visiting the dependents of a processed name *)

Section Occurrences.
Implicit Types (l : list string) (d : gmap string Z).

Lemma occ_cons x y l :
  occ x (y :: l) = if decide (y = x) then S (occ x l) else occ x l.
Proof. unfold occ. rewrite filter_cons. by case_decide. Qed.

Lemma occ_pos x l : x ∈ l ↔ (0 < occ x l)%nat.
Proof.
  induction l as [|y l IH].
  - split; [by intros ?%elem_of_nil|]. unfold occ. simpl. lia.
  - rewrite occ_cons, elem_of_cons. case_decide; [split; [lia|auto]|].
    rewrite IH. naive_solver.
Qed.

Lemma occ_zero x l : x ∉ l ↔ occ x l = O.
Proof. rewrite occ_pos. lia. Qed.

Lemma occ_filter_ne x l :
  (length (filter (λ y, y ≠ x) l) + occ x l = length l)%nat.
Proof.
  induction l as [|y l IH]; [done|].
  rewrite occ_cons, filter_cons. repeat case_decide; simpl; lia || done.
Qed.

Lemma occ_filter (P : string → Prop) `{!∀ y, Decision (P y)} x l :
  P x → occ x (filter P l) = occ x l.
Proof.
  intros HP. unfold occ. rewrite list_filter_filter.
  f_equal. apply list_filter_iff. naive_solver.
Qed.

Lemma visitDependents_degree l d q name :
  degreeOf (foldl visitDependent (d, q) l).1 name
  = degreeOf d name - Z.of_nat (occ name l).
Proof.
  revert d q. induction l as [|x l IH]; intros d q; simpl.
  { unfold occ. simpl. lia. }
  destruct (visitDependent (d, q) x) as [d' q'] eqn:Hvisit.
  rewrite IH. pose proof (visitDependent_fst (d, q) x) as Hd.
  rewrite Hvisit in Hd. simpl in Hd. subst d'.
  rewrite occ_cons. case_decide as Hx.
  - subst. rewrite degreeOf_insert_eq. lia.
  - by rewrite degreeOf_insert_ne.
Qed.

(** As long as no counter is driven below zero, the names enqueued are
    those whose counter reaches zero, each once. *)
Lemma visitDependents_queue l d q :
  (∀ name, name ∈ l → Z.of_nat (occ name l) ≤ degreeOf d name) →
  ∃ added,
    (foldl visitDependent (d, q) l).2 = q ++ added
    ∧ NoDup added
    ∧ ∀ name, name ∈ added
              ↔ name ∈ l ∧ degreeOf d name = Z.of_nat (occ name l).
Proof.
  revert d q. induction l as [|x l IH]; intros d q Hle; simpl.
  { exists []. rewrite app_nil_r. split; [done|]. split; [constructor|].
    intros name. split; [by intros ?%elem_of_nil|by intros [?%elem_of_nil _]]. }
  destruct (visitDependent (d, q) x) as [d' q'] eqn:Hvisit.
  pose proof (visitDependent_fst (d, q) x) as Hd.
  pose proof (visitDependent_snd (d, q) x) as Hq.
  rewrite Hvisit in Hd, Hq. simpl in Hd, Hq. subst d' q'.
  pose proof (Hle x ltac:(set_solver)) as Hx.
  rewrite occ_cons, decide_True in Hx by done.
  destruct (IH (<[x := degreeOf d x - 1]> d)
               (q ++ (if decide (degreeOf d x = 1) then [x] else [])))
    as (added & Hadded & Hnodup & Helem).
  { intros name Hin. destruct (decide (x = name)) as [->|Hne].
    - rewrite degreeOf_insert_eq. lia.
    - rewrite degreeOf_insert_ne by done.
      specialize (Hle name ltac:(set_solver)).
      by rewrite occ_cons, decide_False in Hle. }
  exists ((if decide (degreeOf d x = 1) then [x] else []) ++ added).
  split; [by rewrite Hadded, <-app_assoc|].
  assert (∀ name, name ∈ added →
            name ∈ l ∧ (name = x → degreeOf d x - 1 = Z.of_nat (occ x l)))
    as Hadded_x.
  { intros name [Hin Hdeg]%Helem. split; [done|]. intros ->.
    by rewrite degreeOf_insert_eq in Hdeg. }
  split.
  - case_decide as Hone; [|done]. simpl. apply NoDup_cons. split; [|done].
    intros [Hin Hdeg]%Hadded_x. specialize (Hdeg eq_refl).
    apply occ_pos in Hin. lia.
  - intros name. rewrite elem_of_app, Helem, occ_cons, elem_of_cons.
    destruct (decide (x = name)) as [->|Hne].
    + rewrite degreeOf_insert_eq.
      pose proof (occ_pos name l) as Hpos.
      case_decide as Hone.
      * assert (occ name l = O) as Hz by lia. rewrite Hz.
        split; [intros _; split; [by left|lia]|].
        intros _. left. by apply list_elem_of_singleton.
      * split.
        -- intros [Hnil|[Hin Hdeg]]; [by apply elem_of_nil in Hnil|].
           split; [by right|lia].
        -- intros [_ Hdeg]. right. split; [apply Hpos|]; lia.
    + rewrite degreeOf_insert_ne by done.
      case_decide; rewrite ?list_elem_of_singleton, ?elem_of_nil; naive_solver.
Qed.

End Occurrences.

(** ** The invariant of the Kahn loop *)

Section KahnInvariant.
Context {T : Type} `{!TypeNameProvider T} `{!DependencyExtractor T}.
Context (allItems : gmap string T) (graph : gmap string (list string)).
Hypothesis Hnames : ∀ name item,
  allItems !! name = Some item → GetTypeName item = name.
Hypothesis Hadj : ∀ c name,
  occ name (graph !!! c) = occ c (depsIn allItems name).

Lemma dependsOn_depsIn dep name :
  dependsOn allItems dep name ↔ dep ∈ depsIn allItems name.
Proof.
  unfold dependsOn, depsIn. rewrite list_elem_of_filter. split.
  - intros (Hdep & item & Hitem & Hin). by rewrite Hitem.
  - intros [Hdep Hin]. split; [done|].
    destruct (allItems !! name) as [item|]; [eauto|by apply elem_of_nil in Hin].
Qed.

Lemma depsIn_is_Some dep name :
  dep ∈ depsIn allItems name → is_Some (allItems !! name).
Proof. intros (_ & item & Hitem & _)%dependsOn_depsIn. eauto. Qed.

Lemma pending_visit (done : gset string) current name :
  current ∉ done →
  (length (pending allItems ({[ current ]} ∪ done) name)
   + occ current (depsIn allItems name)
   = length (pending allItems done name))%nat.
Proof.
  intros Hnew. rewrite <-(occ_filter_ne current (pending allItems done name)).
  unfold pending. rewrite (occ_filter (λ dep, dep ∉ done)) by done.
  rewrite list_filter_filter. f_equal. f_equal.
  apply list_filter_iff. set_solver.
Qed.

Lemma occ_le_length x (l : list string) : (occ x l ≤ length l)%nat.
Proof. apply length_filter. Qed.

Lemma length_zero_nil {A} (l : list A) : length l = O → l = [].
Proof. by destruct l. Qed.

Lemma kahnStep_inv (st : KahnState T) :
  kahnInv allItems st → kahnInv allItems (kahnStep allItems graph st).
Proof.
  intros Hinv. unfold kahnStep.
  pose proof (merge_sort_Permutation String.le (queue st)) as Hperm.
  destruct (merge_sort String.le (queue st)) as [|current rest]; [done|].
  assert (current ∈ queue st) as Hcur by (rewrite <-Hperm; left).
  destruct (inv_queue _ _ Hinv current Hcur) as ([item Hitem] & Hnew & Hzero).
  rewrite decide_False by done. rewrite Hitem.
  pose proof (Hnames _ _ Hitem) as Hname.
  pose proof (inv_processed _ _ Hinv) as Hproc.
  assert (pending allItems (processed st) current = []) as Hnone.
  { apply length_zero_nil.
    pose proof (inv_degree _ _ Hinv current (mk_is_Some _ _ Hitem) Hnew). lia. }
  assert (∀ dep, dep ∈ depsIn allItems current → dep ∈ processed st) as Hdeps.
  { intros dep Hdep. destruct (decide (dep ∈ processed st)); [done|].
    assert (dep ∈ pending allItems (processed st) current) as Hin
      by (by apply list_elem_of_filter).
    rewrite Hnone in Hin. by apply elem_of_nil in Hin. }
  assert (NoDup (current :: rest)) as Hnd_queue.
  { rewrite Hperm. apply (inv_queue_nodup _ _ Hinv). }
  apply NoDup_cons in Hnd_queue as [Hcur_rest Hnd_rest].
  set (l := graph !!! current).
  assert (∀ name, name ∈ l → current ∈ depsIn allItems name) as Hl_dep.
  { intros name Hin%occ_pos. apply occ_pos. unfold l in Hin.
    by rewrite Hadj in Hin. }
  assert (∀ name, name ∈ l → name ∉ processed st) as Hl_new.
  { intros name Hin%Hl_dep%dependsOn_depsIn Hdone.
    rewrite Hproc, elem_of_list_to_set in Hdone.
    apply list_elem_of_lookup in Hdone as [i Hi].
    destruct (inv_order _ _ Hinv i name current Hi Hin) as (j & _ & Hj).
    apply Hnew. rewrite Hproc, elem_of_list_to_set.
    apply list_elem_of_lookup. eauto. }
  assert (∀ name, name ∈ l → name ≠ current) as Hl_ne.
  { intros name Hin%Hl_dep Heq. rewrite Heq in Hin. by apply Hnew, Hdeps. }
  assert (∀ name, name ∈ l →
            Z.of_nat (occ name l) ≤ degreeOf (inDegree st) name) as Hl_le.
  { intros name Hin.
    rewrite (inv_degree _ _ Hinv name) by eauto using depsIn_is_Some.
    unfold l. rewrite Hadj.
    pose proof (pending_visit (processed st) current name Hnew). lia. }
  destruct (visitDependents_queue l (inDegree st) rest Hl_le)
    as (added & Hq & Hnd_added & Hadded).
  pose proof (visitDependents_degree l (inDegree st) rest) as Hdeg.
  destruct (foldl visitDependent (inDegree st, rest) l) as [d' q'].
  simpl in Hq, Hdeg. subst q'.
  assert (∀ name, name ∈ rest → name ∉ l) as Hrest_l.
  { intros name Hin Hl.
    destruct (inv_queue _ _ Hinv name) as (_ & Hname_new & Hname_zero).
    { rewrite <-Hperm. by right. }
    pose proof (inv_degree _ _ Hinv name
      ltac:(eauto using depsIn_is_Some) Hname_new) as Hlen.
    pose proof (pending_visit (processed st) current name Hnew).
    apply Hl_dep, occ_pos in Hl. lia. }
  split; simpl.
  - rewrite fmap_app, list_to_set_app_L, <-Hproc. simpl. rewrite Hname.
    set_solver.
  - rewrite fmap_app. apply NoDup_app. split; [apply (inv_nodup _ _ Hinv)|].
    split; [|apply NoDup_singleton].
    intros name Hin. simpl. rewrite Hname, list_elem_of_singleton. intros ->.
    apply Hnew. rewrite Hproc. by apply elem_of_list_to_set.
  - intros x [Hin| ->%list_elem_of_singleton]%elem_of_app.
    + by apply (inv_result _ _ Hinv).
    + by rewrite Hname.
  - intros i name dep. rewrite fmap_app. simpl. rewrite Hname.
    intros Hi Hdep.
    apply lookup_app_Some in Hi as [Hi|[Hlen Hi]].
    + destruct (inv_order _ _ Hinv i name dep Hi Hdep) as (j & ? & Hj).
      exists j. split; [done|]. by apply lookup_app_l_Some.
    + apply list_lookup_singleton_Some in Hi as [Hi <-].
      apply dependsOn_depsIn, Hdeps in Hdep.
      rewrite Hproc, elem_of_list_to_set in Hdep.
      apply list_elem_of_lookup in Hdep as [j Hj].
      exists j. split; [|by apply lookup_app_l_Some].
      apply lookup_lt_Some in Hj. lia.
  - intros name Hin Hname_new. rewrite Hdeg.
    rewrite (inv_degree _ _ Hinv name) by set_solver.
    unfold l. rewrite Hadj.
    pose proof (pending_visit (processed st) current name Hnew). lia.
  - apply NoDup_app. split; [done|]. split; [|done].
    intros name Hin [Hl _]%Hadded. by apply (Hrest_l name).
  - intros name [Hin|[Hl Heq]%Hadded]%elem_of_app.
    + destruct (inv_queue _ _ Hinv name) as (Hsome & Hname_new & Hname_zero).
      { rewrite <-Hperm. by right. }
      split; [done|]. split; [set_solver|].
      rewrite Hdeg, Hname_zero.
      apply Hrest_l, occ_zero in Hin. rewrite Hin. lia.
    + split; [eauto using depsIn_is_Some|].
      split; [|rewrite Hdeg; lia].
      apply not_elem_of_union. split; [|by apply Hl_new].
      rewrite elem_of_singleton. by apply Hl_ne.
  - intros name Hsome Hname_new Hname_zero. rewrite Hdeg in Hname_zero.
    apply not_elem_of_union in Hname_new as [Hne%not_elem_of_singleton ?].
    apply elem_of_app. destruct (decide (name ∈ l)) as [Hl|Hl].
    + right. apply Hadded. split; [done|lia].
    + left. apply occ_zero in Hl. rewrite Hl in Hname_zero.
      assert (name ∈ queue st) as Hin
        by (apply (inv_ready _ _ Hinv); [done..|lia]).
      rewrite <-Hperm in Hin. apply elem_of_cons in Hin as [?|?]; done.
Qed.

Lemma kahnLoop_inv fuel (st st' : KahnState T) :
  kahnInv allItems st →
  kahnLoop fuel allItems graph st = Some st' →
  kahnInv allItems st'.
Proof.
  apply (kahnLoop_invariant (kahnInv allItems)).
  intros st0 _. apply kahnStep_inv.
Qed.

End KahnInvariant.

(** ** What the loop has processed when it ends *)

Lemma tc_flip {A} (R : relation A) x y : tc (flip R) x y → tc R y x.
Proof.
  induction 1 as [x y Hxy|x y z Hxy _ IH]; [by apply tc_once|].
  by eapply tc_r.
Qed.

Section KahnResult.
Context {T : Type} `{!TypeNameProvider T} `{!DependencyExtractor T}.
Context (items : list T) (sch : Schedule T).
Hypothesis Hvalid : validSchedule items sch.

Lemma runKahn_inv (st : KahnState T) :
  runKahn (buildItemMap items) sch = Some st →
  kahnInv (buildItemMap items) st ∧ queue st = [].
Proof.
  destruct Hvalid as (Hinit & Hedges & Hqueue).
  unfold runKahn. intros Hrun. split; [|by eapply kahnLoop_queue].
  eapply kahnLoop_inv; [| |by apply initState_inv|exact Hrun].
  - intros name item Hitem. by apply buildItemMap_lookup_Some in Hitem as [? _].
  - intros c name. by apply buildGraph_adjacency.
Qed.

(** Along an edge, and so along a path, the processed names come in
    order. *)
Lemma processed_path (st : KahnState T) dep name i :
  kahnInv (buildItemMap items) st →
  tc (dependsOn (buildItemMap items)) dep name →
  (GetTypeName <$> result st) !! i = Some name →
  ∃ j, (j < i)%nat ∧ (GetTypeName <$> result st) !! j = Some dep.
Proof.
  intros Hinv Hpath. revert i.
  induction Hpath as [dep name Hedge|dep mid name Hedge _ IH]; intros i Hi.
  - by eapply inv_order.
  - destruct (IH i Hi) as (j & Hlt & Hj).
    destruct (inv_order _ _ Hinv j mid dep Hj Hedge) as (k & Hlt' & Hk).
    exists k. split; [lia|done].
Qed.

(** A name on a cycle is never processed. *)
Lemma cyclic_not_processed (st : KahnState T) name :
  kahnInv (buildItemMap items) st →
  cyclic items name → name ∉ processed st.
Proof.
  intros Hinv Hcycle Hdone.
  rewrite (inv_processed _ _ Hinv), elem_of_list_to_set in Hdone.
  apply list_elem_of_lookup in Hdone as [i Hi].
  destruct (processed_path st name name i Hinv Hcycle Hi) as (j & Hlt & Hj).
  pose proof (NoDup_lookup _ _ _ _ (inv_nodup _ _ Hinv) Hi Hj). lia.
Qed.

(** Without cycles, the loop processes every name of the map. *)
Lemma acyclic_all_processed (st : KahnState T) name :
  kahnInv (buildItemMap items) st → queue st = [] →
  acyclic items →
  is_Some (buildItemMap items !! name) → name ∈ processed st.
Proof.
  intros Hinv Hq Hacyclic.
  assert (sn (flip (dependsOn (buildItemMap items))) name) as Hsn.
  { apply tc_finite_sn.
    - intros x Hx%tc_flip. by apply (Hacyclic x).
    - exists (elements (dom (buildItemMap items))).
      intros y Hy%tc_flip. apply elem_of_elements, elem_of_dom.
      clear -Hy. induction Hy as [x y [Hx _]|x y z [Hx _] _ _]; done. }
  induction Hsn as [name _ IH]. intros Hsome.
  destruct (decide (name ∈ processed st)) as [|Hnew]; [done|]. exfalso.
  pose proof (inv_degree _ _ Hinv name Hsome Hnew) as Hdeg.
  destruct (pending (buildItemMap items) (processed st) name)
    as [|dep deps] eqn:Hpending.
  - assert (name ∈ queue st) as Hin by (by apply (inv_ready _ _ Hinv)).
    rewrite Hq in Hin. by apply elem_of_nil in Hin.
  - assert (dep ∈ pending (buildItemMap items) (processed st) name) as Hdep
      by (rewrite Hpending; left).
    apply list_elem_of_filter in Hdep as [Hdep_new Hdep].
    apply Hdep_new, IH.
    + apply dependsOn_depsIn, Hdep.
    + by apply list_elem_of_filter in Hdep as [? _].
Qed.

(** Every item the loop emits is the item registered under a processed
    name; every item it leaves for the tail has an unprocessed name. *)
Lemma result_processed (st : KahnState T) item :
  kahnInv (buildItemMap items) st → item ∈ result st →
  GetTypeName item ∈ processed st
  ∧ buildItemMap items !! GetTypeName item = Some item.
Proof.
  intros Hinv Hin. split; [|by apply (inv_result _ _ Hinv)].
  rewrite (inv_processed _ _ Hinv), elem_of_list_to_set.
  apply list_elem_of_fmap. eauto.
Qed.

Lemma remaining_elem_of (done : gset string) item :
  item ∈ remaining done items ↔ GetTypeName item ∉ done ∧ item ∈ items.
Proof. unfold remaining. by rewrite list_elem_of_filter. Qed.

End KahnResult.

(** ** Consequences for the returned sequence *)

Section Output.
Context {T : Type} `{!TypeNameProvider T} `{!DependencyExtractor T}.
Implicit Types (items : list T) (sch : Schedule T) (st : KahnState T).

Lemma dependsOn_input items dep name :
  dependsOn (buildItemMap items) dep name → inputDependsOn items dep name.
Proof.
  intros ([a Ha] & b & Hb & Hdep).
  apply buildItemMap_lookup_Some in Ha as (Ha & _ & Hina).
  apply buildItemMap_lookup_Some in Hb as (Hb & _ & Hinb).
  by exists a, b.
Qed.

Lemma inputAcyclic_acyclic items : inputAcyclic items → acyclic items.
Proof.
  intros Hacyclic name Hcycle. apply (Hacyclic name).
  assert (∀ x y, tc (dependsOn (buildItemMap items)) x y →
                 tc (inputDependsOn items) x y) as Hpath.
  { induction 1 as [x y Hxy|x y z Hxy _ IH].
    - by apply tc_once, dependsOn_input.
    - eapply tc_l; [by apply dependsOn_input|done]. }
  by apply Hpath.
Qed.

Lemma respectsRank_edge (rank : string → nat) (allItems : gmap string T)
    dep name :
  respectsRank rank allItems = true →
  dependsOn allItems dep name → (rank dep < rank name)%nat.
Proof.
  unfold respectsRank. rewrite forallb_forall.
  intros Hrank (Hdep & item & Hitem & Hin).
  specialize (Hrank (name, dep)). simpl in Hrank.
  rewrite bool_decide_eq_true_2 in Hrank by done. simpl in Hrank.
  apply Nat.ltb_lt, Hrank, list_elem_of_In, list_elem_of_bind.
  exists (name, item). split.
  - apply list_elem_of_fmap. by exists dep.
  - by apply elem_of_map_to_list.
Qed.

Lemma respectsRank_acyclic (rank : string → nat) items :
  respectsRank rank (buildItemMap items) = true → acyclic items.
Proof.
  intros Hrank name Hcycle.
  assert (∀ x y, tc (dependsOn (buildItemMap items)) x y →
                 (rank x < rank y)%nat) as Hpath.
  { induction 1 as [x y Hxy|x y z Hxy _ IH].
    - by eapply respectsRank_edge.
    - pose proof (respectsRank_edge _ _ _ _ Hrank Hxy). lia. }
  specialize (Hpath _ _ Hcycle). lia.
Qed.

(** Whatever the schedule, the loop only emits items of the map. *)
Lemma kahnLoop_result_map fuel (allItems : gmap string T) graph st st' :
  (∀ item, item ∈ result st → ∃ name, allItems !! name = Some item) →
  kahnLoop fuel allItems graph st = Some st' →
  ∀ item, item ∈ result st' → ∃ name, allItems !! name = Some item.
Proof.
  apply (kahnLoop_invariant
           (λ st, ∀ item, item ∈ result st →
                          ∃ name, allItems !! name = Some item)).
  intros st0 _ Hres. unfold kahnStep.
  destruct (merge_sort String.le (queue st0)) as [|current rest]; [done|].
  case_decide; [done|]. simpl.
  destruct (allItems !! current) as [found|] eqn:Hfound; [|done].
  intros item [?| ->%list_elem_of_singleton]%elem_of_app; eauto.
Qed.

(** The resolver returns input items as they are: it builds no record and
    changes none. *)
Lemma ResolveDependenciesWith_subset sch items out item :
  ResolveDependenciesWith sch items = Some out → item ∈ out → item ∈ items.
Proof.
  destruct (ResolveDependenciesWith_unfold sch items) as (st & Hrun & ->).
  intros [= <-] [Hin|Hin]%elem_of_app.
  - unfold runKahn in Hrun.
    eapply kahnLoop_result_map in Hrun as [name Hname]; [|by intros x ?%elem_of_nil|done].
    by apply buildItemMap_lookup_Some in Hname as (_ & _ & ?).
  - by apply remaining_elem_of in Hin as [_ ?].
Qed.

Lemma omap_lookup_names (allItems : gmap string T) (l : list T) :
  (∀ item, item ∈ l → allItems !! GetTypeName item = Some item) →
  omap (λ name, allItems !! name) (GetTypeName <$> l) = l.
Proof.
  induction l as [|x l IH]; intros Hl; [done|].
  rewrite fmap_cons. simpl. rewrite (Hl x) by set_solver. simpl.
  f_equal. apply IH. intros item Hin. apply Hl. set_solver.
Qed.

(** With pairwise distinct non-empty names, what the loop emits is what
    the tail omits. *)
Lemma result_Permutation items sch st :
  validSchedule items sch →
  NoDup (filter (λ name, name ≠ EmptyString) (GetTypeName <$> items)) →
  runKahn (buildItemMap items) sch = Some st →
  result st ≡ₚ filter (λ item, GetTypeName item ∈ processed st) items.
Proof.
  intros Hvalid Hnodup Hrun.
  destruct (runKahn_inv items sch Hvalid st Hrun) as [Hinv _].
  set (kept := filter (λ item, GetTypeName item ∈ processed st) items).
  assert (∀ name, name ∈ processed st →
            name ≠ EmptyString
            ∧ ∃ item, buildItemMap items !! name = Some item) as Hproc.
  { intros name Hin.
    rewrite (inv_processed _ _ Hinv), elem_of_list_to_set in Hin.
    apply list_elem_of_fmap in Hin as (item & -> & Hin).
    pose proof (inv_result _ _ Hinv item Hin) as Hitem.
    split; [|eauto]. by apply buildItemMap_lookup_Some in Hitem as (_ & ? & _). }
  rewrite <-(omap_lookup_names (buildItemMap items) (result st))
    by apply (inv_result _ _ Hinv).
  rewrite <-(omap_lookup_names (buildItemMap items) kept).
  2:{ intros item [Hdone Hin]%list_elem_of_filter.
      apply buildItemMap_lookup_NoDup; [done..|]. by apply Hproc. }
  assert (GetTypeName <$> kept
          = filter (λ name, name ∈ processed st) (GetTypeName <$> items))
    as Hkept.
  { unfold kept. clear. induction items as [|x l IH]; [done|].
    rewrite fmap_cons, !filter_cons.
    repeat case_decide; rewrite ?fmap_cons, ?IH; done. }
  apply omap_Permutation, NoDup_Permutation.
  - apply (inv_nodup _ _ Hinv).
  - rewrite Hkept.
    rewrite <-(list_filter_filter_l _ (λ name, name ≠ EmptyString))
      by (intros name Hin; by apply Hproc).
    by apply NoDup_filter.
  - intros name. rewrite Hkept.
    rewrite list_elem_of_filter, (inv_processed _ _ Hinv), elem_of_list_to_set.
    split; [|by intros [? _]].
    intros Hin. split; [done|].
    apply list_elem_of_fmap in Hin as (item & -> & Hin).
    pose proof (inv_result _ _ Hinv item Hin) as Hitem.
    apply buildItemMap_lookup_Some in Hitem as (_ & _ & ?).
    apply list_elem_of_fmap. eauto.
Qed.

End Output.

(** ** The validators *)

Lemma nonEmpty_true (name : string) : nonEmpty name = true → name ≠ EmptyString.
Proof. by destruct name. Qed.

Lemma struct_valid_name (item : GoStruct) :
  IsValid item = true → GetTypeName item ≠ EmptyString.
Proof. apply nonEmpty_true. Qed.

Lemma interface_valid_name (item : GoInterface) :
  IsValid item = true → GetTypeName item ≠ EmptyString.
Proof. apply nonEmpty_true. Qed.

Lemma variable_valid_name (item : GoVariable) :
  IsValid item = true → GetTypeName item ≠ EmptyString.
Proof. apply nonEmpty_true. Qed.

Lemma constant_valid_name (item : GoConstant) :
  IsValid item = true → GetTypeName item ≠ EmptyString.
Proof. apply nonEmpty_true. Qed.

Lemma import_valid_name (item : GoImport) :
  IsValid item = true → GetTypeName item ≠ EmptyString.
Proof. apply nonEmpty_true. Qed.

Lemma function_valid_name (item : GoFunction) :
  IsValid item = true → GetTypeName item ≠ EmptyString.
Proof.
  unfold IsValid, FunctionValidator, GetTypeName, FunctionTypeNameProvider.
  intros Hname%nonEmpty_true.
  destruct (func_Receiver item) as [|c receiver]; simpl; done.
Qed.

(** ** Dependency extraction *)

(** C6. Viewed as a set of names, [extractTypeDependencies] yields exactly
    [{UserService}] on ["*[]map[string]UserService"], the empty set on
    ["int"], exactly [{Reader}] on ["pkg.Reader"], and the empty set on the
    empty string.  The returned slices are listed as well: they have no
    repetitions. *)
Theorem extractTypeDependencies_examples :
  typeDependencySet "*[]map[string]UserService" = {[ "UserService" ]}
  ∧ extractTypeDependencies "*[]map[string]UserService" = ["UserService"]
  ∧ typeDependencySet "int" = ∅
  ∧ extractTypeDependencies "int" = []
  ∧ typeDependencySet "pkg.Reader" = {[ "Reader" ]}
  ∧ extractTypeDependencies "pkg.Reader" = ["Reader"]
  ∧ typeDependencySet EmptyString = ∅
  ∧ extractTypeDependencies EmptyString = [].
Proof. repeat split; vm_compute; reflexivity. Qed.

Lemma addDepsExcept_not_self self deps found :
  self ∉ deps → self ∉ addDepsExcept self deps found.
Proof.
  unfold addDepsExcept. revert deps.
  induction found as [|dep found IH]; intros deps Hself; simpl; [done|].
  apply IH. case_decide; set_solver.
Qed.

Lemma struct_dependencies_exclude_self (item : GoStruct) :
  GetTypeName item ∉ ExtractDependencies item.
Proof.
  unfold ExtractDependencies, StructDependencyExtractor, GetTypeName,
    StructTypeNameProvider, structDependencySet.
  rewrite elem_of_elements.
  generalize (struct_Fields item). intros fields.
  assert (struct_Name item ∉ (∅ : gset string)) as Hempty by set_solver.
  revert Hempty. generalize (∅ : gset string).
  induction fields as [|field fields IH]; intros deps Hdeps; simpl; [done|].
  by apply IH, addDepsExcept_not_self.
Qed.

Lemma interface_dependencies_exclude_self (item : GoInterface) :
  GetTypeName item ∉ ExtractDependencies item.
Proof.
  unfold ExtractDependencies, InterfaceDependencyExtractor, GetTypeName,
    InterfaceTypeNameProvider, interfaceDependencySet.
  rewrite elem_of_elements.
  generalize (iface_Methods item). intros methods.
  assert (iface_Name item ∉ (∅ : gset string)) as Hempty by set_solver.
  revert Hempty. generalize (∅ : gset string).
  induction methods as [|method methods IH]; intros deps Hdeps; simpl; [done|].
  by apply IH, addDepsExcept_not_self.
Qed.

(** C9. The struct and interface extractors never hand the declaration's
    own name to the graph builder, but the function, variable and constant
    extractors do: the function [Reader(r io.Reader)], the variable
    [Config] of type [Config] and the constant [Mode] of type [Mode] are
    each listed among their own dependencies. *)
Theorem self_reference_not_excluded :
  (∀ item : GoStruct, GetTypeName item ∉ ExtractDependencies item)
  ∧ (∀ item : GoInterface, GetTypeName item ∉ ExtractDependencies item)
  ∧ (let item := mkFunction "Reader" ["r io.Reader"] [] in
     GetTypeName item = "Reader"
     ∧ functionDependencySet item = {[ "r"; "Reader" ]}
     ∧ GetTypeName item ∈ ExtractDependencies item)
  ∧ (let item := mkVar "Config" "Config" in
     GetTypeName item ∈ ExtractDependencies item)
  ∧ (let item := {| const_Name := "Mode"; const_Package := "main";
                    const_Type := "Mode"; const_Value := "1";
                    const_Position := "a.go:1:1"; const_Level := 0 |} in
     GetTypeName item ∈ ExtractDependencies item).
Proof.
  split; [apply struct_dependencies_exclude_self|].
  split; [apply interface_dependencies_exclude_self|].
  cbv zeta.
  repeat split; try (vm_compute; reflexivity);
    apply (bool_decide_unpack _); vm_compute; exact I.
Qed.

(** ** Stub generation *)

(** C7. [generateZeroValues] maps the return clause ["(int, error)"] to
    ["0, nil"], ["string"] to the literal of the empty string, ["*Widget"]
    to ["nil"] and ["Widget"] to the empty composite ["Widget{}"]. *)
Theorem generateZeroValues_examples :
  generateZeroValues "(int, error)" = "0, nil"
  ∧ generateZeroValues "string" = emptyStringLiteral
  ∧ String.length emptyStringLiteral = 2%nat
  ∧ String.get 0 emptyStringLiteral = Some dquote
  ∧ String.get 1 emptyStringLiteral = Some dquote
  ∧ generateZeroValues "*Widget" = "nil"
  ∧ generateZeroValues "Widget" = "Widget{}".
Proof. repeat split; vm_compute; reflexivity. Qed.

Lemma prefix_app (sub post : string) : String.prefix sub (sub +:+ post) = true.
Proof.
  induction sub as [|c sub IH]; simpl; [by destruct post|].
  by destruct (ascii_dec c c).
Qed.

Lemma Contains_unfold (s sub : string) :
  Contains s sub
  = String.prefix sub s
    || match s with
       | EmptyString => false
       | String _ s' => Contains s' sub
       end.
Proof. by destruct s. Qed.

(** [Contains] holds of every string that has [sub] somewhere inside. *)
Lemma Contains_app (pre sub post : string) :
  Contains (pre +:+ sub +:+ post) sub = true.
Proof.
  induction pre as [|c pre IH].
  - change (EmptyString +:+ sub +:+ post) with (sub +:+ post).
    rewrite Contains_unfold. by rewrite prefix_app.
  - change (String c pre +:+ sub +:+ post)
      with (String c (pre +:+ sub +:+ post)).
    simpl. rewrite IH. apply orb_true_r.
Qed.

(** C10. Every type token that contains ["chan"] anywhere gets ["nil"],
    also a user-defined name such as ["Merchant"], which is not a channel
    type and would otherwise get ["Merchant{}"]. *)
Theorem getZeroValue_chan (typ : string) :
  Contains typ "chan" = true →
  getZeroValue typ = "nil" ∧ getZeroValue typ ≠ typ +:+ "{}".
Proof.
  intros Hchan. unfold getZeroValue. rewrite Hchan, !orb_true_r.
  split; [done|]. intros Heq.
  destruct typ as [|c1 [|c2 [|c3 typ]]];
    cbv [String.append] in Heq; try discriminate Heq.
  injection Heq as _ _ _ Heq. by destruct typ.
Qed.

Lemma getZeroValue_chan_witness :
  Contains "Merchant" "chan" = true
  ∧ getZeroValue "Merchant" = "nil"
  ∧ getZeroValue "Merchant" ≠ "Merchant{}".
Proof.
  split; [reflexivity|]. apply (getZeroValue_chan "Merchant"). reflexivity.
Defined.

Lemma getZeroValue_chan_anywhere (pre post : string) :
  getZeroValue (pre +:+ "chan" +:+ post) = "nil".
Proof. unfold getZeroValue. by rewrite Contains_app, !orb_true_r. Qed.

Lemma split_go_no_sep (sep : ascii) (cur s : string) :
  Contains s (String sep EmptyString) = false →
  split_go sep cur s = [String.rev (String.rev_app s cur)].
Proof.
  revert cur. induction s as [|c s IH]; intros cur; [done|].
  simpl. destruct (ascii_dec sep c) as [->|Hne]; [by destruct s|].
  simpl. intros Hs. rewrite decide_False by congruence. by apply IH.
Qed.

(** A signature without any opening parenthesis has no method name, and so
    is skipped. *)
Lemma methodNameOf_no_paren (methodSig : string) :
  Contains methodSig "(" = false → methodNameOf methodSig = EmptyString.
Proof.
  intros Hnone. unfold methodNameOf, Split.
  by rewrite (split_go_no_sep _ _ _ Hnone).
Qed.

Lemma no_paren_skipped (methodSig implName : string) (level : Z) :
  Contains methodSig "(" = false →
  generateMethodImplementation methodSig implName level = EmptyString.
Proof.
  intros Hnone. unfold generateMethodImplementation, parseMethodSignature, Split.
  by rewrite (split_go_no_sep _ _ _ Hnone).
Qed.

Lemma parseMethodSignature_unparseable (methodSig : string) :
  paramBoundary methodSig = None →
  parseMethodSignature methodSig
  = (methodNameOf methodSig, EmptyString, EmptyString).
Proof.
  unfold paramBoundary, parseMethodSignature, methodNameOf.
  destruct (Split methodSig "(") as [|part0 [|part1 rest]]; [done..|].
  by intros ->.
Qed.

(** C8, as the code has it. When the scan finds no parameter-list-closing
    parenthesis, the signature is skipped exactly when its method name is
    empty (there is no opening parenthesis at all, or only white space
    before the first one).  Otherwise a method is generated all the same:
    it has the parsed name, an empty parameter list, no result and no
    [return] statement. *)
Theorem unparseable_signature (methodSig implName : string) (level : Z) :
  paramBoundary methodSig = None →
  generateMethodImplementation methodSig implName level
  = (if decide (methodNameOf methodSig = EmptyString) then EmptyString
     else bareStub (methodNameOf methodSig) implName level)
  ∧ (generateMethodImplementation methodSig implName level = EmptyString
     ↔ methodNameOf methodSig = EmptyString).
Proof.
  intros Hscan. unfold generateMethodImplementation.
  rewrite (parseMethodSignature_unparseable _ Hscan).
  destruct (methodNameOf methodSig) as [|c name]; [done|].
  rewrite decide_False by done. split; [reflexivity|]. split; done.
Qed.

Lemma unparseable_signature_witness :
  paramBoundary "Close(" = None
  ∧ methodNameOf "Close(" = "Close"
  ∧ generateMethodImplementation "Close(" "NoOpFile" 0
    = bareStub "Close" "NoOpFile" 0.
Proof.
  split; [reflexivity|]. split; [reflexivity|].
  destruct (unparseable_signature "Close(" "NoOpFile" 0) as [Hgen _];
    [reflexivity|].
  exact Hgen.
Defined.

(** The signature ["Close("] has no parameter-list-closing parenthesis and
    yet a method is generated for it. *)
Lemma unparseable_not_skipped : ¬ unparseableSkipped "Close(" "NoOpFile" 0.
Proof. intros Hskip. specialize (Hskip eq_refl). vm_compute in Hskip. done. Qed.

(** ** The ordering contract *)

Section Ordering.
Context {T : Type} `{!TypeNameProvider T} `{!DependencyExtractor T}.

(** In an acyclic graph the loop leaves only unnamed items to the tail, and
    it emits every item after the items whose names it depends on. *)
Lemma emitted_in_order (items : list T) (sch : Schedule T) (st : KahnState T) :
  validSchedule items sch → acyclic items →
  runKahn (buildItemMap items) sch = Some st →
  (∀ item, item ∈ remaining (processed st) items →
           GetTypeName item = EmptyString)
  ∧ ∀ i j a b,
      result st !! i = Some a → result st !! j = Some b →
      GetTypeName a ∈ ExtractDependencies b →
      (i < j)%nat.
Proof.
  intros Hvalid Hacyclic Hrun.
  destruct (runKahn_inv items sch Hvalid st Hrun) as [Hinv Hq]. split.
  - intros item [Hnew Hin]%remaining_elem_of.
    destruct (decide (GetTypeName item = EmptyString)); [done|].
    exfalso. apply Hnew.
    eapply acyclic_all_processed; eauto.
    by apply buildItemMap_lookup_is_Some.
  - intros i j a b Hi Hj Hdep.
    pose proof (inv_result _ _ Hinv a (list_elem_of_lookup_2 _ _ _ Hi)) as Ha.
    pose proof (inv_result _ _ Hinv b (list_elem_of_lookup_2 _ _ _ Hj)) as Hb.
    assert (dependsOn (buildItemMap items) (GetTypeName a) (GetTypeName b))
      as Hedge by (split; [eauto|by exists b]).
    destruct (inv_order _ _ Hinv j (GetTypeName b) (GetTypeName a))
      as (k & Hlt & Hk); [by rewrite list_lookup_fmap, Hj|done|].
    assert ((GetTypeName <$> result st) !! i = Some (GetTypeName a)) as Hi'
      by (by rewrite list_lookup_fmap, Hi).
    pose proof (NoDup_lookup _ _ _ _ (inv_nodup _ _ Hinv) Hi' Hk). lia.
Qed.

(** C1, as the code has it. For an acyclic dependency graph and whatever
    order the map iterations take, the resolver returns a sequence in
    which a declaration A comes strictly before (hence no later than)
    every declaration B whose dependency list contains A's name,
    provided that name is not empty.  Declarations with an empty name
    are kept out of the graph and appended after the named ones. *)
Theorem dependencies_first (items : list T) (sch : Schedule T) :
  validSchedule items sch → acyclic items →
  ∃ out,
    ResolveDependenciesWith sch items = Some out
    ∧ ∀ i j a b,
        out !! i = Some a → out !! j = Some b →
        GetTypeName a ≠ EmptyString →
        GetTypeName a ∈ ExtractDependencies b →
        (i < j)%nat.
Proof.
  intros Hvalid Hacyclic.
  destruct (ResolveDependenciesWith_unfold sch items) as (st & Hrun & Hout).
  destruct (emitted_in_order items sch st Hvalid Hacyclic Hrun)
    as [Htail Horder].
  eexists. split; [exact Hout|].
  intros i j a b Hi Hj Hne Hdep.
  apply lookup_app_Some in Hi as [Hi|[_ Hi]]; last first.
  { exfalso. by eapply Hne, Htail, list_elem_of_lookup_2. }
  apply lookup_app_Some in Hj as [Hj|[Hlen _]]; last first.
  { apply lookup_lt_Some in Hi. lia. }
  by apply (Horder i j a b).
Qed.

(** On the items that pass the pipeline's validator every name is
    non-empty: nothing is left to the tail and the order holds for every
    pair. *)
Lemma validated_dependencies_first `{!ItemValidator T}
    (items : list T) (sch : Schedule T) :
  (∀ item : T, IsValid item = true → GetTypeName item ≠ EmptyString) →
  Forall (λ item, IsValid item = true) items →
  validSchedule items sch → acyclic items →
  ∃ st,
    runKahn (buildItemMap items) sch = Some st
    ∧ ResolveDependenciesWith sch items = Some (result st)
    ∧ ∀ i j a b,
        result st !! i = Some a → result st !! j = Some b →
        GetTypeName a ∈ ExtractDependencies b →
        (i < j)%nat.
Proof.
  intros Hname Hitems Hvalid Hacyclic.
  destruct (ResolveDependenciesWith_unfold sch items) as (st & Hrun & Hout).
  destruct (emitted_in_order items sch st Hvalid Hacyclic Hrun)
    as [Htail Horder].
  exists st. split; [done|]. split; [|done].
  rewrite Hout. f_equal.
  destruct (remaining (processed st) items) as [|item tail] eqn:Hrem.
  { apply app_nil_r. }
  exfalso. rewrite Forall_forall in Hitems.
  assert (item ∈ remaining (processed st) items) as Hin
    by (rewrite Hrem; left).
  apply (Hname item); [|apply Htail; left].
  apply Hitems.
  by apply (remaining_elem_of items (processed st)) in Hin as [_ ?].
Qed.





(** C5, as the code has it. When the non-empty names of the input are
    pairwise distinct, the output is a rearrangement of the input: it has
    the same length and holds every input item exactly once. *)
Theorem covers_distinct_names (items : list T) (sch : Schedule T) :
  validSchedule items sch →
  NoDup (filter (λ name, name ≠ EmptyString) (GetTypeName <$> items)) →
  ∃ out,
    ResolveDependenciesWith sch items = Some out
    ∧ length out = length items
    ∧ out ≡ₚ items.
Proof.
  intros Hvalid Hnodup.
  destruct (ResolveDependenciesWith_unfold sch items) as (st & Hrun & Hout).
  eexists. split; [exact Hout|].
  assert (result st ++ remaining (processed st) items ≡ₚ items) as Hperm.
  { rewrite (result_Permutation items sch st) by done.
    apply filter_app_complement. }
  split; [by rewrite Hperm|done].
Qed.

End Ordering.

(** ** Determinism *)

Lemma sorted_head_least (current : string) (rest l : list string) :
  merge_sort String.le l = current :: rest →
  current :: rest ≡ₚ l ∧ ∀ name, name ∈ l → String.le current name.
Proof.
  intros Hsort.
  pose proof (merge_sort_Permutation String.le l) as Hperm.
  pose proof (StronglySorted_merge_sort String.le l) as Hsorted.
  rewrite Hsort in Hperm, Hsorted. split; [done|].
  intros name Hin. rewrite <-Hperm in Hin.
  apply StronglySorted_inv in Hsorted as [_ Hleast].
  apply elem_of_cons in Hin as [->|Hin]; [reflexivity|].
  rewrite Forall_forall in Hleast. by apply Hleast.
Qed.

(** C2. The output does not depend on the order in which Go iterates over
    its maps, neither inside the resolver nor inside the extractor: two
    runs on the same input return the same sequence.  Each iteration of
    the loop removes the lexicographically least name of the ready queue,
    and that is the name it processes; so of two independent items
    ["Alpha"] and ["Bravo"], ["Alpha"] comes first whatever their input
    order. *)
Theorem ResolveDependencies_deterministic {T : Type} `{!TypeNameProvider T}
    (E1 E2 : DependencyExtractor T) (items : list T) (sch1 sch2 : Schedule T) :
  (∀ item, @ExtractDependencies T E1 item ≡ₚ @ExtractDependencies T E2 item) →
  @validSchedule T _ E1 items sch1 →
  @validSchedule T _ E2 items sch2 →
  (∃ out,
     @ResolveDependenciesWith T _ E1 sch1 items = Some out
     ∧ @ResolveDependenciesWith T _ E2 sch2 items = Some out)
  ∧ (∀ (allItems : gmap string T) graph (st : KahnState T) current rest,
       merge_sort String.le (queue st) = current :: rest →
       current :: rest ≡ₚ queue st
       ∧ (∀ name, name ∈ queue st → String.le current name)
       ∧ (current ∉ processed st →
          processed (kahnStep allItems graph st) = {[ current ]} ∪ processed st
          ∧ result (kahnStep allItems graph st)
            = result st ++ option_list (allItems !! current)))
  ∧ ResolveDependencies [mkVar "Bravo" "int"; mkVar "Alpha" "int"]
    = Some [mkVar "Alpha" "int"; mkVar "Bravo" "int"]
  ∧ ResolveDependencies [mkVar "Alpha" "int"; mkVar "Bravo" "int"]
    = Some [mkVar "Alpha" "int"; mkVar "Bravo" "int"].
Proof.
  intros HE (Hinit1 & Hedges1 & Hqueue1) (Hinit2 & Hedges2 & Hqueue2).
  split; [|split; [|split; vm_compute; reflexivity]].
  - destruct (@ResolveDependenciesWith_unfold T _ E1 sch1 items)
      as (st1 & Hrun1 & ->).
    destruct (@ResolveDependenciesWith_unfold T _ E2 sch2 items)
      as (st2 & Hrun2 & ->).
    assert (sameGraph (@buildGraph T E1 (buildItemMap items) sch1)
                      (@buildGraph T E2 (buildItemMap items) sch2)) as Hgraph.
    { unfold buildGraph.
      rewrite (initNodes_permutation (initOrder sch1) (initOrder sch2))
        by (by rewrite Hinit1, Hinit2).
      apply buildEdges_permutation; [done| |reflexivity].
      by rewrite Hedges1, Hedges2. }
    destruct Hgraph as [Hdegree Hadjacent].
    assert (sameState (@initState T E1 (buildItemMap items) sch1)
                      (@initState T E2 (buildItemMap items) sch2)) as Hstart.
    { split; [|by split]. simpl. apply initQueue_permutation.
      by rewrite Hqueue1, Hqueue2, Hdegree. }
    destruct (kahnLoop_sameState _ _ _ _ _ _ _ _ _ Hadjacent Hstart Hrun1 Hrun2)
      as (_ & _ & Hprocessed & Hresult).
    eexists. split; [reflexivity|]. by rewrite Hprocessed, Hresult.
  - intros allItems graph st current rest Hsort.
    destruct (sorted_head_least _ _ _ Hsort) as [Hperm Hleast].
    split; [done|]. split; [done|].
    intros Hnew. unfold kahnStep. rewrite Hsort, decide_False by done.
    simpl. split; [done|].
    destruct (allItems !! current); simpl; [done|by rewrite app_nil_r].
Qed.

Lemma ResolveDependencies_deterministic_witness :
  let items := [writerInterface; readerInterface] in
  (∀ item : GoInterface, ExtractDependencies item ≡ₚ ExtractDependencies item)
  ∧ validSchedule items (defaultSchedule items)
  ∧ validSchedule items (reverseSchedule items)
  ∧ ∃ out,
      ResolveDependenciesWith (defaultSchedule items) items = Some out
      ∧ ResolveDependenciesWith (reverseSchedule items) items = Some out.
Proof.
  cbv zeta.
  assert (∀ item : GoInterface,
            ExtractDependencies item ≡ₚ ExtractDependencies item) as HE
    by reflexivity.
  assert (validSchedule [writerInterface; readerInterface]
            (defaultSchedule [writerInterface; readerInterface])) as Hdefault
    by (repeat split; reflexivity).
  assert (validSchedule [writerInterface; readerInterface]
            (reverseSchedule [writerInterface; readerInterface])) as Hreverse
    by (repeat split; apply (bool_decide_unpack _); vm_compute; exact I).
  split; [exact HE|]. split; [exact Hdefault|]. split; [exact Hreverse|].
  exact (proj1 (ResolveDependencies_deterministic _ _ _ _ _ HE Hdefault Hreverse)).
Defined.

(** ** The contract on sample inputs *)

Lemma dependencies_first_witness :
  let items := [writerInterface; readerInterface] in
  validSchedule items (defaultSchedule items)
  ∧ acyclic items
  ∧ ResolveDependencies items = Some [readerInterface; writerInterface]
  ∧ ∃ out,
      ResolveDependenciesWith (defaultSchedule items) items = Some out
      ∧ ∀ i j a b,
          out !! i = Some a → out !! j = Some b →
          GetTypeName a ≠ EmptyString →
          GetTypeName a ∈ ExtractDependencies b →
          (i < j)%nat.
Proof.
  cbv zeta.
  assert (validSchedule [writerInterface; readerInterface]
            (defaultSchedule [writerInterface; readerInterface])) as Hvalid
    by (repeat split; reflexivity).
  assert (acyclic [writerInterface; readerInterface]) as Hacyclic.
  { apply (respectsRank_acyclic
             (λ name, if decide (name = "Writer") then 1%nat else 0%nat)).
    vm_compute. reflexivity. }
  split; [exact Hvalid|]. split; [exact Hacyclic|].
  split; [vm_compute; reflexivity|].
  exact (dependencies_first _ _ Hvalid Hacyclic).
Defined.

(** The variable [B] of type [pkg.] has the empty name among its
    dependencies; an item with the empty name is present, and it comes
    after [B]. *)
Lemma dependencies_first_counterexample :
  ¬ dependenciesFirst [mkVar "B" "pkg."; mkVar EmptyString "int"].
Proof.
  intros Hclaim.
  assert (inputAcyclic [mkVar "B" "pkg."; mkVar EmptyString "int"]) as Hacyclic.
  { assert (∀ x y,
              inputDependsOn [mkVar "B" "pkg."; mkVar EmptyString "int"] x y →
              x = EmptyString ∧ y = "B") as Hedge.
    { intros x y (a & b & _ & Hb & <- & <- & Hdep).
      apply elem_of_cons in Hb as [->|Hb].
      - vm_compute in Hdep. apply list_elem_of_singleton in Hdep. by split.
      - apply list_elem_of_singleton in Hb as ->.
        vm_compute in Hdep. by apply elem_of_nil in Hdep. }
    intros name Hcycle.
    assert (∀ x y,
              tc (inputDependsOn [mkVar "B" "pkg."; mkVar EmptyString "int"]) x y →
              x = EmptyString ∧ y = "B") as Hpath.
    { induction 1 as [x y Hxy|x y z Hxy _ [IH _]]; [by apply Hedge|].
      by destruct (Hedge _ _ Hxy) as [_ ->]. }
    by destruct (Hpath _ _ Hcycle) as [-> ?]. }
  specialize (Hclaim Hacyclic
                [mkVar "B" "pkg."; mkVar EmptyString "int"] eq_refl
                1%nat 0%nat (mkVar EmptyString "int") (mkVar "B" "pkg.")).
  assert (1 ≤ 0)%nat as Hle; [|lia].
  apply Hclaim; [set_solver|done|done|].
  apply (bool_decide_unpack _). vm_compute. exact I.
Qed.



Lemma covers_distinct_names_witness :
  let items := [mkVar "B" "A"; mkVar EmptyString "int"; mkVar "A" "int";
                mkVar EmptyString "int"] in
  validSchedule items (defaultSchedule items)
  ∧ NoDup (filter (λ name, name ≠ EmptyString) (GetTypeName <$> items))
  ∧ ∃ out,
      ResolveDependenciesWith (defaultSchedule items) items = Some out
      ∧ length out = length items
      ∧ out ≡ₚ items.
Proof.
  cbv zeta.
  assert (validSchedule
            [mkVar "B" "A"; mkVar EmptyString "int"; mkVar "A" "int";
             mkVar EmptyString "int"]
            (defaultSchedule
               [mkVar "B" "A"; mkVar EmptyString "int"; mkVar "A" "int";
                mkVar EmptyString "int"])) as Hvalid
    by (repeat split; reflexivity).
  assert (NoDup (filter (λ name, name ≠ EmptyString)
                   (GetTypeName <$>
                      [mkVar "B" "A"; mkVar EmptyString "int"; mkVar "A" "int";
                       mkVar EmptyString "int"]))) as Hnodup
    by (apply (bool_decide_unpack _); vm_compute; exact I).
  split; [exact Hvalid|]. split; [exact Hnodup|].
  exact (covers_distinct_names _ _ Hvalid Hnodup).
Defined.

(** Two declarations named [A]: only the later one is returned. *)
Lemma covers_input_counterexample :
  ¬ coversInput [mkVarAt "A" "int" "a.go:1:1"; mkVarAt "A" "int" "a.go:2:1"].
Proof.
  intros Hclaim.
  destruct (Hclaim [mkVarAt "A" "int" "a.go:2:1"] eq_refl) as [Hlen _].
  simpl in Hlen. lia.
Qed.

(** C4. The resolver returns the input records as they are: it never
    writes [Level].  On the interfaces [Writer] (which mentions [Reader])
    and [Reader], both extracted with [Level] 0, it returns [Reader] then
    [Writer], and [Writer], at index 1, still has [Level] 0. *)
Theorem level_left_unassigned :
  ResolveDependencies [writerInterface; readerInterface]
  = Some [readerInterface; writerInterface]
  ∧ [readerInterface; writerInterface] !! 1%nat = Some writerInterface
  ∧ iface_Level writerInterface = 0
  ∧ iface_Level <$> [readerInterface; writerInterface] = [0; 0].
Proof. repeat split; vm_compute; reflexivity. Qed.

(** * Further properties of the resolver *)

Section ResolverFacts.
Context {T : Type} `{!TypeNameProvider T} `{!DependencyExtractor T}.
Implicit Types (items : list T) (sch : Schedule T) (st : KahnState T).

Lemma buildItemMap_lookup_last items name item :
  buildItemMap items !! name = Some item →
  ∃ before after,
    items = before ++ item :: after
    ∧ ∀ x, x ∈ after → GetTypeName x ≠ name.
Proof.
  induction items as [|x items IH] using rev_ind.
  { unfold buildItemMap. simpl. by rewrite lookup_empty. }
  rewrite buildItemMap_snoc. intros Hlook.
  assert (buildItemMap items !! name = Some item →
          GetTypeName x ≠ name →
          ∃ before after,
            items ++ [x] = before ++ item :: after
            ∧ ∀ y, y ∈ after → GetTypeName y ≠ name) as Hold.
  { intros (before & after & -> & Hafter)%IH Hx.
    exists before, (after ++ [x]). split; [by rewrite <-app_assoc|].
    intros y [Hy| ->%list_elem_of_singleton]%elem_of_app; auto. }
  case_decide as Hname.
  - apply Hold; [done|].
    apply buildItemMap_lookup_Some in Hlook as (_ & Hne & _). congruence.
  - destruct (decide (GetTypeName x = name)) as [Heq|Hne].
    + rewrite Heq, lookup_insert_eq in Hlook. injection Hlook as ->.
      exists items, []. split; [done|]. by intros y ?%elem_of_nil.
    + rewrite lookup_insert_ne in Hlook by done. by apply Hold.
Qed.

Lemma remaining_length (done : gset string) items :
  (length (filter (λ item, GetTypeName item ∈ done) items)
   + length (remaining done items) = length items)%nat.
Proof.
  unfold remaining. rewrite <-length_app.
  apply Permutation_length, filter_app_complement.
Qed.

(** X1. The resolver neither invents nor duplicates: every item it returns
    is an item of the input, and it returns at most as many items as it was
    given. *)
Theorem output_within_input items sch :
  validSchedule items sch →
  ∃ out,
    ResolveDependenciesWith sch items = Some out
    ∧ (∀ item, item ∈ out → item ∈ items)
    ∧ (length out ≤ length items)%nat.
Proof.
  intros Hvalid.
  destruct (ResolveDependenciesWith_unfold sch items) as (st & Hrun & Hout).
  destruct (runKahn_inv items sch Hvalid st Hrun) as [Hinv _].
  eexists. split; [exact Hout|]. split.
  - intros item Hin. by eapply ResolveDependenciesWith_subset.
  - rewrite length_app, <-(remaining_length (processed st) items).
    apply Nat.add_le_mono_r, submseteq_length, NoDup_submseteq.
    + eapply NoDup_fmap_1, (inv_nodup _ _ Hinv).
    + intros item Hin. apply list_elem_of_filter.
      destruct (result_processed items st item Hinv Hin) as [Hdone Hitem].
      split; [done|].
      by apply buildItemMap_lookup_Some in Hitem as (_ & _ & ?).
Qed.

(** X2. The tail tells whether the graph has a cycle: the dependency graph
    is acyclic exactly when every item left to the tail has an empty
    name. *)
Theorem acyclic_iff_tail_unnamed items sch :
  validSchedule items sch →
  ∃ st,
    runKahn (buildItemMap items) sch = Some st
    ∧ ResolveDependenciesWith sch items
      = Some (result st ++ remaining (processed st) items)
    ∧ (acyclic items
       ↔ ∀ item, item ∈ remaining (processed st) items →
                 GetTypeName item = EmptyString).
Proof.
  intros Hvalid.
  destruct (ResolveDependenciesWith_unfold sch items) as (st & Hrun & Hout).
  destruct (runKahn_inv items sch Hvalid st Hrun) as [Hinv Hq].
  exists st. split; [done|]. split; [done|]. split.
  - intros Hacyclic.
    by destruct (emitted_in_order items sch st Hvalid Hacyclic Hrun).
  - intros Htail name Hcycle.
    apply (cyclic_not_processed items st name Hinv Hcycle).
    assert (∃ item, buildItemMap items !! name = Some item) as [item Hitem].
    { clear -Hcycle. unfold cyclic in Hcycle.
      assert (∀ x y, tc (dependsOn (buildItemMap items)) x y →
                     ∃ item, buildItemMap items !! y = Some item) as Hreg.
      { induction 1 as [x y (_ & item & Hitem & _)|]; eauto. }
      by eapply Hreg. }
    apply buildItemMap_lookup_Some in Hitem as (Hname & Hne & Hin).
    destruct (decide (name ∈ processed st)) as [|Hnew]; [done|].
    exfalso. apply Hne. rewrite <-Hname. apply Htail.
    apply remaining_elem_of. by rewrite Hname.
Qed.

(** X3. Items with an empty name never enter the loop: every emitted item
    has a non-empty name, and the tail keeps all the unnamed items, in
    input order. *)
Theorem unnamed_items_in_tail items sch :
  validSchedule items sch →
  ∃ st,
    runKahn (buildItemMap items) sch = Some st
    ∧ ResolveDependenciesWith sch items
      = Some (result st ++ remaining (processed st) items)
    ∧ (∀ item, item ∈ result st → GetTypeName item ≠ EmptyString)
    ∧ filter (λ item, GetTypeName item = EmptyString)
             (remaining (processed st) items)
      = filter (λ item, GetTypeName item = EmptyString) items.
Proof.
  intros Hvalid.
  destruct (ResolveDependenciesWith_unfold sch items) as (st & Hrun & Hout).
  destruct (runKahn_inv items sch Hvalid st Hrun) as [Hinv _].
  assert (∀ item, item ∈ result st → GetTypeName item ≠ EmptyString) as Hnamed.
  { intros item Hin.
    pose proof (inv_result _ _ Hinv item Hin) as Hitem.
    by apply buildItemMap_lookup_Some in Hitem as (_ & ? & _). }
  exists st. split; [done|]. split; [done|]. split; [done|].
  unfold remaining. apply list_filter_filter_l.
  intros item Hname Hdone.
  rewrite (inv_processed _ _ Hinv), elem_of_list_to_set in Hdone.
  apply list_elem_of_fmap in Hdone as (item' & Heq & Hin).
  apply (Hnamed item' Hin). congruence.
Qed.

(** X4. Later one wins: the emitted items have pairwise distinct names, and
    each of them is the last item of the input that carries its name. *)
Theorem emitted_is_last_of_name items sch :
  validSchedule items sch →
  ∃ st,
    runKahn (buildItemMap items) sch = Some st
    ∧ ResolveDependenciesWith sch items
      = Some (result st ++ remaining (processed st) items)
    ∧ NoDup (GetTypeName <$> result st)
    ∧ ∀ item, item ∈ result st →
        ∃ before after,
          items = before ++ item :: after
          ∧ ∀ x, x ∈ after → GetTypeName x ≠ GetTypeName item.
Proof.
  intros Hvalid.
  destruct (ResolveDependenciesWith_unfold sch items) as (st & Hrun & Hout).
  destruct (runKahn_inv items sch Hvalid st Hrun) as [Hinv _].
  exists st. split; [done|]. split; [done|].
  split; [apply (inv_nodup _ _ Hinv)|].
  intros item Hin. apply buildItemMap_lookup_last.
  by apply (inv_result _ _ Hinv).
Qed.

End ResolverFacts.

Lemma output_within_input_witness :
  let items := [mkVarAt "A" "int" "a.go:1:1"; mkVarAt "A" "int" "a.go:2:1"] in
  validSchedule items (defaultSchedule items)
  ∧ ResolveDependencies items = Some [mkVarAt "A" "int" "a.go:2:1"]
  ∧ ∃ out,
      ResolveDependenciesWith (defaultSchedule items) items = Some out
      ∧ (∀ item, item ∈ out → item ∈ items)
      ∧ (length out ≤ length items)%nat.
Proof.
  cbv zeta.
  assert (validSchedule
            [mkVarAt "A" "int" "a.go:1:1"; mkVarAt "A" "int" "a.go:2:1"]
            (defaultSchedule
               [mkVarAt "A" "int" "a.go:1:1"; mkVarAt "A" "int" "a.go:2:1"]))
    as Hvalid by (repeat split; reflexivity).
  split; [exact Hvalid|]. split; [vm_compute; reflexivity|].
  exact (output_within_input _ _ Hvalid).
Defined.

Lemma acyclic_iff_tail_unnamed_witness :
  let items := [mkVar "C" "int"; mkVar "B" "A"; mkVar "A" "B"] in
  validSchedule items (defaultSchedule items)
  ∧ ResolveDependencies items
    = Some [mkVar "C" "int"; mkVar "B" "A"; mkVar "A" "B"]
  ∧ ∃ st,
      runKahn (buildItemMap items) (defaultSchedule items) = Some st
      ∧ ResolveDependenciesWith (defaultSchedule items) items
        = Some (result st ++ remaining (processed st) items)
      ∧ (acyclic items
         ↔ ∀ item, item ∈ remaining (processed st) items →
                   GetTypeName item = EmptyString).
Proof.
  cbv zeta.
  assert (validSchedule [mkVar "C" "int"; mkVar "B" "A"; mkVar "A" "B"]
            (defaultSchedule [mkVar "C" "int"; mkVar "B" "A"; mkVar "A" "B"]))
    as Hvalid by (repeat split; reflexivity).
  split; [exact Hvalid|]. split; [vm_compute; reflexivity|].
  exact (acyclic_iff_tail_unnamed _ _ Hvalid).
Defined.

Lemma unnamed_items_in_tail_witness :
  let items := [mkVar "B" "A"; mkVar EmptyString "int"; mkVar "A" "int"] in
  validSchedule items (defaultSchedule items)
  ∧ ResolveDependencies items
    = Some [mkVar "A" "int"; mkVar "B" "A"; mkVar EmptyString "int"]
  ∧ ∃ st,
      runKahn (buildItemMap items) (defaultSchedule items) = Some st
      ∧ ResolveDependenciesWith (defaultSchedule items) items
        = Some (result st ++ remaining (processed st) items)
      ∧ (∀ item, item ∈ result st → GetTypeName item ≠ EmptyString)
      ∧ filter (λ item, GetTypeName item = EmptyString)
               (remaining (processed st) items)
        = filter (λ item, GetTypeName item = EmptyString) items.
Proof.
  cbv zeta.
  assert (validSchedule
            [mkVar "B" "A"; mkVar EmptyString "int"; mkVar "A" "int"]
            (defaultSchedule
               [mkVar "B" "A"; mkVar EmptyString "int"; mkVar "A" "int"]))
    as Hvalid by (repeat split; reflexivity).
  split; [exact Hvalid|]. split; [vm_compute; reflexivity|].
  exact (unnamed_items_in_tail _ _ Hvalid).
Defined.

Lemma emitted_is_last_of_name_witness :
  let items := [mkVarAt "A" "B" "a.go:1:1"; mkVar "B" "int";
                mkVarAt "A" "int" "a.go:3:1"] in
  validSchedule items (defaultSchedule items)
  ∧ ResolveDependencies items
    = Some [mkVarAt "A" "int" "a.go:3:1"; mkVar "B" "int"]
  ∧ ∃ st,
      runKahn (buildItemMap items) (defaultSchedule items) = Some st
      ∧ ResolveDependenciesWith (defaultSchedule items) items
        = Some (result st ++ remaining (processed st) items)
      ∧ NoDup (GetTypeName <$> result st)
      ∧ ∀ item, item ∈ result st →
          ∃ before after,
            items = before ++ item :: after
            ∧ ∀ x, x ∈ after → GetTypeName x ≠ GetTypeName item.
Proof.
  cbv zeta.
  assert (validSchedule
            [mkVarAt "A" "B" "a.go:1:1"; mkVar "B" "int";
             mkVarAt "A" "int" "a.go:3:1"]
            (defaultSchedule
               [mkVarAt "A" "B" "a.go:1:1"; mkVar "B" "int";
                mkVarAt "A" "int" "a.go:3:1"]))
    as Hvalid by (repeat split; reflexivity).
  split; [exact Hvalid|]. split; [vm_compute; reflexivity|].
  exact (emitted_is_last_of_name _ _ Hvalid).
Defined.

(** ** Dependencies on names that are not declared *)

Section ExternalDependencies.
Context {T : Type} `{!TypeNameProvider T}.

Lemma addEdge_registered_only (allItems : gmap string T) name gd deps :
  foldl (addEdge allItems name) gd deps
  = foldl (addEdge allItems name) gd
          (filter (λ dep, is_Some (allItems !! dep)) deps).
Proof.
  revert gd. induction deps as [|dep deps IH]; intros gd; [done|].
  rewrite filter_cons. simpl. case_decide as Hdep; simpl; rewrite IH; [done|].
  unfold addEdge at 2. by rewrite decide_False.
Qed.

Lemma buildEdges_registered_only (E1 E2 : DependencyExtractor T)
    (allItems : gmap string T) order gd :
  (∀ item,
     filter (λ dep, is_Some (allItems !! dep)) (@ExtractDependencies T E1 item)
     = filter (λ dep, is_Some (allItems !! dep)) (@ExtractDependencies T E2 item)) →
  @buildEdges T E1 allItems order gd = @buildEdges T E2 allItems order gd.
Proof.
  intros HE. unfold buildEdges. revert gd.
  induction order as [|entry order IH]; intros gd; [done|].
  simpl. rewrite IH. f_equal.
  by rewrite addEdge_registered_only, HE, <-addEdge_registered_only.
Qed.

(** X5. Only dependencies on names of the input count: two extractors that
    agree on the names registered in the item map lead to the same output,
    whatever else they list. *)
Theorem external_dependencies_ignored (E1 E2 : DependencyExtractor T)
    (items : list T) (sch : Schedule T) :
  (∀ item,
     filter (λ dep, is_Some (buildItemMap items !! dep))
            (@ExtractDependencies T E1 item)
     = filter (λ dep, is_Some (buildItemMap items !! dep))
              (@ExtractDependencies T E2 item)) →
  @ResolveDependenciesWith T _ E1 sch items
  = @ResolveDependenciesWith T _ E2 sch items.
Proof.
  intros HE. unfold ResolveDependenciesWith, runKahn, initState, buildGraph.
  by rewrite (buildEdges_registered_only E1 E2 _ _ _ HE).
Qed.

End ExternalDependencies.

(** The variable extractor and one that also reports the package name
    [fmt], which no declaration carries. *)
Lemma external_dependencies_ignored_witness :
  let items := [mkVar "B" "A"; mkVar "A" "int"] in
  let withFmt : DependencyExtractor GoVariable :=
    λ item, extractTypeDependencies (var_Type item) ++ ["fmt"] in
  (∀ item,
     filter (λ dep, is_Some (buildItemMap items !! dep))
            (@ExtractDependencies _ VariableDependencyExtractor item)
     = filter (λ dep, is_Some (buildItemMap items !! dep))
              (@ExtractDependencies _ withFmt item))
  ∧ @ResolveDependenciesWith _ _ VariableDependencyExtractor
      (defaultSchedule items) items
    = Some [mkVar "A" "int"; mkVar "B" "A"]
  ∧ @ResolveDependenciesWith _ _ VariableDependencyExtractor
      (defaultSchedule items) items
    = @ResolveDependenciesWith _ _ withFmt (defaultSchedule items) items.
Proof.
  cbv zeta.
  assert (∀ item,
     filter (λ dep, is_Some (buildItemMap [mkVar "B" "A"; mkVar "A" "int"] !! dep))
            (@ExtractDependencies _ VariableDependencyExtractor item)
     = filter (λ dep, is_Some (buildItemMap [mkVar "B" "A"; mkVar "A" "int"] !! dep))
              (@ExtractDependencies _
                 (λ item, extractTypeDependencies (var_Type item) ++ ["fmt"])
                 item)) as Hagree.
  { intros item. unfold ExtractDependencies, VariableDependencyExtractor.
    rewrite filter_app.
    assert (filter (λ dep, is_Some (buildItemMap [mkVar "B" "A"; mkVar "A" "int"] !! dep))
                   ["fmt"] = []) as -> by (vm_compute; reflexivity).
    symmetry. apply app_nil_r. }
  split; [exact Hagree|]. split; [vm_compute; reflexivity|].
  exact (external_dependencies_ignored _ _ _ _ Hagree).
Defined.

(** ** Inputs without dependencies among them *)

Lemma merge_sort_sorted (l : list string) :
  Sorted String.le l → merge_sort String.le l = l.
Proof.
  intros Hsorted. apply (Sorted_unique String.le); [|done|].
  - apply Sorted_merge_sort, _.
  - apply merge_sort_Permutation.
Qed.

Lemma occ_nil_all (l : list string) : (∀ x, occ x l = O) → l = [].
Proof.
  destruct l as [|y l]; [done|]. intros Hocc. specialize (Hocc y).
  rewrite occ_cons, decide_True in Hocc by done. lia.
Qed.

Lemma sorted_head_least_aux (l : list string) :
  merge_sort String.le l = []
  ∨ ∃ current rest, merge_sort String.le l = current :: rest.
Proof. destruct (merge_sort String.le l); eauto. Qed.

Section Independent.
Context {T : Type} `{!TypeNameProvider T} `{!DependencyExtractor T}.
Context (items : list T) (sch : Schedule T).
Hypothesis Hvalid : validSchedule items sch.
Hypothesis Hfree : ∀ dep name, ¬ dependsOn (buildItemMap items) dep name.

Lemma independent_depsIn name : depsIn (buildItemMap items) name = [].
Proof.
  destruct (depsIn (buildItemMap items) name) as [|dep deps] eqn:Hdeps; [done|].
  exfalso. apply (Hfree dep name), dependsOn_depsIn. rewrite Hdeps. left.
Qed.

Lemma independent_graph c : (buildGraph (buildItemMap items) sch).1 !!! c = [].
Proof.
  destruct Hvalid as (Hinit & Hedges & Hqueue).
  apply occ_nil_all. intros name.
  rewrite (buildGraph_adjacency _ _ Hedges), independent_depsIn. done.
Qed.

Lemma independent_queue :
  initQueue (queueOrder sch) ≡ₚ elements (dom (buildItemMap items)).
Proof.
  destruct Hvalid as (Hinit & Hedges & Hqueue).
  pose proof (initState_inv _ _ Hinit Hedges Hqueue) as Hinv.
  apply NoDup_Permutation.
  - apply (inv_queue_nodup _ _ Hinv).
  - apply NoDup_elements.
  - intros name. rewrite elem_of_elements, elem_of_dom. split.
    + intros Hin. by destruct (inv_queue _ _ Hinv name Hin) as [? _].
    + intros Hname. apply (inv_ready _ _ Hinv); [done|set_solver|].
      simpl. rewrite (buildGraph_degree _ _ Hedges), independent_depsIn. done.
Qed.

Lemma independent_sorted (st : KahnState T) :
  runKahn (buildItemMap items) sch = Some st →
  GetTypeName <$> result st
  = merge_sort String.le (elements (dom (buildItemMap items))).
Proof.
  intros Hrun.
  pose proof Hvalid as (Hinit & Hedges & Hqueue).
  rewrite <-(merge_sort_permutation _ _ independent_queue).
  unfold runKahn in Hrun.
  pose proof (kahnLoop_queue _ _ _ _ _ Hrun) as Hq.
  eapply (kahnLoop_invariant
            (λ st, kahnInv (buildItemMap items) st
                   ∧ (GetTypeName <$> result st)
                       ++ merge_sort String.le (queue st)
                     = merge_sort String.le (initQueue (queueOrder sch))))
    in Hrun as [_ Hlist].
  - by rewrite Hq, app_nil_r in Hlist.
  - intros st0 Hne [Hinv Hlist]. split.
    { apply kahnStep_inv; [|by apply buildGraph_adjacency|done].
      intros name item Hitem.
      by apply buildItemMap_lookup_Some in Hitem as [? _]. }
    rewrite <-Hlist. unfold kahnStep.
    pose proof (Sorted_merge_sort String.le (queue st0)) as Hsorted.
    destruct (sorted_head_least_aux (queue st0)) as [Hnil|(current & rest & Hsort)].
    { rewrite Hnil. simpl. by rewrite Hnil. }
    rewrite Hsort in Hsorted |- *.
    assert (current ∈ queue st0) as Hcur.
    { rewrite <-(merge_sort_Permutation String.le), Hsort. left. }
    destruct (inv_queue _ _ Hinv current Hcur) as ([item Hitem] & Hnew & _).
    rewrite decide_False by done. rewrite Hitem, independent_graph. simpl.
    apply buildItemMap_lookup_Some in Hitem as (Hname & _ & _).
    rewrite fmap_app, <-app_assoc. simpl. rewrite Hname.
    apply Sorted_inv in Hsorted as [Hrest _].
    by rewrite merge_sort_sorted.
  - split; [by apply initState_inv|done].
Qed.

End Independent.

Section IndependentOutput.
Context {T : Type} `{!TypeNameProvider T} `{!DependencyExtractor T}.

Lemma independent_check (items : list T) :
  Forall (λ item,
            Forall (λ dep, buildItemMap items !! dep = None)
                   (ExtractDependencies item)) items →
  ∀ dep name, ¬ dependsOn (buildItemMap items) dep name.
Proof.
  intros Hcheck dep name ([x Hdep] & item & Hitem & Hin).
  apply buildItemMap_lookup_Some in Hitem as (_ & _ & Hitem).
  rewrite Forall_forall in Hcheck. specialize (Hcheck item Hitem).
  rewrite Forall_forall in Hcheck. specialize (Hcheck dep Hin). congruence.
Qed.

Lemma independent_acyclic (items : list T) :
  (∀ dep name, ¬ dependsOn (buildItemMap items) dep name) → acyclic items.
Proof.
  intros Hfree name Hcycle.
  destruct Hcycle as [x y Hstep|x y z Hstep _]; by apply Hfree in Hstep.
Qed.

Lemma independent_names (items : list T) (sch : Schedule T) (st : KahnState T) :
  validSchedule items sch →
  (∀ dep name, ¬ dependsOn (buildItemMap items) dep name) →
  runKahn (buildItemMap items) sch = Some st →
  Sorted String.le (GetTypeName <$> result st)
  ∧ (∀ name, name ∈ GetTypeName <$> result st
             ↔ name ≠ EmptyString ∧ name ∈ GetTypeName <$> items)
  ∧ ∀ item, item ∈ remaining (processed st) items →
            GetTypeName item = EmptyString.
Proof.
  intros Hvalid Hfree Hrun.
  rewrite (independent_sorted items sch Hvalid Hfree st Hrun).
  split; [apply Sorted_merge_sort, _|]. split.
  - intros name.
    rewrite merge_sort_Permutation, elem_of_elements, elem_of_dom. split.
    + intros [item Hitem].
      apply buildItemMap_lookup_Some in Hitem as (Hname & Hne & Hin).
      split; [done|]. apply list_elem_of_fmap. eauto.
    + intros [Hne (item & -> & Hin)%list_elem_of_fmap].
      by apply buildItemMap_lookup_is_Some.
  - by destruct (emitted_in_order items sch st Hvalid
                   (independent_acyclic items Hfree) Hrun).
Qed.

(** X6. When no declaration of the input depends on a name of the input,
    the named declarations come out in increasing order of name, one per
    non-empty name of the input, and only unnamed items are left to the
    tail. *)
Theorem independent_sorted_by_name (items : list T) (sch : Schedule T) :
  validSchedule items sch →
  (∀ dep name, ¬ dependsOn (buildItemMap items) dep name) →
  ∃ st,
    runKahn (buildItemMap items) sch = Some st
    ∧ ResolveDependenciesWith sch items
      = Some (result st ++ remaining (processed st) items)
    ∧ Sorted String.le (GetTypeName <$> result st)
    ∧ NoDup (GetTypeName <$> result st)
    ∧ (∀ name, name ∈ GetTypeName <$> result st
               ↔ name ≠ EmptyString ∧ name ∈ GetTypeName <$> items)
    ∧ ∀ item, item ∈ remaining (processed st) items →
              GetTypeName item = EmptyString.
Proof.
  intros Hvalid Hfree.
  destruct (ResolveDependenciesWith_unfold sch items) as (st & Hrun & Hout).
  destruct (runKahn_inv items sch Hvalid st Hrun) as [Hinv _].
  destruct (independent_names items sch st Hvalid Hfree Hrun)
    as (Hsorted & Hnames & Htail).
  exists st. repeat (split; [done|]).
  split; [apply (inv_nodup _ _ Hinv)|done].
Qed.

End IndependentOutput.

Lemma independent_sorted_by_name_witness :
  let items := [mkVar "b" "int"; mkVar EmptyString "Config"; mkVar "a" "string";
                mkVar "B" "fmt.Stringer"] in
  validSchedule items (defaultSchedule items)
  ∧ (∀ dep name, ¬ dependsOn (buildItemMap items) dep name)
  ∧ ResolveDependencies items
    = Some [mkVar "B" "fmt.Stringer"; mkVar "a" "string"; mkVar "b" "int";
            mkVar EmptyString "Config"]
  ∧ ∃ st,
      runKahn (buildItemMap items) (defaultSchedule items) = Some st
      ∧ ResolveDependenciesWith (defaultSchedule items) items
        = Some (result st ++ remaining (processed st) items)
      ∧ Sorted String.le (GetTypeName <$> result st)
      ∧ NoDup (GetTypeName <$> result st)
      ∧ (∀ name, name ∈ GetTypeName <$> result st
                 ↔ name ≠ EmptyString ∧ name ∈ GetTypeName <$> items)
      ∧ ∀ item, item ∈ remaining (processed st) items →
                GetTypeName item = EmptyString.
Proof.
  cbv zeta.
  assert (validSchedule
            [mkVar "b" "int"; mkVar EmptyString "Config"; mkVar "a" "string";
             mkVar "B" "fmt.Stringer"]
            (defaultSchedule
               [mkVar "b" "int"; mkVar EmptyString "Config"; mkVar "a" "string";
                mkVar "B" "fmt.Stringer"]))
    as Hvalid by (repeat split; reflexivity).
  assert (∀ dep name,
            ¬ dependsOn
                (buildItemMap
                   [mkVar "b" "int"; mkVar EmptyString "Config";
                    mkVar "a" "string"; mkVar "B" "fmt.Stringer"]) dep name)
    as Hfree.
  { apply independent_check.
    apply (bool_decide_unpack _). vm_compute. exact I. }
  split; [exact Hvalid|]. split; [exact Hfree|].
  split; [vm_compute; reflexivity|].
  exact (independent_sorted_by_name _ _ Hvalid Hfree).
Defined.

(** X7. Imports have no dependencies, so the valid imports of a file come
    out ordered by path: the paths of the output are sorted, without
    repetition, and are exactly the paths of the input. *)
Theorem imports_sorted_by_path (items : list GoImport) (sch : Schedule GoImport) :
  Forall (λ item, IsValid item = true) items →
  validSchedule items sch →
  ∃ out,
    ResolveDependenciesWith sch items = Some out
    ∧ Sorted String.le (import_Path <$> out)
    ∧ NoDup (import_Path <$> out)
    ∧ ∀ path, path ∈ import_Path <$> out ↔ path ∈ import_Path <$> items.
Proof.
  intros Hitems Hvalid.
  assert (∀ dep name, ¬ dependsOn (buildItemMap items) dep name) as Hfree.
  { intros dep name (_ & item & _ & Hdep). by apply elem_of_nil in Hdep. }
  destruct (ResolveDependenciesWith_unfold sch items) as (st & Hrun & Hout).
  destruct (runKahn_inv items sch Hvalid st Hrun) as [Hinv _].
  destruct (independent_names items sch st Hvalid Hfree Hrun)
    as (Hsorted & Hnames & Htail).
  assert (remaining (processed st) items = []) as Hrem.
  { destruct (remaining (processed st) items) as [|item tail] eqn:Hrem; [done|].
    exfalso. rewrite Forall_forall in Hitems.
    assert (item ∈ remaining (processed st) items) as Hin
      by (rewrite Hrem; left).
    apply (import_valid_name item); [|apply Htail; left].
    apply Hitems. by apply remaining_elem_of in Hin as [_ ?]. }
  rewrite Hrem, app_nil_r in Hout.
  exists (result st). split; [done|]. split; [done|].
  split; [apply (inv_nodup _ _ Hinv)|].
  intros path. etrans; [apply Hnames|]. split; [by intros [_ ?]|].
  intros Hin. split; [|done].
  apply list_elem_of_fmap in Hin as (item & -> & Hin).
  rewrite Forall_forall in Hitems. by apply import_valid_name, Hitems.
Qed.

Lemma imports_sorted_by_path_witness :
  let mkImport path :=
    {| import_Name := EmptyString; import_Path := path;
       import_Position := "a.go:3:2"; import_Level := 0 |} in
  let items := [mkImport "os"; mkImport "go/ast"; mkImport "fmt"; mkImport "os"] in
  Forall (λ item, IsValid item = true) items
  ∧ validSchedule items (defaultSchedule items)
  ∧ ResolveDependencies items
    = Some [mkImport "fmt"; mkImport "go/ast"; mkImport "os"]
  ∧ ∃ out,
      ResolveDependenciesWith (defaultSchedule items) items = Some out
      ∧ Sorted String.le (import_Path <$> out)
      ∧ NoDup (import_Path <$> out)
      ∧ ∀ path, path ∈ import_Path <$> out ↔ path ∈ import_Path <$> items.
Proof.
  cbv zeta.
  set (items :=
         [ {| import_Name := EmptyString; import_Path := "os";
              import_Position := "a.go:3:2"; import_Level := 0 |};
           {| import_Name := EmptyString; import_Path := "go/ast";
              import_Position := "a.go:3:2"; import_Level := 0 |};
           {| import_Name := EmptyString; import_Path := "fmt";
              import_Position := "a.go:3:2"; import_Level := 0 |};
           {| import_Name := EmptyString; import_Path := "os";
              import_Position := "a.go:3:2"; import_Level := 0 |} ]).
  assert (Forall (λ item, IsValid item = true) items) as Hitems
    by (repeat constructor).
  assert (validSchedule items (defaultSchedule items)) as Hvalid
    by (repeat split; reflexivity).
  split; [exact Hitems|]. split; [exact Hvalid|].
  split; [vm_compute; reflexivity|].
  exact (imports_sorted_by_path _ _ Hitems Hvalid).
Defined.

(** * The analysis engine *)

Section EngineFacts.
Context {Node T : Type} `{!NodeVisitor Node T} `{!ItemValidator T}.
Context `{!TypeNameProvider T} `{!DependencyExtractor T}.

Lemma Analyze_collects (inspected : list Node) (collector : list T) :
  Analyze inspected collector
  = collector ++ filter (λ item, IsValid item = true) (VisitNode <$> inspected).
Proof.
  unfold Analyze. revert collector.
  induction inspected as [|node inspected IH]; intros collector; simpl.
  - by rewrite app_nil_r.
  - rewrite IH, filter_cons. destruct (IsValid (VisitNode node)) eqn:Hok.
    + rewrite decide_True by done. by rewrite <-app_assoc.
    + by rewrite decide_False by done.
Qed.

(** X8. The engine end to end, for a validator that rejects unnamed items
    (as all six do): the collector holds the valid visit results in
    visiting order; when their dependency graph is acyclic the sorted
    results are valid items, carry exactly the collected names, and list
    every dependency before its dependents. *)
Theorem analysed_dependencies_first (inspected : list Node) (sch : Schedule T) :
  (∀ item : T, IsValid item = true → GetTypeName item ≠ EmptyString) →
  validSchedule (Analyze inspected []) sch →
  acyclic (Analyze inspected []) →
  Analyze inspected []
  = filter (λ item, IsValid item = true) (VisitNode <$> inspected)
  ∧ ∃ out,
      GetSortedResults (Some (ResolveDependenciesWith sch)) (Analyze inspected [])
      = Some out
      ∧ Forall (λ item, IsValid item = true) out
      ∧ (∀ name, name ∈ GetTypeName <$> out
                 ↔ name ∈ GetTypeName <$> Analyze inspected [])
      ∧ ∀ i j a b,
          out !! i = Some a → out !! j = Some b →
          GetTypeName a ∈ ExtractDependencies b →
          (i < j)%nat.
Proof.
  intros Hname Hvalid Hacyclic.
  split; [apply Analyze_collects|].
  assert (Forall (λ item, IsValid item = true) (Analyze inspected [])) as Hitems.
  { rewrite Analyze_collects. simpl. apply Forall_forall.
    by intros item [? _]%list_elem_of_filter. }
  destruct (validated_dependencies_first _ sch Hname Hitems Hvalid Hacyclic)
    as (st & Hrun & Hout & Horder).
  destruct (runKahn_inv _ sch Hvalid st Hrun) as [Hinv _].
  destruct (emitted_in_order _ sch st Hvalid Hacyclic Hrun) as [Htail _].
  exists (result st). split; [done|]. split; [|split; [|done]].
  - apply Forall_forall. intros item Hin.
    rewrite Forall_forall in Hitems. apply Hitems.
    by eapply ResolveDependenciesWith_subset.
  - intros name. split.
    + intros (item & -> & Hin)%list_elem_of_fmap.
      apply list_elem_of_fmap. exists item. split; [done|].
      by eapply ResolveDependenciesWith_subset.
    + intros (item & -> & Hin)%list_elem_of_fmap.
      destruct (decide (GetTypeName item ∈ processed st)) as [Hdone|Hnew].
      * by rewrite (inv_processed _ _ Hinv), elem_of_list_to_set in Hdone.
      * exfalso. rewrite Forall_forall in Hitems.
        apply (Hname item); [by apply Hitems|].
        apply Htail. by apply remaining_elem_of.
Qed.

End EngineFacts.

(** The nodes stand for the records the interface visitor returns for
    them; the third one is not an interface declaration. *)
Lemma analysed_dependencies_first_witness :
  let visitor : NodeVisitor GoInterface GoInterface := λ node, node in
  let inspected :=
    [writerInterface; mkInterface EmptyString []; readerInterface] in
  (∀ item : GoInterface, IsValid item = true → GetTypeName item ≠ EmptyString)
  ∧ validSchedule (Analyze inspected []) (defaultSchedule (Analyze inspected []))
  ∧ acyclic (Analyze inspected [])
  ∧ GetSortedResults
      (Some (ResolveDependenciesWith (defaultSchedule (Analyze inspected []))))
      (Analyze inspected [])
    = Some [readerInterface; writerInterface]
  ∧ Analyze inspected []
    = filter (λ item, IsValid item = true) (VisitNode <$> inspected)
  ∧ ∃ out,
      GetSortedResults
        (Some (ResolveDependenciesWith (defaultSchedule (Analyze inspected []))))
        (Analyze inspected [])
      = Some out
      ∧ Forall (λ item, IsValid item = true) out
      ∧ (∀ name, name ∈ GetTypeName <$> out
                 ↔ name ∈ GetTypeName <$> Analyze inspected [])
      ∧ ∀ i j a b,
          out !! i = Some a → out !! j = Some b →
          GetTypeName a ∈ ExtractDependencies b →
          (i < j)%nat.
Proof.
  cbv zeta.
  set (visitor := (λ node, node) : NodeVisitor GoInterface GoInterface).
  set (inspected := [writerInterface; mkInterface EmptyString []; readerInterface]).
  assert (validSchedule (Analyze inspected [])
            (defaultSchedule (Analyze inspected []))) as Hvalid
    by (repeat split; reflexivity).
  assert (acyclic (Analyze inspected [])) as Hacyclic.
  { apply (respectsRank_acyclic
             (λ name, if decide (name = "Writer") then 1%nat else 0%nat)).
    vm_compute. reflexivity. }
  split; [exact interface_valid_name|].
  split; [exact Hvalid|]. split; [exact Hacyclic|].
  split; [vm_compute; reflexivity|].
  exact (analysed_dependencies_first inspected _
           interface_valid_name Hvalid Hacyclic).
Defined.

(** * Method signatures *)

(** ** Byte strings *)

Lemma string_app_cons (c : ascii) (s t : string) :
  String c s +:+ t = String c (s +:+ t).
Proof. done. Qed.

Lemma string_app_assoc (s1 s2 s3 : string) :
  (s1 +:+ s2) +:+ s3 = s1 +:+ s2 +:+ s3.
Proof.
  induction s1 as [|c s1 IH]; [done|]. by rewrite !string_app_cons, IH.
Qed.

Lemma string_app_nil_r (s : string) : s +:+ EmptyString = s.
Proof.
  induction s as [|c s IH]; [done|]. by rewrite string_app_cons, IH.
Qed.

Lemma string_length_app (s t : string) :
  String.length (s +:+ t) = (String.length s + String.length t)%nat.
Proof.
  induction s as [|c s IH]; [done|]. rewrite string_app_cons. simpl.
  by rewrite IH.
Qed.

Lemma rev_app_spec (s t : string) : String.rev_app s t = String.rev s +:+ t.
Proof.
  unfold String.rev. revert t. induction s as [|c s IH]; intros t; [done|].
  simpl. rewrite (IH (String c t)), (IH (String c EmptyString)).
  by rewrite string_app_assoc.
Qed.

Lemma rev_cons (c : ascii) (s : string) :
  String.rev (String c s) = String.rev s +:+ String c EmptyString.
Proof. unfold String.rev at 1. simpl. apply rev_app_spec. Qed.

Lemma rev_app_distr (s t : string) :
  String.rev (s +:+ t) = String.rev t +:+ String.rev s.
Proof.
  induction s as [|c s IH].
  - change (EmptyString +:+ t) with t. by rewrite string_app_nil_r.
  - rewrite string_app_cons, !rev_cons, IH. apply string_app_assoc.
Qed.

Lemma rev_involutive (s : string) : String.rev (String.rev s) = s.
Proof.
  induction s as [|c s IH]; [done|].
  rewrite rev_cons, rev_app_distr, IH. done.
Qed.

Lemma substring_prefix (s t : string) :
  String.substring O (String.length s) (s +:+ t) = s.
Proof.
  induction s as [|c s IH]; [by destruct t|].
  rewrite string_app_cons. simpl. by rewrite IH.
Qed.

Lemma substring_all (s : string) :
  String.substring O (String.length s) s = s.
Proof. induction s as [|c s IH]; [done|]. simpl. by rewrite IH. Qed.

Lemma substring_suffix (s t : string) :
  String.substring (String.length s) (String.length t) (s +:+ t) = t.
Proof.
  induction s as [|c s IH]; [apply substring_all|].
  rewrite string_app_cons. simpl. apply IH.
Qed.

(** ** [strings.Split] and [strings.Join] *)

Lemma split_go_app (sep : ascii) (cur name tail : string) :
  Contains name (String sep EmptyString) = false →
  split_go sep cur (name +:+ String sep tail)
  = (String.rev cur +:+ name) :: split_go sep EmptyString tail.
Proof.
  revert cur. induction name as [|c name IH]; intros cur Hname.
  - change (EmptyString +:+ String sep tail) with (String sep tail). simpl.
    rewrite decide_True by done. by rewrite string_app_nil_r.
  - rewrite string_app_cons. simpl in Hname |- *.
    destruct (ascii_dec sep c) as [->|Hne]; [by destruct name|].
    simpl in Hname. rewrite decide_False by congruence.
    rewrite IH by done. by rewrite rev_cons, string_app_assoc.
Qed.

Lemma split_go_cons (sep : ascii) (cur s : string) :
  ∃ part rest, split_go sep cur s = part :: rest.
Proof.
  revert cur. induction s as [|c s IH]; intros cur; simpl; [eauto|].
  case_decide; eauto.
Qed.

Lemma Join_cons (part : string) (rest : list string) (sep : string) :
  Join (part :: rest) sep
  = part +:+ match rest with
             | [] => EmptyString
             | _ => sep +:+ Join rest sep
             end.
Proof. destruct rest; simpl; [by rewrite string_app_nil_r|done]. Qed.

(** Joining what [Split] cut gives the string back. *)
Lemma Join_split_go (sep : ascii) (cur s : string) :
  Join (split_go sep cur s) (String sep EmptyString) = String.rev cur +:+ s.
Proof.
  revert cur. induction s as [|c s IH]; intros cur.
  - simpl. by rewrite string_app_nil_r.
  - simpl. case_decide as Hc.
    + subst c. rewrite Join_cons.
      destruct (split_go_cons sep EmptyString s) as (part & rest & Hsplit).
      specialize (IH EmptyString). rewrite Hsplit in IH |- *.
      by rewrite IH.
    + rewrite IH, rev_cons, string_app_assoc. done.
Qed.

Lemma Join_Split (s : string) (sep : ascii) :
  Join (Split s sep) (String sep EmptyString) = s.
Proof. apply Join_split_go. Qed.

(** ** The scan for the end of the parameter list *)

Lemma findParamEnd_app (depth depth' i : nat) (params rest : string) :
  parenDepth depth params = Some depth' →
  findParamEnd depth i (params +:+ rest)
  = findParamEnd depth' (i + String.length params) rest.
Proof.
  revert depth i. induction params as [|c params IH]; intros depth i.
  - intros [= ->]. simpl. by rewrite Nat.add_0_r.
  - rewrite string_app_cons. simpl.
    replace (i + S (String.length params))%nat
      with (S i + String.length params)%nat by lia.
    case_decide; [apply IH|]. case_decide; [|apply IH].
    destruct depth; [done|apply IH].
Qed.

Lemma parseMethodSignature_parts (name params returns : string) :
  Contains name "(" = false →
  balanced params →
  parseMethodSignature (name +:+ "(" +:+ params +:+ ")" +:+ returns)
  = (TrimSpace name, params, TrimSpace returns).
Proof.
  intros Hname Hparams. unfold parseMethodSignature, Split.
  change ("(" +:+ params +:+ ")" +:+ returns)
    with (String "(" (params +:+ ")" +:+ returns)).
  rewrite split_go_app by done.
  change (String.rev EmptyString +:+ name) with name.
  destruct (split_go_cons "(" EmptyString (params +:+ ")" +:+ returns))
    as (part & rest & Hsplit).
  pose proof (Join_split_go "(" EmptyString (params +:+ ")" +:+ returns))
    as Hjoin.
  rewrite Hsplit in Hjoin |- *. rewrite Hjoin.
  change (String.rev EmptyString +:+ params +:+ ")" +:+ returns)
    with (params +:+ ")" +:+ returns).
  rewrite (findParamEnd_app O O O params _ Hparams). simpl.
  rewrite substring_prefix. do 2 f_equal.
  assert (S (String.length params) = String.length (params +:+ ")")) as ->
    by (rewrite string_length_app; simpl; lia).
  rewrite <-(string_app_assoc params ")" returns).
  rewrite (string_length_app (params +:+ ")") returns).
  replace (String.length (params +:+ ")") + String.length returns
           - String.length (params +:+ ")"))%nat
    with (String.length returns) by lia.
  apply substring_suffix.
Qed.

(** X9. A signature made of a name without an opening parenthesis, a
    parameter list with balanced parentheses and a return clause is taken
    apart into exactly these three, the name and the return clause
    trimmed. *)
Theorem parseMethodSignature_well_formed (name params returns : string) :
  Contains name "(" = false →
  balanced params →
  parseMethodSignature (name +:+ "(" +:+ params +:+ ")" +:+ returns)
  = (TrimSpace name, params, TrimSpace returns).
Proof. apply parseMethodSignature_parts. Qed.

Lemma parseMethodSignature_well_formed_witness :
  Contains "Handle" "(" = false
  ∧ balanced "Reader, func(int) error"
  ∧ parseMethodSignature "Handle(Reader, func(int) error) (int, error)"
    = ("Handle", "Reader, func(int) error", "(int, error)")
  ∧ parseMethodSignature
      ("Handle" +:+ "(" +:+ "Reader, func(int) error" +:+ ")" +:+ " (int, error)")
    = (TrimSpace "Handle", "Reader, func(int) error", TrimSpace " (int, error)").
Proof.
  split; [reflexivity|]. split; [reflexivity|].
  split; [vm_compute; reflexivity|].
  apply (parseMethodSignature_well_formed
           "Handle" "Reader, func(int) error" " (int, error)");
    reflexivity.
Defined.

(** ** Zero values and stubs *)

Lemma getZeroValue_nonempty (typ : string) : getZeroValue typ ≠ EmptyString.
Proof.
  unfold getZeroValue.
  repeat (case_match; [done|]). by destruct typ.
Qed.

Lemma app_nonempty_l (s t : string) : s ≠ EmptyString → s +:+ t ≠ EmptyString.
Proof. by destruct s. Qed.

Lemma generateZeroValues_nonempty (returnTypes : string) :
  returnTypes ≠ EmptyString → generateZeroValues returnTypes ≠ EmptyString.
Proof.
  intros Hne. unfold generateZeroValues, Split.
  destruct returnTypes as [|c returnTypes]; [done|].
  destruct (split_go_cons "," EmptyString (Trim (String c returnTypes) ["("; ")"]%char))
    as (part & rest & ->).
  rewrite fmap_cons, Join_cons.
  apply app_nonempty_l, getZeroValue_nonempty.
Qed.

(** X10. The stub of a well-formed signature repeats the parameter list
    and the return clause as they stand, and whenever there is a return
    clause it ends in a return statement with the generated zero values. *)
Theorem stub_of_well_formed_signature
    (name params returns implName : string) (level : Z) :
  Contains name "(" = false →
  balanced params →
  TrimSpace name ≠ EmptyString →
  generateMethodImplementation
    (name +:+ "(" +:+ params +:+ ")" +:+ returns) implName level
  = "// " +:+ TrimSpace name +:+ " is a no-op implementation (Level "
      +:+ pretty level +:+ ")" +:+ newline
    +:+ "func (n *" +:+ implName +:+ ") " +:+ TrimSpace name
    +:+ "(" +:+ params +:+ ")"
    +:+ (if nonEmpty (TrimSpace returns)
         then " " +:+ TrimSpace returns else EmptyString)
    +:+ " {" +:+ newline
    +:+ tab +:+ "// TODO: Implement " +:+ TrimSpace name +:+ " (Level "
    +:+ pretty level +:+ ")" +:+ newline
    +:+ (if nonEmpty (TrimSpace returns)
         then tab +:+ "return " +:+ generateZeroValues (TrimSpace returns)
              +:+ newline
         else EmptyString)
    +:+ "}".
Proof.
  intros Hname Hparams Hne. unfold generateMethodImplementation.
  rewrite parseMethodSignature_parts by done.
  destruct (TrimSpace name) as [|c methodName] eqn:Hmethod; [done|].
  destruct (nonEmpty (TrimSpace returns)) eqn:Hreturns; [|done].
  apply nonEmpty_true, generateZeroValues_nonempty in Hreturns.
  destruct (generateZeroValues (TrimSpace returns)); done.
Qed.

Lemma stub_of_well_formed_signature_witness :
  Contains "Read" "(" = false
  ∧ balanced "[]byte"
  ∧ TrimSpace "Read" ≠ EmptyString
  ∧ generateMethodImplementation "Read([]byte) (int, error)" "NoOpReader" 0
    = "// Read is a no-op implementation (Level 0)" +:+ newline
      +:+ "func (n *NoOpReader) Read([]byte) (int, error) {" +:+ newline
      +:+ tab +:+ "// TODO: Implement Read (Level 0)" +:+ newline
      +:+ tab +:+ "return 0, nil" +:+ newline
      +:+ "}"
  ∧ generateMethodImplementation
      ("Read" +:+ "(" +:+ "[]byte" +:+ ")" +:+ " (int, error)") "NoOpReader" 0
    = "// " +:+ TrimSpace "Read" +:+ " is a no-op implementation (Level "
        +:+ pretty 0 +:+ ")" +:+ newline
      +:+ "func (n *" +:+ "NoOpReader" +:+ ") " +:+ TrimSpace "Read"
      +:+ "(" +:+ "[]byte" +:+ ")"
      +:+ (if nonEmpty (TrimSpace " (int, error)")
           then " " +:+ TrimSpace " (int, error)" else EmptyString)
      +:+ " {" +:+ newline
      +:+ tab +:+ "// TODO: Implement " +:+ TrimSpace "Read" +:+ " (Level "
      +:+ pretty 0 +:+ ")" +:+ newline
      +:+ (if nonEmpty (TrimSpace " (int, error)")
           then tab +:+ "return "
                +:+ generateZeroValues (TrimSpace " (int, error)") +:+ newline
           else EmptyString)
      +:+ "}".
Proof.
  split; [reflexivity|]. split; [reflexivity|].
  split; [by vm_compute|]. split; [vm_compute; reflexivity|].
  apply (stub_of_well_formed_signature
           "Read" "[]byte" " (int, error)" "NoOpReader" 0);
    [reflexivity|reflexivity|by vm_compute].
Defined.

(** ** Generated implementations *)

Lemma writeMethod_skipped (implName : string) (level : Z)
    (builder method : string) :
  Contains method "(" = false →
  writeMethod implName level builder method = builder.
Proof.
  intros Hnone. unfold writeMethod. by rewrite no_paren_skipped.
Qed.

Lemma writeMethods_filter (implName : string) (level : Z)
    (builder : string) (methods : list string) :
  foldl (writeMethod implName level) builder methods
  = foldl (writeMethod implName level) builder
          (filter (λ method, Contains method "(" = true) methods).
Proof.
  revert builder. induction methods as [|method methods IH]; intros builder.
  - done.
  - rewrite filter_cons. simpl. case_decide as Hparen; simpl.
    + apply IH.
    + rewrite writeMethod_skipped by by destruct (Contains method "(").
      apply IH.
Qed.

(** X11. Entries of an interface's method list that have no opening
    parenthesis (an embedded interface is recorded by its type name alone)
    leave no trace in the generated implementation: the code is the same as
    for the interface without them. *)
Theorem embedded_entries_not_implemented (item : GoInterface) :
  GenerateCode item
  = GenerateCode
      {| iface_Name := iface_Name item; iface_Package := iface_Package item;
         iface_Methods :=
           filter (λ method, Contains method "(" = true) (iface_Methods item);
         iface_Position := iface_Position item;
         iface_Level := iface_Level item |}.
Proof.
  unfold GenerateCode. simpl.
  destruct (iface_Name item) as [|c name]; [done|].
  apply writeMethods_filter.
Qed.

(** * Dependency extraction on names *)

(** ** Strings made of given bytes *)

Lemma allBytes_impl (f g : ascii → bool) (s : string) :
  (∀ c, f c = true → g c = true) → allBytes f s = true → allBytes g s = true.
Proof.
  intros Hfg. induction s as [|c s IH]; [done|]. simpl.
  intros [Hc Hs]%andb_true_iff. by rewrite (Hfg c Hc), IH.
Qed.

Lemma allBytes_app (f : ascii → bool) (s t : string) :
  allBytes f (s +:+ t) = allBytes f s && allBytes f t.
Proof.
  induction s as [|c s IH]; [done|].
  rewrite string_app_cons. simpl. by rewrite IH, andb_assoc.
Qed.

Lemma allBytes_rev (f : ascii → bool) (s : string) :
  allBytes f (String.rev s) = allBytes f s.
Proof.
  induction s as [|c s IH]; [done|].
  rewrite rev_cons, allBytes_app, IH. simpl.
  by rewrite andb_true_r, andb_comm.
Qed.

Lemma prefix_allBytes (f : ascii → bool) (old s : string) :
  String.prefix old s = true → allBytes f s = true → allBytes f old = true.
Proof.
  revert s. induction old as [|c old IH]; intros s; [done|].
  destruct s as [|c' s]; [done|]. simpl.
  destruct (ascii_dec c c') as [->|]; [|done].
  intros Hpre [Hc Hs]%andb_true_iff. by rewrite Hc, (IH s).
Qed.

Lemma Contains_allBytes (f : ascii → bool) (s sub : string) :
  allBytes f s = true → allBytes f sub = false → Contains s sub = false.
Proof.
  intros Hs Hsub. induction s as [|c s IH].
  - by destruct sub.
  - rewrite Contains_unfold.
    destruct (String.prefix sub (String c s)) eqn:Hpre.
    { pose proof (prefix_allBytes f _ _ Hpre Hs). congruence. }
    simpl in Hs. apply andb_true_iff in Hs as [_ Hs]. by apply IH.
Qed.

Lemma replace_go_cons (old new : string) (c : ascii) (s : string) :
  replace_go old new O (String c s)
  = if String.prefix old (String c s)
    then new +:+ replace_go old new (Nat.pred (String.length old)) s
    else String c (replace_go old new O s).
Proof. done. Qed.

(** [strings.ReplaceAll] leaves a string alone when the pattern has a byte
    the string does not have. *)
Lemma ReplaceAll_allBytes (f : ascii → bool) (s old new : string) :
  allBytes f s = true → allBytes f old = false → ReplaceAll s old new = s.
Proof.
  intros Hs Hold. unfold ReplaceAll. induction s as [|c s IH]; [done|].
  rewrite replace_go_cons. destruct (String.prefix old (String c s)) eqn:Hpre.
  { pose proof (prefix_allBytes f _ _ Hpre Hs). congruence. }
  simpl in Hs. apply andb_true_iff in Hs as [_ Hs]. by rewrite IH.
Qed.

Lemma fieldsFunc_go_allBytes (f : ascii → bool) (cur s : string) :
  allBytes (λ c, negb (f c)) s = true →
  fieldsFunc_go f cur s = emit (String.rev_app s cur).
Proof.
  revert cur. induction s as [|c s IH]; intros cur; [done|]. simpl.
  intros [Hc Hs]%andb_true_iff. apply negb_true_iff in Hc. rewrite Hc.
  by apply IH.
Qed.

Lemma rev_nonempty (s : string) : s ≠ EmptyString → String.rev s ≠ EmptyString.
Proof.
  destruct s as [|c s]; [done|]. intros _. rewrite rev_cons.
  by destruct (String.rev s).
Qed.

Lemma FieldsFunc_allBytes (f : ascii → bool) (s : string) :
  s ≠ EmptyString → allBytes (λ c, negb (f c)) s = true →
  FieldsFunc s f = [s].
Proof.
  intros Hne Hs. unfold FieldsFunc. rewrite fieldsFunc_go_allBytes by done.
  change (String.rev_app s EmptyString) with (String.rev s).
  pose proof (rev_nonempty s Hne) as Hrev. unfold emit.
  destruct (String.rev s) eqn:Heq; [done|]. by rewrite <-Heq, rev_involutive.
Qed.

(** ** [strings.TrimSpace] on names *)

Lemma trim_go_id (pats : list string) (s : string) :
  spaceWidth pats s = O → trim_go pats O s = s.
Proof.
  destruct s as [|c s]; [done|]. intros Hwidth.
  change (trim_go pats O (String c s))
    with (match spaceWidth pats (String c s) with
          | O => String c s
          | S k => trim_go pats k s
          end).
  by rewrite Hwidth.
Qed.

Lemma nameByte_no_space_left (c : ascii) (s : string) :
  isNameByte c = true → spaceWidth allSpaceRunes (String c s) = O.
Proof.
  destruct c as [[] [] [] [] [] [] [] []]; vm_compute; done.
Qed.

Lemma nameByte_no_space_right (c : ascii) (s : string) :
  isNameByte c = true →
  spaceWidth (String.rev <$> allSpaceRunes) (String c s) = O.
Proof.
  destruct c as [[] [] [] [] [] [] [] []]; vm_compute; done.
Qed.

Lemma TrimSpace_name (s : string) : allBytes isNameByte s = true → TrimSpace s = s.
Proof.
  intros Hs. unfold TrimSpace, trimLeftSpace, trimRightSpace.
  assert (trim_go allSpaceRunes O s = s) as ->.
  { destruct s as [|c s]; [done|]. apply trim_go_id.
    simpl in Hs. apply andb_true_iff in Hs as [Hc _].
    by apply nameByte_no_space_left. }
  rewrite <-allBytes_rev in Hs.
  rewrite trim_go_id; [apply rev_involutive|].
  destruct (String.rev s) as [|c t]; [done|].
  simpl in Hs. apply andb_true_iff in Hs as [Hc _].
  by apply nameByte_no_space_right.
Qed.

(** ** One word *)

Lemma nameByte_not_separator (c : ascii) :
  isNameByte c = true → negb (isSeparator c) = true.
Proof. destruct c as [[] [] [] [] [] [] [] []]; vm_compute; done. Qed.

Lemma letterDigit_nameByte (c : ascii) :
  isLetterDigit_ c = true → isNameByte c = true.
Proof. unfold isNameByte. by intros ->. Qed.

Lemma letter_letterDigit (c : ascii) :
  isLetter_ c = true → isLetterDigit_ c = true.
Proof. destruct c as [[] [] [] [] [] [] [] []]; vm_compute; done. Qed.

Lemma cleanType_name (s : string) : allBytes isNameByte s = true → cleanType s = s.
Proof.
  intros Hs. unfold cleanType.
  rewrite (ReplaceAll_allBytes isNameByte s "*") by done.
  rewrite (ReplaceAll_allBytes isNameByte s "[]") by done.
  rewrite (ReplaceAll_allBytes isNameByte s "map[") by done.
  rewrite (ReplaceAll_allBytes isNameByte s "chan ") by done.
  by rewrite (ReplaceAll_allBytes isNameByte s "<-") by done.
Qed.

(** The words of a non-empty string of name bytes: the string itself. *)
Lemma typeDependencySet_name (s : string) :
  s ≠ EmptyString → allBytes isNameByte s = true →
  typeDependencySet s = addWord ∅ s.
Proof.
  intros Hne Hs. unfold typeDependencySet.
  rewrite cleanType_name by done.
  rewrite FieldsFunc_allBytes; [done..|].
  by apply (allBytes_impl isNameByte), Hs; apply nameByte_not_separator.
Qed.

Lemma isValidIdentifier_letterDigit (name : string) :
  isValidIdentifier name = true →
  name ≠ EmptyString ∧ allBytes isLetterDigit_ name = true.
Proof.
  destruct name as [|c name]; [done|]. simpl.
  intros [Hc Hname]%andb_true_iff. split; [done|].
  by rewrite (letter_letterDigit c Hc), Hname.
Qed.

Lemma builtin_no_dot (word : string) :
  isBuiltinType word = true → Contains word "." = false.
Proof.
  unfold isBuiltinType. intros Hin%bool_decide_eq_true.
  repeat (apply elem_of_cons in Hin as [->|Hin]; [by vm_compute|]).
  by apply elem_of_nil in Hin.
Qed.

Lemma plain_identifier_set (name : string) :
  isValidIdentifier name = true →
  typeDependencySet name = if isBuiltinType name then ∅ else {[ name ]}.
Proof.
  intros Hvalid.
  destruct (isValidIdentifier_letterDigit name Hvalid) as [Hne Hbytes].
  assert (allBytes isNameByte name = true) as Hname
    by (apply (allBytes_impl isLetterDigit_), Hbytes; apply letterDigit_nameByte).
  rewrite typeDependencySet_name by done. unfold addWord.
  rewrite TrimSpace_name by done. rewrite decide_False by done.
  destruct (isBuiltinType name); [done|].
  rewrite (Contains_allBytes isLetterDigit_) by done.
  rewrite Hvalid. apply (right_id_L ∅ (∪)).
Qed.

(** X12. A type that is a plain identifier depends on itself alone, and on
    nothing when the identifier names a builtin type. *)
Theorem plain_identifier_dependency (name : string) :
  isValidIdentifier name = true →
  extractTypeDependencies name = if isBuiltinType name then [] else [name].
Proof.
  intros Hvalid. unfold extractTypeDependencies.
  rewrite plain_identifier_set by done.
  destruct (isBuiltinType name); [apply elements_empty|apply elements_singleton].
Qed.

Lemma plain_identifier_dependency_witness :
  isValidIdentifier "UserService" = true
  ∧ extractTypeDependencies "UserService" = ["UserService"]
  ∧ extractTypeDependencies "UserService"
    = if isBuiltinType "UserService" then [] else ["UserService"].
Proof.
  split; [reflexivity|]. split; [vm_compute; reflexivity|].
  apply (plain_identifier_dependency "UserService"). reflexivity.
Defined.

(** X13. A qualified name contributes the part after its dot, whatever that
    part is: a type name, the name of a builtin type, or the empty name when
    nothing follows the dot. *)
Theorem qualified_name_dependency (pkg name : string) :
  allBytes isLetterDigit_ pkg = true →
  allBytes isLetterDigit_ name = true →
  extractTypeDependencies (pkg +:+ "." +:+ name) = [name].
Proof.
  intros Hpkg Hname. unfold extractTypeDependencies.
  assert (allBytes isNameByte (pkg +:+ "." +:+ name) = true) as Hword.
  { rewrite !allBytes_app.
    rewrite (allBytes_impl isLetterDigit_ isNameByte pkg letterDigit_nameByte Hpkg).
    by rewrite (allBytes_impl isLetterDigit_ isNameByte name letterDigit_nameByte Hname). }
  assert (pkg +:+ "." +:+ name ≠ EmptyString) as Hne by (by destruct pkg).
  rewrite typeDependencySet_name by done. unfold addWord.
  rewrite TrimSpace_name by done. rewrite decide_False by done.
  destruct (isBuiltinType (pkg +:+ "." +:+ name)) eqn:Hbuiltin.
  { apply builtin_no_dot in Hbuiltin. by rewrite Contains_app in Hbuiltin. }
  rewrite Contains_app. unfold Split.
  change ("." +:+ name) with (String "." name).
  rewrite split_go_app by (by apply (Contains_allBytes isLetterDigit_)).
  rewrite split_go_no_sep by (by apply (Contains_allBytes isLetterDigit_)).
  change (String.rev EmptyString +:+ pkg) with pkg.
  rewrite rev_app_spec, string_app_nil_r, rev_involutive.
  rewrite (right_id_L ∅ (∪)). apply elements_singleton.
Qed.

Lemma qualified_name_dependency_witness :
  allBytes isLetterDigit_ "pkg" = true
  ∧ allBytes isLetterDigit_ "int" = true
  ∧ extractTypeDependencies "pkg.int" = ["int"]
  ∧ extractTypeDependencies "io.Reader" = ["Reader"]
  ∧ extractTypeDependencies "pkg." = [EmptyString]
  ∧ extractTypeDependencies ("pkg" +:+ "." +:+ "int") = ["int"].
Proof.
  split; [reflexivity|]. split; [reflexivity|].
  split; [vm_compute; reflexivity|]. split; [vm_compute; reflexivity|].
  split; [vm_compute; reflexivity|].
  apply (qualified_name_dependency "pkg" "int"); reflexivity.
Defined.

(** ** Pointer and slice markers *)

Lemma prefix_single (a c : ascii) (s : string) :
  String.prefix (String a EmptyString) (String c s)
  = if decide (a = c) then true else false.
Proof.
  simpl. destruct (ascii_dec a c); case_decide; try done. by destruct s.
Qed.

Lemma ReplaceAll_star_app (a b : string) :
  ReplaceAll (a +:+ b) "*" EmptyString
  = ReplaceAll a "*" EmptyString +:+ ReplaceAll b "*" EmptyString.
Proof.
  unfold ReplaceAll. induction a as [|c a IH]; [done|].
  rewrite string_app_cons, !replace_go_cons, !prefix_single.
  case_decide.
  - exact IH.
  - by rewrite string_app_cons, IH.
Qed.

(** X14. The pointer marker is ignored wherever it stands, and a leading
    slice marker is ignored: the type has the dependencies of the type
    without the marker. *)
Theorem markers_are_transparent (a b : string) :
  typeDependencySet (a +:+ "*" +:+ b) = typeDependencySet (a +:+ b)
  ∧ extractTypeDependencies (a +:+ "*" +:+ b) = extractTypeDependencies (a +:+ b)
  ∧ typeDependencySet ("[]" +:+ b) = typeDependencySet b
  ∧ extractTypeDependencies ("[]" +:+ b) = extractTypeDependencies b.
Proof.
  assert (cleanType (a +:+ "*" +:+ b) = cleanType (a +:+ b)) as Hstar.
  { unfold cleanType. do 4 f_equal.
    rewrite !ReplaceAll_star_app. f_equal. }
  assert (cleanType ("[]" +:+ b) = cleanType b) as Hslice.
  { unfold cleanType, ReplaceAll.
    change ("[]" +:+ b) with (String "[" (String "]" b)).
    rewrite !replace_go_cons, !prefix_single. simpl.
    by destruct (replace_go "*" EmptyString O b). }
  unfold extractTypeDependencies, typeDependencySet.
  by rewrite Hstar, Hslice.
Qed.

(** * The dependency extractors of the declaration kinds *)

Lemma addDepsExcept_elem_of (self : string) (deps : gset string)
    (found : list string) (dep : string) :
  dep ∈ addDepsExcept self deps found
  ↔ dep ∈ deps ∨ (dep ≠ self ∧ dep ∈ found).
Proof.
  unfold addDepsExcept. revert deps.
  induction found as [|x found IH]; intros deps; simpl.
  - split; [by left|]. intros [?|[_ ?%elem_of_nil]]; done.
  - rewrite IH. case_decide as Hx.
    + rewrite elem_of_union, elem_of_singleton, elem_of_cons. split.
      * intros [[->|?]|[? ?]]; auto.
      * intros [?|[? [->|?]]]; auto.
    + subst x. rewrite elem_of_cons. split.
      * intros [?|[? ?]]; auto.
      * intros [?|[? [->|?]]]; auto. done.
Qed.

Lemma addDeps_elem_of (deps : gset string) (found : list string) (dep : string) :
  dep ∈ addDeps deps found ↔ dep ∈ deps ∨ dep ∈ found.
Proof.
  unfold addDeps. revert deps.
  induction found as [|x found IH]; intros deps; simpl.
  - split; [by left|]. intros [?|?%elem_of_nil]; done.
  - rewrite IH, elem_of_union, elem_of_singleton, elem_of_cons. split.
    + intros [[->|?]|?]; auto.
    + intros [?|[->|?]]; auto.
Qed.

Lemma foldl_addDepsExcept_elem_of (self : string) (deps : gset string)
    (texts : list string) (dep : string) :
  dep ∈ foldl (λ deps text,
                 addDepsExcept self deps (extractTypeDependencies text))
              deps texts
  ↔ dep ∈ deps
    ∨ (dep ≠ self ∧ ∃ text, text ∈ texts ∧ dep ∈ extractTypeDependencies text).
Proof.
  revert deps. induction texts as [|text texts IH]; intros deps; simpl.
  - split; [by left|]. intros [?|[_ (? & ?%elem_of_nil & _)]]; done.
  - rewrite IH, addDepsExcept_elem_of. split.
    + intros [[?|[? ?]]|[? (text' & ? & ?)]]; auto.
      * right. split; [done|]. exists text. split; [left|done].
      * right. split; [done|]. exists text'. split; [by right|done].
    + intros [?|[? (text' & [->|?]%elem_of_cons & ?)]]; auto.
      right. split; [done|]. by exists text'.
Qed.

Lemma foldl_addDeps_elem_of (deps : gset string) (texts : list string)
    (dep : string) :
  dep ∈ foldl (λ deps text, addDeps deps (extractTypeDependencies text))
              deps texts
  ↔ dep ∈ deps
    ∨ ∃ text, text ∈ texts ∧ dep ∈ extractTypeDependencies text.
Proof.
  revert deps. induction texts as [|text texts IH]; intros deps; simpl.
  - split; [by left|]. intros [?|(? & ?%elem_of_nil & _)]; done.
  - rewrite IH, addDeps_elem_of. split.
    + intros [[?|?]|(text' & ? & ?)]; auto.
      * right. exists text. split; [left|done].
      * right. exists text'. split; [by right|done].
    + intros [?|(text' & [->|?]%elem_of_cons & ?)]; auto.
      right. by exists text'.
Qed.

(** X15. What each extractor returns, without repetition: for a struct
    the names found in its fields other than its own name, for an
    interface the names found in its method signatures other than its own
    name, and for a function every name found in its receiver, parameters
    and results, its own name included. *)
Theorem extractors_collect_mentioned_names :
  (∀ (item : GoStruct) dep,
     dep ∈ ExtractDependencies item
     ↔ dep ≠ struct_Name item
       ∧ ∃ field, field ∈ struct_Fields item
                  ∧ dep ∈ extractTypeDependencies field)
  ∧ (∀ (item : GoInterface) dep,
       dep ∈ ExtractDependencies item
       ↔ dep ≠ iface_Name item
         ∧ ∃ method, method ∈ iface_Methods item
                     ∧ dep ∈ extractTypeDependencies method)
  ∧ (∀ (item : GoFunction) dep,
       dep ∈ ExtractDependencies item
       ↔ ∃ text,
           text ∈ func_Receiver item :: func_Parameters item ++ func_Returns item
           ∧ dep ∈ extractTypeDependencies text)
  ∧ (∀ item : GoStruct, NoDup (ExtractDependencies item))
  ∧ (∀ item : GoInterface, NoDup (ExtractDependencies item))
  ∧ (∀ item : GoFunction, NoDup (ExtractDependencies item)).
Proof.
  split; [|split; [|split]].
  - intros item dep.
    unfold ExtractDependencies, StructDependencyExtractor, structDependencySet.
    rewrite elem_of_elements, foldl_addDepsExcept_elem_of. set_solver.
  - intros item dep.
    unfold ExtractDependencies, InterfaceDependencyExtractor,
      interfaceDependencySet.
    rewrite elem_of_elements, foldl_addDepsExcept_elem_of. set_solver.
  - intros item dep.
    unfold ExtractDependencies, FunctionDependencyExtractor,
      functionDependencySet.
    rewrite elem_of_elements, !foldl_addDeps_elem_of.
    assert (dep ∈ (if nonEmpty (func_Receiver item)
                   then addDeps ∅ (extractTypeDependencies (func_Receiver item))
                   else ∅)
            ↔ dep ∈ extractTypeDependencies (func_Receiver item)) as ->.
    { destruct (func_Receiver item) as [|c receiver] eqn:Hreceiver.
      - simpl. split; [by intros ?%elem_of_empty|].
        by intros ?%elem_of_nil.
      - simpl. rewrite addDeps_elem_of. split; [|by right].
        by intros [?%elem_of_empty|?]. }
    split.
    + intros [[Hrecv|(text & Hin & Hdep)]|(text & Hin & Hdep)].
      * eexists. split; [left|done].
      * exists text. split; [|done]. right. apply elem_of_app. by left.
      * exists text. split; [|done]. right. apply elem_of_app. by right.
    + intros (text & [->|[Hin|Hin]%elem_of_app]%elem_of_cons & Hdep).
      * by left; left.
      * left; right. by exists text.
      * right. by exists text.
  - split; [|split]; intros item.
    + apply (NoDup_elements (structDependencySet item)).
    + apply (NoDup_elements (interfaceDependencySet item)).
    + apply (NoDup_elements (functionDependencySet item)).
Qed.

(** * Recorded method signatures *)

(** ** Induction on expressions, through the field lists *)

Lemma Expr_nested_ind (P : Expr → Prop) :
  P Nil →
  (∀ name, P (Ident name)) →
  (∀ value, P (BasicLit value)) →
  (∀ x op y, P x → P y → P (BinaryExpr x op y)) →
  (∀ op x, P x → P (UnaryExpr op x)) →
  (∀ x, P x → P (StarExpr x)) →
  (∀ len elt, P len → P elt → P (ArrayType len elt)) →
  (∀ key value, P key → P value → P (MapType key value)) →
  (∀ dir value, P value → P (ChanType dir value)) →
  (∀ params results,
     (∀ fields, params = Some fields →
                Forall (λ field, P (field_Type field)) fields) →
     (∀ fields, results = Some fields →
                Forall (λ field, P (field_Type field)) fields) →
     P (FuncType params results)) →
  (∀ methods, P (InterfaceType methods)) →
  (∀ x sel, P x → P (SelectorExpr x sel)) →
  (∀ x index, P x → P index → P (IndexExpr x index)) →
  P OtherExpr →
  ∀ expr, P expr.
Proof.
  intros HNil HIdent HLit HBinary HUnary HStar HArray HMap HChan HFunc
    HInterface HSelector HIndex HOther.
  fix IH 1. intros [| | |x op y|op x|x|len elt|key value|dir value
                    |params results|methods|x sel|x index|].
  - exact HNil.
  - apply HIdent.
  - apply HLit.
  - apply HBinary; apply IH.
  - apply HUnary; apply IH.
  - apply HStar; apply IH.
  - apply HArray; apply IH.
  - apply HMap; apply IH.
  - apply HChan; apply IH.
  - apply HFunc.
    + destruct params as [fields|]; [|done]. intros ? [= <-].
      induction fields as [|[names typ] fields IHfields]; constructor.
      * apply IH.
      * exact IHfields.
    + destruct results as [fields|]; [|done]. intros ? [= <-].
      induction fields as [|[names typ] fields IHfields]; constructor.
      * apply IH.
      * exact IHfields.
  - apply HInterface.
  - apply HSelector; apply IH.
  - apply HIndex; apply IH.
  - exact HOther.
Qed.

(** ** Parentheses *)

Lemma parenDepth_app (depth : nat) (a b : string) :
  parenDepth depth (a +:+ b)
  = parenDepth depth a ≫= λ depth', parenDepth depth' b.
Proof.
  revert depth. induction a as [|c a IH]; intros depth; [done|].
  rewrite string_app_cons. simpl.
  case_decide; [apply IH|]. case_decide; [|apply IH].
  destruct depth; [done|apply IH].
Qed.

Lemma parenDepth_shift (depth depth' : nat) (s : string) :
  parenDepth depth s = Some depth' →
  parenDepth (S depth) s = Some (S depth').
Proof.
  revert depth. induction s as [|c s IH]; intros depth; simpl.
  - by intros [= ->].
  - case_decide; [apply IH|]. case_decide; [|apply IH].
    destruct depth; [done|apply IH].
Qed.

Lemma balanced_keepsDepth (s : string) : balanced s ↔ keepsDepth s.
Proof.
  split; [|by intros Hs; apply Hs].
  intros Hs depth. induction depth as [|depth IH]; [done|].
  by apply parenDepth_shift.
Qed.

Lemma keepsDepth_noParen (s : string) : noParen s = true → keepsDepth s.
Proof.
  intros Hs depth. revert Hs. unfold noParen.
  induction s as [|c s IH]; [done|]. simpl.
  intros [Hc Hs]%andb_true_iff.
  apply negb_true_iff, bool_decide_eq_false in Hc.
  rewrite !decide_False by set_solver. by apply IH.
Qed.

Lemma keepsDepth_app (a b : string) :
  keepsDepth a → keepsDepth b → keepsDepth (a +:+ b).
Proof.
  intros Ha Hb depth. rewrite parenDepth_app, Ha. simpl. apply Hb.
Qed.

Lemma keepsDepth_parens (s : string) :
  keepsDepth s → keepsDepth ("(" +:+ s +:+ ")").
Proof.
  intros Hs depth.
  change ("(" +:+ s +:+ ")") with (String "(" (s +:+ ")")). simpl.
  rewrite parenDepth_app, Hs. done.
Qed.

Lemma keepsDepth_Join (elems : list string) (sep : string) :
  Forall keepsDepth elems → keepsDepth sep → keepsDepth (Join elems sep).
Proof.
  intros Helems Hsep. induction Helems as [|e elems He Helems IH]; [done|].
  rewrite Join_cons. apply keepsDepth_app; [done|].
  destruct elems; [done|]. by apply keepsDepth_app.
Qed.

Lemma noParen_app (a b : string) : noParen (a +:+ b) = noParen a && noParen b.
Proof. apply allBytes_app. Qed.

Lemma formatExpr_noParen (expr : Expr) :
  parenFree expr = true → noParen (formatExpr expr) = true.
Proof.
  induction expr; simpl; try done.
  - intros [[Hx Hop]%andb_true_iff Hy]%andb_true_iff.
    rewrite !noParen_app, IHexpr1, IHexpr2, Hop by done. done.
  - intros [Hop Hx]%andb_true_iff.
    by rewrite noParen_app, Hop, IHexpr.
Qed.

Lemma fieldTypes_elem_of (formatType : Expr → string) (fields : list Field)
    (text : string) :
  text ∈ fieldTypes formatType fields →
  ∃ field, field ∈ fields ∧ text = formatType (field_Type field).
Proof.
  unfold fieldTypes. intros (field & Htext & Hin)%list_elem_of_bind.
  exists field. split; [done|].
  destruct (field_Names field) as [|name names].
  - by apply list_elem_of_singleton in Htext.
  - by apply list_elem_of_fmap in Htext as (_ & -> & _).
Qed.

Lemma forallb_elem_of {A} (f : A → bool) (l : list A) (x : A) :
  forallb f l = true → x ∈ l → f x = true.
Proof.
  induction l as [|y l IH]; simpl; [by intros _ ?%elem_of_nil|].
  intros [Hy Hl]%andb_true_iff [->|Hin]%elem_of_cons; [done|by apply IH].
Qed.

Lemma fieldTypes_keepsDepth (fields : list Field) :
  forallb (λ field, parenFree (field_Type field)) fields = true →
  Forall (λ field, parenFree (field_Type field) = true →
                   keepsDepth (formatType (field_Type field))) fields →
  Forall keepsDepth (fieldTypes formatType fields).
Proof.
  intros Hfree HIH. apply Forall_forall.
  intros text (field & Hin & ->)%fieldTypes_elem_of.
  rewrite Forall_forall in HIH.
  apply HIH; [done|].
  by apply (forallb_elem_of (λ field, parenFree (field_Type field)) fields).
Qed.

(** The rendering of an expression without parentheses in its names has
    its parentheses balanced. *)
Lemma formatType_keepsDepth (expr : Expr) :
  parenFree expr = true → keepsDepth (formatType expr).
Proof.
  induction expr as [|name|value|x op y _ _|op x _|x IHx|len elt _ IHelt
                     |key value IHkey IHvalue|dir value IHvalue
                     |params results IHparams IHresults|methods
                     |x sel IHx|x index IHx IHindex|]
    using Expr_nested_ind; simpl.
  - done.
  - apply keepsDepth_noParen.
  - done.
  - done.
  - done.
  - intros Hx. apply keepsDepth_app; [done|by apply IHx].
  - intros [Hlen Helt]%andb_true_iff.
    assert (keepsDepth ("[" +:+ formatExpr len +:+ "]" +:+ formatType elt)).
    { apply (keepsDepth_app "["); [done|].
      apply keepsDepth_app; [by apply keepsDepth_noParen, formatExpr_noParen|].
      apply (keepsDepth_app "]"); [done|by apply IHelt]. }
    by destruct len.
  - intros [Hkey Hvalue]%andb_true_iff.
    apply (keepsDepth_app "map["); [done|].
    apply keepsDepth_app; [by apply IHkey|].
    apply (keepsDepth_app "]"); [done|by apply IHvalue].
  - intros Hvalue. apply keepsDepth_app; [by destruct dir|].
    apply (keepsDepth_app "chan "); [done|by apply IHvalue].
  - intros [Hparams Hresults]%andb_true_iff.
    apply (keepsDepth_app "func"); [done|].
    change (keepsDepth ("(" +:+ funcParams formatType params +:+ ")"
                          +:+ funcResults formatType results)).
    rewrite <-(string_app_assoc (funcParams formatType params) ")").
    rewrite <-(string_app_assoc "(").
    apply keepsDepth_app.
    + apply keepsDepth_parens. destruct params as [fields|]; [|done].
      simpl. apply keepsDepth_Join; [|done].
      apply fieldTypes_keepsDepth; [done|by apply IHparams].
    + destruct results as [fields|]; [|done]. simpl.
      assert (Forall keepsDepth (fieldTypes formatType fields)) as Hlist
        by (apply fieldTypes_keepsDepth; [done|by apply IHresults]).
      destruct (fieldTypes formatType fields) as [|result [|result' rest]].
      * done.
      * apply (keepsDepth_app " "); [done|]. by inversion Hlist.
      * apply (keepsDepth_app " "); [done|].
        apply keepsDepth_parens.
        by apply (keepsDepth_Join (result :: result' :: rest) ", ").
  - done.
  - intros [Hx Hsel]%andb_true_iff.
    apply keepsDepth_app; [by apply IHx|].
    apply (keepsDepth_app "."); [done|by apply keepsDepth_noParen].
  - intros [Hx Hindex]%andb_true_iff.
    apply keepsDepth_app; [by apply IHx|].
    apply (keepsDepth_app "["); [done|].
    apply keepsDepth_app; [by apply IHindex|done].
  - done.
Qed.

Lemma funcParams_balanced (params : option (list Field)) :
  parenFreeFields params = true → balanced (funcParams formatType params).
Proof.
  intros Hparams. apply balanced_keepsDepth.
  destruct params as [fields|]; [|done]. simpl.
  apply keepsDepth_Join; [|done].
  apply fieldTypes_keepsDepth; [done|].
  apply Forall_forall. intros field _. apply formatType_keepsDepth.
Qed.

Lemma TrimPrefix_app (pre rest : string) : TrimPrefix (pre +:+ rest) pre = rest.
Proof.
  unfold TrimPrefix, HasPrefix. rewrite prefix_app, string_length_app.
  replace (String.length pre + String.length rest - String.length pre)%nat
    with (String.length rest) by lia.
  apply substring_suffix.
Qed.

Lemma formatFuncSignature_parts (name : string)
    (params results : option (list Field)) :
  formatFuncSignature name params results
  = name +:+ "(" +:+ funcParams formatType params +:+ ")"
      +:+ funcResults formatType results.
Proof.
  unfold formatFuncSignature, formatFuncType.
  change ("func(" +:+ funcParams formatType params +:+ ")"
            +:+ funcResults formatType results)
    with ("func" +:+ "(" +:+ funcParams formatType params +:+ ")"
            +:+ funcResults formatType results).
  by rewrite TrimPrefix_app.
Qed.

(** X16. What the interface visitor records for a method is what the stub
    generator reads back: when no name inside the parameter types has a
    parenthesis, the recorded signature is taken apart into the method
    name, the rendered parameter list and the rendered results. *)
Theorem recorded_signature_parses (name : string)
    (params results : option (list Field)) :
  Contains name "(" = false →
  parenFreeFields params = true →
  parseMethodSignature (formatFuncSignature name params results)
  = (TrimSpace name, funcParams formatType params,
     TrimSpace (funcResults formatType results)).
Proof.
  intros Hname Hparams. rewrite formatFuncSignature_parts.
  apply parseMethodSignature_parts; [done|by apply funcParams_balanced].
Qed.

Lemma recorded_signature_parses_witness :
  let params :=
    Some [ mkField ["r"] (Ident "Reader");
           mkField ["f"]
             (FuncType (Some [mkField [] (Ident "int")])
                       (Some [mkField [] (Ident "error")])) ] in
  let results :=
    Some [ mkField [] (Ident "int"); mkField [] (Ident "error") ] in
  Contains "Handle" "(" = false
  ∧ parenFreeFields params = true
  ∧ formatFuncSignature "Handle" params results
    = "Handle(Reader, func(int) error) (int, error)"
  ∧ parseMethodSignature "Handle(Reader, func(int) error) (int, error)"
    = ("Handle", "Reader, func(int) error", "(int, error)")
  ∧ parseMethodSignature (formatFuncSignature "Handle" params results)
    = (TrimSpace "Handle", funcParams formatType params,
       TrimSpace (funcResults formatType results)).
Proof.
  cbv zeta.
  split; [reflexivity|]. split; [reflexivity|].
  split; [vm_compute; reflexivity|]. split; [vm_compute; reflexivity|].
  apply (recorded_signature_parses "Handle"); reflexivity.
Defined.

(** * The values of a return statement *)

Lemma commas_app (s t : string) : commas (s +:+ t) = (commas s + commas t)%nat.
Proof.
  induction s as [|c s IH]; [done|]. rewrite string_app_cons. simpl.
  rewrite IH. lia.
Qed.

Lemma commas_rev (s : string) : commas (String.rev s) = commas s.
Proof.
  induction s as [|c s IH]; [done|].
  rewrite rev_cons, commas_app, IH. simpl. lia.
Qed.

Lemma commas_notComma (s : string) : allBytes notComma s = true → commas s = O.
Proof.
  induction s as [|c s IH]; [done|]. simpl.
  intros [Hc Hs]%andb_true_iff.
  apply negb_true_iff, bool_decide_eq_false in Hc.
  rewrite decide_False by done. by rewrite IH.
Qed.

Lemma commas_trimLeftSet (cutset : list ascii) (s : string) :
  ","%char ∉ cutset → commas (trimLeftSet cutset s) = commas s.
Proof.
  intros Hcut. induction s as [|c s IH]; [done|]. simpl.
  case_bool_decide as Hc; [|done].
  rewrite IH. rewrite decide_False; [done|]. by intros ->.
Qed.

Lemma commas_Trim (cutset : list ascii) (s : string) :
  ","%char ∉ cutset → commas (Trim s cutset) = commas s.
Proof.
  intros Hcut. unfold Trim.
  by rewrite commas_rev, commas_trimLeftSet, commas_rev, commas_trimLeftSet.
Qed.

(** [strings.Split] at the commas: one part more than there are commas,
    and no comma is left in a part. *)
Lemma split_go_commas (cur s : string) :
  allBytes notComma cur = true →
  length (split_go "," cur s) = S (commas s)
  ∧ Forall (λ part, allBytes notComma part = true) (split_go "," cur s).
Proof.
  revert cur. induction s as [|c s IH]; intros cur Hcur; simpl.
  - split; [done|]. constructor; [by rewrite allBytes_rev|constructor].
  - case_decide as Hc.
    + destruct (IH EmptyString eq_refl) as [Hlen Hparts]. split.
      * simpl. by rewrite Hlen.
      * constructor; [by rewrite allBytes_rev|done].
    + apply IH. simpl. rewrite Hcur.
      unfold notComma. by rewrite bool_decide_eq_false_2.
Qed.

Lemma commas_Join (elems : list string) :
  elems ≠ [] →
  Forall (λ e, commas e = O) elems →
  commas (Join elems ", ") = Nat.pred (length elems).
Proof.
  intros Hne Helems. induction Helems as [|e elems He Helems IH]; [done|].
  rewrite Join_cons, commas_app, He.
  destruct elems as [|e' elems]; [done|].
  rewrite commas_app, IH by done. done.
Qed.

(** What trimming and cutting into fields return is made of bytes of the
    string. *)
Lemma trim_go_allBytes (f : ascii → bool) (pats : list string) (skip : nat)
    (s : string) :
  allBytes f s = true → allBytes f (trim_go pats skip s) = true.
Proof.
  revert skip. induction s as [|c s IH]; intros skip Hs; [done|].
  pose proof Hs as Hcs. simpl in Hs. apply andb_true_iff in Hs as [_ Hs].
  destruct skip as [|skip]; [|by apply IH].
  change (trim_go pats O (String c s))
    with (match spaceWidth pats (String c s) with
          | O => String c s
          | S k => trim_go pats k s
          end).
  destruct (spaceWidth pats (String c s)); [done|by apply IH].
Qed.

Lemma TrimSpace_allBytes (f : ascii → bool) (s : string) :
  allBytes f s = true → allBytes f (TrimSpace s) = true.
Proof.
  intros Hs. unfold TrimSpace, trimRightSpace, trimLeftSpace.
  rewrite allBytes_rev. apply trim_go_allBytes.
  rewrite allBytes_rev. by apply trim_go_allBytes.
Qed.

Lemma emit_allBytes (f : ascii → bool) (cur : string) :
  allBytes f cur = true → Forall (λ e, allBytes f e = true) (emit cur).
Proof.
  intros Hcur. unfold emit. destruct cur; [constructor|].
  constructor; [by rewrite allBytes_rev|constructor].
Qed.

Lemma fields_go_allBytes (f : ascii → bool) (skip : nat) (cur s : string) :
  allBytes f cur = true → allBytes f s = true →
  Forall (λ e, allBytes f e = true) (fields_go skip cur s).
Proof.
  revert skip cur. induction s as [|c s IH]; intros skip cur Hcur Hs.
  - by apply emit_allBytes.
  - pose proof Hs as Hcs. simpl in Hs. apply andb_true_iff in Hs as [Hc Hs].
    destruct skip as [|skip]; [|by apply IH].
    change (fields_go O cur (String c s))
      with (match spaceWidth allSpaceRunes (String c s) with
            | O => fields_go O (String c cur) s
            | S k => emit cur ++ fields_go k EmptyString s
            end).
    destruct (spaceWidth allSpaceRunes (String c s)).
    + apply IH; [|done]. simpl. by rewrite Hc, Hcur.
    + apply Forall_app. split; [by apply emit_allBytes|by apply IH].
Qed.

Lemma returnTypeToken_allBytes (f : ascii → bool) (typ : string) :
  allBytes f typ = true → allBytes f (returnTypeToken typ) = true.
Proof.
  intros Htyp. unfold returnTypeToken.
  pose proof (TrimSpace_allBytes f typ Htyp) as Htrim.
  destruct (Contains (TrimSpace typ) " "); [|done].
  destruct (last (Fields (TrimSpace typ))) as [l|] eqn:Hlast; [|done].
  case_decide; [|done].
  pose proof (fields_go_allBytes f O EmptyString (TrimSpace typ) eq_refl Htrim)
    as Hfields.
  rewrite Forall_forall in Hfields. apply Hfields.
  apply last_Some in Hlast as [l' Hl]. unfold Fields in Hl. rewrite Hl.
  apply elem_of_app. right. left.
Qed.

Lemma getZeroValue_commas (typ : string) :
  allBytes notComma typ = true → commas (getZeroValue typ) = O.
Proof.
  intros Htyp. unfold getZeroValue.
  repeat (case_match; [done|]).
  rewrite commas_app, (commas_notComma typ Htyp). done.
Qed.

(** X17. The generated return statement has as many commas as the return
    clause it was made from: one value for each comma-separated entry of
    the clause, whatever the entries are. *)
Theorem generateZeroValues_one_per_entry (returnTypes : string) :
  commas (generateZeroValues returnTypes) = commas returnTypes.
Proof.
  unfold generateZeroValues. destruct returnTypes as [|c returnTypes]; [done|].
  set (trimmed := Trim (String c returnTypes) ["("; ")"]%char).
  destruct (split_go_commas EmptyString trimmed eq_refl) as [Hlen Hparts].
  rewrite commas_Join.
  - rewrite length_fmap. unfold Split. rewrite Hlen. simpl.
    apply commas_Trim. set_solver.
  - unfold Split. destruct (split_go "," EmptyString trimmed); [done|done].
  - apply Forall_fmap. unfold Split.
    eapply Forall_impl; [exact Hparts|]. intros part Hpart. simpl.
    by apply getZeroValue_commas, returnTypeToken_allBytes.
Qed.
